(** * pbr-renderer: the shading core, the scene objects, the camera and the
      frame driver, embedded in Rocq

    The development follows the repository file by file:

    - [Glsl]            the GLSL ES 3.00 built-ins the fragment shader calls;
    - [Shader]          [src/shaders/fragment.glsl];
    - [Shader32]        [DistributionGGX] of the same file in binary32;
    - [Js]              JavaScript values, truthiness and a heap of arrays and
                        material objects;
    - [GlMatrix]        the gl-matrix calls the host code makes;
    - [Scene]           [scene-object.js] ([SceneObject], [SceneManager]);
    - [Cam]             [camera.js];
    - [Gl]              [webgl-utils.js] ([UniformManager]), [Mesh.render] of
                        [mesh.js] and the render loop of [main.js];
    - [Program]         [compileShader] and [createShaderProgram] of
                        [webgl-utils.js];
    - [MeshJs]          the geometry [mesh.js] generates, [loadFromData] and
                        [dispose];
    - [Editor]          the presets and material updates of
                        [material-editor.js];
    - [Samples]         inputs on which the statements are exercised;
    - [ShaderFacts], [Shader32Facts], [SceneFacts], [CamFacts], [GlFacts],
      [MeshFacts], [EditorFacts], [ProgramFacts]
                        what is proved of each part.

    Numbers.  GLSL [float]s and JavaScript numbers are modelled as real
    numbers: arithmetic is exact, there is no rounding, no infinity and no
    NaN.  A division whose divisor is zero is therefore not given a
    meaning here; statements about such divisions are statements about the
    divisor.  Where rounding changes more than the last digits, the code is
    also given in binary32: [Shader32] has [DistributionGGX] in the
    arithmetic of [precision highp float], in which its divisor cancels to
    0 for a roughness below about 0.013; the range of the colour, which
    depends on that divisor, is stated for a roughness of 0.05 or more. *)

From Stdlib Require Import Reals Lra Lia ZArith Psatz.
From Stdlib Require Floats.SpecFloat.
From stdpp Require Import base strings pretty list gmap.
From Equations Require Import Equations.

(* ===================================================================== *)
(** * GLSL built-ins *)
(* ===================================================================== *)

Module Glsl.
Local Open Scope R_scope.

Record vec2 := Vec2 { v2x : R; v2y : R }.
Record vec3 := Vec3 { vx : R; vy : R; vz : R }.
Record vec4 := Vec4 { v4x : R; v4y : R; v4z : R; v4w : R }.

(** [vec3(s)] *)
Definition vec3s (s : R) : vec3 := Vec3 s s s.

(** [vec4(v, w)] *)
Definition vec4of (v : vec3) (w : R) : vec4 := Vec4 (vx v) (vy v) (vz v) w.

(** Component-wise operators on [vec3], and the mixed scalar forms. *)
Definition vmap (f : R -> R) (a : vec3) : vec3 :=
  Vec3 (f (vx a)) (f (vy a)) (f (vz a)).
Definition vmap2 (f : R -> R -> R) (a b : vec3) : vec3 :=
  Vec3 (f (vx a) (vx b)) (f (vy a) (vy b)) (f (vz a) (vz b)).

Definition vadd : vec3 -> vec3 -> vec3 := vmap2 Rplus.
Definition vsub : vec3 -> vec3 -> vec3 := vmap2 Rminus.
Definition vmul : vec3 -> vec3 -> vec3 := vmap2 Rmult.
Definition vdiv : vec3 -> vec3 -> vec3 := vmap2 Rdiv.
Definition vneg : vec3 -> vec3 := vmap Ropp.
(** [v * s] and [s * v] *)
Definition vmuls (a : vec3) (s : R) : vec3 := vmap (fun x => x * s) a.
Definition smulv (s : R) (a : vec3) : vec3 := vmap (fun x => s * x) a.
(** [v / s] *)
Definition vdivs (a : vec3) (s : R) : vec3 := vmap (fun x => x / s) a.
(** [s - v] *)
Definition ssubv (s : R) (a : vec3) : vec3 := vmap (fun x => s - x) a.

Definition dot (a b : vec3) : R := vx a * vx b + vy a * vy b + vz a * vz b.
Definition length (a : vec3) : R := sqrt (dot a a).
Definition normalize (a : vec3) : vec3 := vdivs a (length a).

Definition max (x y : R) : R := if Rlt_dec x y then y else x.
Definition min (x y : R) : R := if Rlt_dec y x then y else x.
Definition vmax : vec3 -> vec3 -> vec3 := vmap2 max.

(** [clamp(x, minVal, maxVal) = min(max(x, minVal), maxVal)] *)
Definition clamp (x minVal maxVal : R) : R := min (max x minVal) maxVal.

(** [mix(x, y, a) = x*(1-a) + y*a], with a scalar weight. *)
Definition mix (x y a : R) : R := x * (1 - a) + y * a.
Definition vmix (x y : vec3) (a : R) : vec3 := vmap2 (fun p q => mix p q a) x y.

(** [pow(x, y)]: GLSL leaves [x < 0] undefined, and [pow(0, y)] is [0] for
    [y > 0]; the model returns [0] whenever [x <= 0]. *)
Definition pow (x y : R) : R := if Rlt_dec 0 x then Rpower x y else 0.
Definition vpow (a b : vec3) : vec3 := vmap2 pow a b.

(** [smoothstep(edge0, edge1, x)], by the formula of the GLSL
    specification.  The specification leaves the result undefined when
    [edge0 >= edge1]; the shader calls it with [edge0 > edge1] for the range
    falloff, and the model follows the formula there too, as
    implementations do. *)
Definition smoothstep (edge0 edge1 x : R) : R :=
  let t := clamp ((x - edge0) / (edge1 - edge0)) 0 1 in
  t * t * (3 - 2 * t).

(** [reflect(I, N) = I - 2 * dot(N, I) * N] *)
Definition reflect (I N : vec3) : vec3 := vsub I (smulv (2 * dot N I) N).

(** [radians(degrees)] *)
Definition radians (degrees : R) : R := PI / 180 * degrees.

(** Component-wise [a <= b]. *)
Definition vle (a b : vec3) : Prop :=
  vx a <= vx b /\ vy a <= vy b /\ vz a <= vz b.

End Glsl.

(* ===================================================================== *)
(** * The fragment shader *)
(* ===================================================================== *)

Module Shader.
Import Glsl.
Local Open Scope R_scope.

(** [#define PI 3.14159265359] (the macro; [radians] uses the exact constant) *)
Definition PI : R := 3.14159265359.
Definition MAX_LIGHTS : Z := 8.
Definition LIGHT_DIRECTIONAL : Z := 0.
Definition LIGHT_POINT : Z := 1.
Definition LIGHT_SPOT : Z := 2.

(** The uniforms and the inputs from the vertex shader. *)
Record uniforms := Uniforms {
  u_cameraPosition : vec3;
  u_numLights : Z;
  u_lightTypes : list Z;
  u_lightPositions : list vec3;
  u_lightDirections : list vec3;
  u_lightColors : list vec3;
  u_lightIntensities : list R;
  u_lightRanges : list R;
  u_lightInnerCones : list R;
  u_lightOuterCones : list R;
  u_useIBL : bool;
  u_iblIntensity : R;
  u_ambientColor : vec3;
  u_albedo : vec3;
  u_metallic : R;
  u_roughness : R;
  u_ao : R
}.

Record varyings := Varyings {
  v_worldPosition : vec3;
  v_normal : vec3;
  v_texCoord : vec2
}.

(** ** PBR functions *)

Definition DistributionGGX_a2 (roughness : R) : R :=
  let a := roughness * roughness in
  a * a.

(** The divisor of [DistributionGGX], [PI * denom * denom].  Over the reals
    [a2 - 1 + 1] is [a2]; in the shader's binary32 [a2 - 1.0] rounds to
    [-1.0] once [a2] is at most [2^-25], and the divisor is then 0 where
    [NdotH] is 1: see [Shader32.DistributionGGX_denom]. *)
Definition DistributionGGX_denom (N H : vec3) (roughness : R) : R :=
  let a2 := DistributionGGX_a2 roughness in
  let NdotH := max (dot N H) 0 in
  let NdotH2 := NdotH * NdotH in
  let denom := NdotH2 * (a2 - 1) + 1 in
  let denom := PI * denom * denom in
  denom.

Definition DistributionGGX (N H : vec3) (roughness : R) : R :=
  DistributionGGX_a2 roughness / DistributionGGX_denom N H roughness.

(** The divisor of [GeometrySchlickGGX], [NdotV * (1 - k) + k]. *)
Definition GeometrySchlickGGX_denom (NdotV roughness : R) : R :=
  let r := roughness + 1 in
  let k := (r * r) / 8 in
  let denom := NdotV * (1 - k) + k in
  denom.

Definition GeometrySchlickGGX (NdotV roughness : R) : R :=
  NdotV / GeometrySchlickGGX_denom NdotV roughness.

Definition GeometrySmith (N V L : vec3) (roughness : R) : R :=
  let NdotV := max (dot N V) 0 in
  let NdotL := max (dot N L) 0 in
  let ggx2 := GeometrySchlickGGX NdotV roughness in
  let ggx1 := GeometrySchlickGGX NdotL roughness in
  ggx1 * ggx2.

Definition fresnelSchlick (cosTheta : R) (F0 : vec3) : vec3 :=
  vadd F0 (vmuls (ssubv 1 F0) (pow (clamp (1 - cosTheta) 0 1) 5)).

Definition fresnelSchlickRoughness (cosTheta : R) (F0 : vec3) (roughness : R) : vec3 :=
  vadd F0 (vmuls (vsub (vmax (vec3s (1 - roughness)) F0) F0)
                 (pow (clamp (1 - cosTheta) 0 1) 5)).

(** ** IBL functions *)

Definition sampleSky (direction : vec3) : vec3 :=
  let horizon := vy direction in
  let skyColor := vmix (Vec3 0.4 0.7 1) (Vec3 1 0.9 0.7)
                       (pow (max 0 (- horizon)) 0.5) in
  let sunDir := normalize (Vec3 0.3 0.8 0.2) in
  let sunDot := max (dot direction sunDir) 0 in
  let skyColor := vadd skyColor (vmuls (vmuls (Vec3 1 0.8 0.4) (pow sunDot 128)) 2) in
  skyColor.

Definition sampleIrradiance (normal : vec3) : vec3 :=
  let skyUp := sampleSky (Vec3 0 1 0) in
  let skyDown := sampleSky (Vec3 0 (-1) 0) in
  let skyForward := sampleSky normal in
  vmuls (vadd (vadd skyUp skyDown) (vmuls skyForward 2)) 0.25.

Definition sampleRadiance (reflectDir : vec3) (roughness : R) : vec3 :=
  vmuls (sampleSky reflectDir) (1 - roughness * 0.7).

(** ** Lighting functions *)

(** The two statements both the point and the spot branch of
    [calculateLightContribution] execute:
    [attenuation = lightIntensity / (distance * distance);
     attenuation *= smoothstep(lightRange, lightRange * 0.5, distance);] *)
Definition rangeAttenuation (lightIntensity lightRange distance : R) : R :=
  let attenuation := lightIntensity / (distance * distance) in
  attenuation * smoothstep lightRange (lightRange * 0.5) distance.

(** The first part of [calculateLightContribution]: the light vector [L] and
    the [attenuation] as they stand when the [attenuation < 0.001] test is
    reached.  For a [lightType] that is none of the three, [L] is read
    uninitialised; the model takes the zero vector there. *)
Definition lightVectorAndAttenuation
    (lightType : Z) (lightPos lightDir : vec3)
    (lightIntensity lightRange innerCone outerCone : R)
    (worldPos : vec3) : vec3 * R :=
  if (lightType =? LIGHT_DIRECTIONAL)%Z then
    (normalize (vneg lightDir), 1)
  else if (lightType =? LIGHT_POINT)%Z then
    let L := normalize (vsub lightPos worldPos) in
    let distance := length (vsub lightPos worldPos) in
    (L, rangeAttenuation lightIntensity lightRange distance)
  else if (lightType =? LIGHT_SPOT)%Z then
    let L := normalize (vsub lightPos worldPos) in
    let distance := length (vsub lightPos worldPos) in
    let attenuation := rangeAttenuation lightIntensity lightRange distance in
    let spotDir := normalize lightDir in
    let cosTheta := dot L (vneg spotDir) in
    let innerCos := cos (radians innerCone) in
    let outerCos := cos (radians outerCone) in
    let coneAttenuation := smoothstep outerCos innerCos cosTheta in
    (L, attenuation * coneAttenuation)
  else
    (vec3s 0, 1).

(** The Cook-Torrance part of [calculateLightContribution]: the pair
    [(diffuse, specular)]. *)
Definition brdfTerms (N V L albedo : vec3) (metallic roughness : R) (F0 : vec3)
    : vec3 * vec3 :=
  let H := normalize (vadd V L) in
  let NdotV := max (dot N V) 0 in
  let NdotL := max (dot N L) 0 in
  let HdotV := max (dot H V) 0 in
  let D := DistributionGGX N H roughness in
  let G := GeometrySmith N V L roughness in
  let F := fresnelSchlick HdotV F0 in
  let numerator := smulv (D * G) F in
  let denominator := 4 * NdotV * NdotL + 0.0001 in
  let specular := vdivs numerator denominator in
  let kS := F in
  let kD := vsub (vec3s 1) kS in
  let kD := vmuls kD (1 - metallic) in
  let diffuse := vdivs (vmul kD albedo) PI in
  (diffuse, specular).

Definition calculateLightContribution
    (lightType : Z) (lightPos lightDir lightColor : vec3)
    (lightIntensity lightRange innerCone outerCone : R)
    (worldPos N V albedo : vec3) (metallic roughness : R) (F0 : vec3) : vec3 :=
  let '(L, attenuation) :=
    lightVectorAndAttenuation lightType lightPos lightDir
      lightIntensity lightRange innerCone outerCone worldPos in
  if Rlt_dec attenuation 0.001 then vec3s 0
  else
    let NdotL := max (dot N L) 0 in
    let '(diffuse, specular) := brdfTerms N V L albedo metallic roughness F0 in
    let radiance := vmuls lightColor attenuation in
    vmuls (vmul (vadd diffuse specular) radiance) NdotL.

(** ** Main shader *)

(** Reading element [i] of a uniform array; the loop keeps [0 <= i < 8].  An
    entry the list does not have reads as [d], the value of a uniform that
    was never set. *)
Definition at_index {A} (arr : list A) (i : Z) (d : A) : A := nth (Z.to_nat i) arr d.

(** The values [main] computes before the light loop. *)
Definition main_albedo (u : uniforms) : vec3 := vpow (u_albedo u) (vec3s 2.2).
Definition main_metallic (u : uniforms) : R := u_metallic u.
Definition main_roughness (u : uniforms) : R := u_roughness u.
Definition main_ao (u : uniforms) : R := u_ao u.
Definition main_N (v : varyings) : vec3 := normalize (v_normal v).
Definition main_V (u : uniforms) (v : varyings) : vec3 :=
  normalize (vsub (u_cameraPosition u) (v_worldPosition v)).
Definition main_R (u : uniforms) (v : varyings) : vec3 :=
  reflect (vneg (main_V u v)) (main_N v).
Definition main_F0 (u : uniforms) : vec3 :=
  vmix (vec3s 0.04) (main_albedo u) (main_metallic u).

(** The call in the body of the light loop, for index [i]. *)
Definition lightContribution (u : uniforms) (v : varyings) (i : Z) : vec3 :=
  calculateLightContribution
    (at_index (u_lightTypes u) i 0%Z)
    (at_index (u_lightPositions u) i (vec3s 0))
    (at_index (u_lightDirections u) i (vec3s 0))
    (at_index (u_lightColors u) i (vec3s 0))
    (at_index (u_lightIntensities u) i 0)
    (at_index (u_lightRanges u) i 0)
    (at_index (u_lightInnerCones u) i 0)
    (at_index (u_lightOuterCones u) i 0)
    (v_worldPosition v)
    (main_N v) (main_V u v)
    (main_albedo u) (main_metallic u) (main_roughness u) (main_F0 u).

(** [for (int i = ...; i < u_numLights && i < MAX_LIGHTS; i++) Lo += ...],
    entered with the current [i] and [Lo]. *)
Equations? lightLoop (u : uniforms) (v : varyings) (i : Z) (Lo : vec3) : vec3
    by wf (Z.to_nat (MAX_LIGHTS - i)) lt :=
  lightLoop u v i Lo with Z_lt_dec i (u_numLights u) := {
    | left _ with Z_lt_dec i MAX_LIGHTS := {
      | left _ := lightLoop u v (i + 1) (vadd Lo (lightContribution u v i));
      | right _ := Lo };
    | right _ := Lo }.
Proof. unfold MAX_LIGHTS in *. lia. Qed.

Definition main_Lo (u : uniforms) (v : varyings) : vec3 :=
  lightLoop u v 0 (vec3s 0).

(** The IBL branch of [main]: [(kD * diffuse, specular)] before they are
    summed and scaled. *)
Definition iblTerms (u : uniforms) (v : varyings) : vec3 * vec3 :=
  let irradiance := sampleIrradiance (main_N v) in
  let diffuse := vmul irradiance (main_albedo u) in
  let NdotV := max (dot (main_N v) (main_V u v)) 0 in
  let F := fresnelSchlickRoughness NdotV (main_F0 u) (main_roughness u) in
  let kS := F in
  let kD := ssubv 1 kS in
  let kD := vmuls kD (1 - main_metallic u) in
  let prefilteredColor := sampleRadiance (main_R u v) (main_roughness u) in
  let specular := vmul prefilteredColor F in
  (vmul kD diffuse, specular).

Definition main_ambient (u : uniforms) (v : varyings) : vec3 :=
  if u_useIBL u then
    let '(kD_diffuse, specular) := iblTerms u v in
    vmuls (vmuls (vadd kD_diffuse specular) (main_ao u)) (u_iblIntensity u)
  else
    vmuls (vmul (u_ambientColor u) (main_albedo u)) (main_ao u).

(** [main]: the value written to [fragColor]. *)
Definition main (u : uniforms) (v : varyings) : vec4 :=
  let color := vadd (main_ambient u v) (main_Lo u v) in
  let color := vdiv color (vadd color (vec3s 1)) in
  let color := vpow color (vec3s (1 / 2.2)) in
  vec4of color 1.

(** ** Variants of the uniforms, for stating what [main] depends on *)

(** The same uniforms with another [u_numLights]. *)
Definition with_numLights (u : uniforms) (n : Z) : uniforms :=
  {| u_cameraPosition := u_cameraPosition u;
     u_numLights := n;
     u_lightTypes := u_lightTypes u;
     u_lightPositions := u_lightPositions u;
     u_lightDirections := u_lightDirections u;
     u_lightColors := u_lightColors u;
     u_lightIntensities := u_lightIntensities u;
     u_lightRanges := u_lightRanges u;
     u_lightInnerCones := u_lightInnerCones u;
     u_lightOuterCones := u_lightOuterCones u;
     u_useIBL := u_useIBL u;
     u_iblIntensity := u_iblIntensity u;
     u_ambientColor := u_ambientColor u;
     u_albedo := u_albedo u;
     u_metallic := u_metallic u;
     u_roughness := u_roughness u;
     u_ao := u_ao u |}.

(** The same uniforms with every light array cut after its first [k]
    entries. *)
Definition keep_lights (k : nat) (u : uniforms) : uniforms :=
  {| u_cameraPosition := u_cameraPosition u;
     u_numLights := u_numLights u;
     u_lightTypes := firstn k (u_lightTypes u);
     u_lightPositions := firstn k (u_lightPositions u);
     u_lightDirections := firstn k (u_lightDirections u);
     u_lightColors := firstn k (u_lightColors u);
     u_lightIntensities := firstn k (u_lightIntensities u);
     u_lightRanges := firstn k (u_lightRanges u);
     u_lightInnerCones := firstn k (u_lightInnerCones u);
     u_lightOuterCones := firstn k (u_lightOuterCones u);
     u_useIBL := u_useIBL u;
     u_iblIntensity := u_iblIntensity u;
     u_ambientColor := u_ambientColor u;
     u_albedo := u_albedo u;
     u_metallic := u_metallic u;
     u_roughness := u_roughness u;
     u_ao := u_ao u |}.

(** The radiance the lights with the given indices add to [Lo], in order. *)
Definition accumulate (u : uniforms) (v : varyings) (indices : list nat) (Lo : vec3)
    : vec3 :=
  fold_left (fun Lo i => vadd Lo (lightContribution u v (Z.of_nat i))) indices Lo.

(** The ranges the data model gives the inputs of the shader: albedo and ao
    in [[0, 1]], metallic in [[0, 1]], roughness in [(0, 1]], and no negative
    light colour, ambient colour or IBL intensity. *)
Definition in_contract (u : uniforms) : Prop :=
  vle (vec3s 0) (u_albedo u) /\ vle (u_albedo u) (vec3s 1)
  /\ 0 <= u_metallic u <= 1
  /\ 0 < u_roughness u <= 1
  /\ 0 <= u_ao u <= 1
  /\ 0 <= u_iblIntensity u
  /\ vle (vec3s 0) (u_ambientColor u)
  /\ Forall (vle (vec3s 0)) (u_lightColors u).

(** ** Sample inputs *)

(** The uniforms of a draw with one directional light shining along [-z],
    the camera at [cameraPosition], and the given material. *)
Definition sample_uniforms (cameraPosition albedo : vec3) (metallic roughness ao : R)
    : uniforms :=
  {| u_cameraPosition := cameraPosition;
     u_numLights := 1;
     u_lightTypes := [LIGHT_DIRECTIONAL];
     u_lightPositions := [Vec3 0 0 0];
     u_lightDirections := [Vec3 0 0 (-1)];
     u_lightColors := [Vec3 1 0.95 0.8];
     u_lightIntensities := [3];
     u_lightRanges := [0];
     u_lightInnerCones := [0];
     u_lightOuterCones := [0];
     u_useIBL := true;
     u_iblIntensity := 1;
     u_ambientColor := Vec3 0.1 0.1 0.15;
     u_albedo := albedo;
     u_metallic := metallic;
     u_roughness := roughness;
     u_ao := ao |}.

(** The Gold and the Glass preset, seen from [(0, 0, 1)]. *)
Definition gold_uniforms : uniforms :=
  sample_uniforms (Vec3 0 0 1) (Vec3 1 0.8 0.1) 1 0.1 1.
Definition glass_uniforms : uniforms :=
  sample_uniforms (Vec3 0 0 1) (Vec3 0.95 0.95 0.95) 0 0 1.

(** The Gold preset with every light removed and IBL switched off. *)
Definition unlit_uniforms : uniforms :=
  {| u_cameraPosition := Vec3 0 0 1;
     u_numLights := 0;
     u_lightTypes := [];
     u_lightPositions := [];
     u_lightDirections := [];
     u_lightColors := [];
     u_lightIntensities := [];
     u_lightRanges := [];
     u_lightInnerCones := [];
     u_lightOuterCones := [];
     u_useIBL := false;
     u_iblIntensity := 1;
     u_ambientColor := Vec3 0.1 0.1 0.15;
     u_albedo := Vec3 1 0.8 0.1;
     u_metallic := 1;
     u_roughness := 0.1;
     u_ao := 1 |}.

(** A pixel at the origin whose normal is [+z]. *)
Definition facing_pixel : varyings :=
  {| v_worldPosition := Vec3 0 0 0; v_normal := Vec3 0 0 1; v_texCoord := Vec2 0 0 |}.

(** The light is one of the three kinds, and no division or normalisation
    that [calculateLightContribution] makes for it before the attenuation
    test has a zero divisor: a direction to normalise is not the zero
    vector, the light is not at the pixel, the range is not 0, the two cone
    cosines differ. *)
Definition light_defined (lightType : Z) (lightPos lightDir : vec3)
    (lightRange innerCone outerCone : R) (worldPos : vec3) : Prop :=
  (lightType = LIGHT_DIRECTIONAL /\ lightDir <> vec3s 0)
  \/ (lightType = LIGHT_POINT
      /\ vsub lightPos worldPos <> vec3s 0 /\ lightRange <> 0)
  \/ (lightType = LIGHT_SPOT
      /\ vsub lightPos worldPos <> vec3s 0 /\ lightRange <> 0
      /\ lightDir <> vec3s 0
      /\ cos (radians innerCone) <> cos (radians outerCone)).

(** The light vector [calculateLightContribution] computes for light [i]. *)
Definition lightVector (u : uniforms) (v : varyings) (i : Z) : vec3 :=
  fst (lightVectorAndAttenuation
         (at_index (u_lightTypes u) i 0%Z)
         (at_index (u_lightPositions u) i (vec3s 0))
         (at_index (u_lightDirections u) i (vec3s 0))
         (at_index (u_lightIntensities u) i 0)
         (at_index (u_lightRanges u) i 0)
         (at_index (u_lightInnerCones u) i 0)
         (at_index (u_lightOuterCones u) i 0)
         (v_worldPosition v)).

(** Every vector [main] normalises at the pixel is not the zero vector, and
    every light the loop visits is defined and not opposite to the view
    vector (the half vector is then not the zero vector). *)
Definition regular (u : uniforms) (v : varyings) : Prop :=
  v_normal v <> vec3s 0
  /\ vsub (u_cameraPosition u) (v_worldPosition v) <> vec3s 0
  /\ forall i : Z,
       (0 <= i < Z.min (u_numLights u) MAX_LIGHTS)%Z ->
       light_defined (at_index (u_lightTypes u) i 0%Z)
         (at_index (u_lightPositions u) i (vec3s 0))
         (at_index (u_lightDirections u) i (vec3s 0))
         (at_index (u_lightRanges u) i 0)
         (at_index (u_lightInnerCones u) i 0)
         (at_index (u_lightOuterCones u) i 0)
         (v_worldPosition v)
       /\ vadd (main_V u v) (lightVector u v i) <> vec3s 0.

End Shader.

(* ===================================================================== *)
(** * The distribution term in binary32 *)
(* ===================================================================== *)

(** [precision highp float]: the shader's [float] taken as IEEE 754
    binary32 (24 bits of precision, round to nearest, ties to even), with
    the operations of the Standard Library's specification of
    floating-point arithmetic. *)
Module Shader32.

Definition prec : Z := 24.
Definition emax : Z := 128.

Definition float : Set := SpecFloat.spec_float.

(** An integer literal such as [0.0] or [1.0]. *)
Definition of_int (n : Z) : float := SpecFloat.binary_normalize prec emax n 0 false.

(** The binary32 number nearest to [num / den], for [num >= 0] and
    [den > 0]: what a decimal literal and what [uniform1f] give.  The quotient is
    taken with 64 more bits and a sticky bit, then rounded once. *)
Definition nearest (num den : Z) : float :=
  let scaled := (num * 2 ^ 64)%Z in
  let q := (scaled / den)%Z in
  let sticky := if (scaled mod den =? 0)%Z then 0%Z else 1%Z in
  SpecFloat.binary_normalize prec emax (2 * q + sticky) (-65) false.

Definition mul : float -> float -> float := SpecFloat.SFmul prec emax.
Definition add : float -> float -> float := SpecFloat.SFadd prec emax.
Definition sub : float -> float -> float := SpecFloat.SFsub prec emax.
Definition div : float -> float -> float := SpecFloat.SFdiv prec emax.

(** [max(x, y)]: [y] if [x < y], otherwise [x]. *)
Definition max (x y : float) : float := if SpecFloat.SFltb x y then y else x.

(** [#define PI 3.14159265359] *)
Definition PI : float := nearest 314159265359 (10 ^ 11).

Record vec3 := Vec3 { vx : float; vy : float; vz : float }.

(** [dot(a, b)], summed from left to right. *)
Definition dot (a b : vec3) : float :=
  add (add (mul (vx a) (vx b)) (mul (vy a) (vy b))) (mul (vz a) (vz b)).

(** The divisor of [DistributionGGX], [PI * denom * denom]. *)
Definition DistributionGGX_denom (N H : vec3) (roughness : float) : float :=
  let a := mul roughness roughness in
  let a2 := mul a a in
  let NdotH := max (dot N H) (of_int 0) in
  let NdotH2 := mul NdotH NdotH in
  let denom := add (mul NdotH2 (sub a2 (of_int 1))) (of_int 1) in
  let denom := mul (mul PI denom) denom in
  denom.

Definition DistributionGGX (N H : vec3) (roughness : float) : float :=
  let a := mul roughness roughness in
  let a2 := mul a a in
  div a2 (DistributionGGX_denom N H roughness).

(** The roughness at position [k] of the editor's slider (from 0 to 1 in
    steps of 0.01), as [uniform1f] hands it to the shader. *)
Definition slider (k : nat) : float := nearest (Z.of_nat k) 100.

Definition is_zero (x : float) : bool :=
  match x with SpecFloat.S754_zero _ => true | _ => false end.

(** A finite number greater than 0. *)
Definition positive_finite (x : float) : bool :=
  match x with SpecFloat.S754_finite false _ _ => true | _ => false end.

(** The unit vector [(0, 0, 1)]. *)
Definition unit_z : vec3 := Vec3 (of_int 0) (of_int 0) (of_int 1).

(** Position [k] of the slider, with [N = H = (0, 0, 1)]: the divisor is 0
    at the positions 0 and 1 and only there, and from position 2 on the
    distribution is finite and positive. *)
Definition slider_check (k : nat) : bool :=
  let roughness := slider k in
  bool_decide (is_zero (DistributionGGX_denom unit_z unit_z roughness)
               = (k <=? 1)%nat)
  && ((k <? 2)%nat
      || positive_finite (DistributionGGX unit_z unit_z roughness)).

End Shader32.

(* ===================================================================== *)
(** * JavaScript values and the heap *)
(* ===================================================================== *)

Module Js.
Local Open Scope R_scope.

Abbreviation loc := nat.

(** The values the host code stores in material records. *)
Inductive value :=
| VUndefined
| VNull
| VBool (b : bool)
| VNum (x : R)
| VRef (l : loc).

(** ToBoolean: [undefined], [null], [false] and [0] are falsy; every object
    (so every array) is truthy. *)
Definition truthy (v : value) : bool :=
  match v with
  | VUndefined | VNull => false
  | VBool b => b
  | VNum x => if Req_dec_T x 0 then false else true
  | VRef _ => true
  end.

(** A material record: an object with the four properties the code reads.
    A property that is absent reads as [VUndefined]. *)
Record material := Material {
  albedo : value;
  metallic : value;
  roughness : value;
  ao : value
}.

(** Heap cells: arrays of numbers (albedo colours) and material objects. *)
Inductive cell :=
| CArray (elems : list R)
| CMaterial (m : material).

Abbreviation heap := (list cell).

(** Allocation of a new object: a location no earlier object has. *)
Definition alloc (h : heap) (c : cell) : heap * loc := (h ++ [c], List.length h).

(** [o.albedo], [o.metallic], ... on the object at [l]; an array has none of
    these properties. *)
Definition get_material (h : heap) (l : loc) : option material :=
  match h !! l with
  | Some (CMaterial m) => Some m
  | Some (CArray _) => Some (Material VUndefined VUndefined VUndefined VUndefined)
  | None => None
  end.

(** [a[i]] for a value [a]. *)
Definition index (h : heap) (a : value) (i : nat) : value :=
  match a with
  | VRef l =>
      match h !! l with
      | Some (CArray xs) => match xs !! i with Some x => VNum x | None => VUndefined end
      | _ => VUndefined
      end
  | _ => VUndefined
  end.

(** [a[i] = x] on an array: in range it overwrites, past the end it extends
    the array (the holes are not modelled: the write is then at the end). *)
Definition array_set (xs : list R) (i : nat) (x : R) : list R :=
  if (i <? List.length xs)%nat then <[i := x]> xs else xs ++ [x].

(** The four property names of a material. *)
Inductive field := FAlbedo | FMetallic | FRoughness | FAo.

Definition get_field (m : material) (f : field) : value :=
  match f with
  | FAlbedo => albedo m
  | FMetallic => metallic m
  | FRoughness => roughness m
  | FAo => ao m
  end.

Definition set_field (m : material) (f : field) (v : value) : material :=
  match f with
  | FAlbedo => Material v (metallic m) (roughness m) (ao m)
  | FMetallic => Material (albedo m) v (roughness m) (ao m)
  | FRoughness => Material (albedo m) (metallic m) v (ao m)
  | FAo => Material (albedo m) (metallic m) (roughness m) v
  end.

(** [o.f = v] for the material object at [l]. *)
Definition assign_field (h : heap) (l : loc) (f : field) (v : value) : heap :=
  match h !! l with
  | Some (CMaterial m) => <[l := CMaterial (set_field m f v)]> h
  | _ => h
  end.

(** [o.albedo[i] = x] for the material object at [l]: the write goes to
    the array [o.albedo] refers to. *)
Definition assign_albedo_component (h : heap) (l : loc) (i : nat) (x : R) : heap :=
  match h !! l with
  | Some (CMaterial m) =>
      match albedo m with
      | VRef a =>
          match h !! a with
          | Some (CArray xs) => <[a := CArray (array_set xs i x)]> h
          | _ => h
          end
      | _ => h
      end
  | _ => h
  end.

(** What a reader of the material at [l] sees: the four properties, with
    the albedo array read through its reference. *)
Record material_view := MaterialView {
  view_albedo : option (list R);
  view_metallic : value;
  view_roughness : value;
  view_ao : value
}.

Definition deref_array (h : heap) (v : value) : option (list R) :=
  match v with
  | VRef a => match h !! a with Some (CArray xs) => Some xs | _ => None end
  | _ => None
  end.

Definition view (h : heap) (l : loc) : option material_view :=
  match h !! l with
  | Some (CMaterial m) =>
      Some (MaterialView (deref_array h (albedo m)) (metallic m) (roughness m) (ao m))
  | _ => None
  end.

End Js.

(* ===================================================================== *)
(** * gl-matrix *)
(* ===================================================================== *)

Module GlMatrix.
Import Glsl.
Local Open Scope R_scope.

(** A matrix is the sequence of its elements, column-major. *)
Definition mat4 := list R.
Definition mat3 := list R.

(** [mat4.create()], and what [mat4.identity(out)] leaves in [out]. *)
Definition mat4_identity : mat4 := [1; 0; 0; 0;  0; 1; 0; 0;  0; 0; 1; 0;  0; 0; 0; 1].
(** [mat3.create()] *)
Definition mat3_identity : mat3 := [1; 0; 0;  0; 1; 0;  0; 0; 1].

(** The gl-matrix functions the host code calls.  gl-matrix is a dependency
    of the repository, not part of it: its functions are taken as given,
    each as the function from its inputs to what it leaves in [out].
    [normalFromMat4] returns [null] and leaves [out] alone for a matrix it
    cannot invert. *)
Class Ops := {
  translate : mat4 -> vec3 -> mat4;
  rotateX : mat4 -> R -> mat4;
  rotateY : mat4 -> R -> mat4;
  rotateZ : mat4 -> R -> mat4;
  scale : mat4 -> vec3 -> mat4;
  lookAt : vec3 -> vec3 -> vec3 -> mat4;
  perspective : R -> R -> R -> R -> mat4;
  normalFromMat4 : mat4 -> option mat3
}.

(** An instance of these operations, for evaluating the host code on
    sample inputs: the matrices the gl-matrix documentation specifies, in
    exact arithmetic.  ([normalFromMat4] is written for affine matrices,
    the only ones the renderer builds.) *)
Definition elem (m : list R) (i : nat) : R := nth i m 0.

(** Column-major product [a * b] of two 4x4 matrices. *)
Definition mul4 (a b : mat4) : mat4 :=
  List.map (fun i =>
              let r := (i mod 4)%nat in
              let c := (i / 4)%nat in
              elem a r * elem b (4 * c)
              + elem a (4 + r) * elem b (4 * c + 1)
              + elem a (8 + r) * elem b (4 * c + 2)
              + elem a (12 + r) * elem b (4 * c + 3))
           (seq 0 16).

Definition cross (a b : vec3) : vec3 :=
  Vec3 (vy a * vz b - vz a * vy b) (vz a * vx b - vx a * vz b)
       (vx a * vy b - vy a * vx b).

(** [v / |v|], and the zero vector when [|v| = 0]. *)
Definition unit_or_zero (v : vec3) : vec3 :=
  if Req_dec_T (length v) 0 then Vec3 0 0 0 else vdivs v (length v).

Definition EPSILON : R := 0.000001.

Definition within_epsilon (a b : R) : bool :=
  if Rlt_dec (Rabs (a - b)) EPSILON then true else false.

Definition exact_lookAt (eye center up : vec3) : mat4 :=
  if within_epsilon (vx eye) (vx center)
     && within_epsilon (vy eye) (vy center)
     && within_epsilon (vz eye) (vz center)
  then mat4_identity
  else
    let z := vdivs (vsub eye center) (length (vsub eye center)) in
    let x := unit_or_zero (cross up z) in
    let y := unit_or_zero (cross z x) in
    [vx x; vx y; vx z; 0;  vy x; vy y; vy z; 0;  vz x; vz y; vz z; 0;
     - dot x eye; - dot y eye; - dot z eye; 1].

Definition exact_perspective (fovy aspect near far : R) : mat4 :=
  let f := 1 / tan (fovy / 2) in
  let nf := 1 / (near - far) in
  [f / aspect; 0; 0; 0;  0; f; 0; 0;  0; 0; (far + near) * nf; -1;
   0; 0; 2 * far * near * nf; 0].

Definition exact_normalFromMat4 (a : mat4) : option mat3 :=
  let a00 := elem a 0 in let a01 := elem a 1 in let a02 := elem a 2 in
  let a10 := elem a 4 in let a11 := elem a 5 in let a12 := elem a 6 in
  let a20 := elem a 8 in let a21 := elem a 9 in let a22 := elem a 10 in
  let c00 := a11 * a22 - a12 * a21 in
  let c01 := a12 * a20 - a10 * a22 in
  let c02 := a10 * a21 - a11 * a20 in
  let c10 := a02 * a21 - a01 * a22 in
  let c11 := a00 * a22 - a02 * a20 in
  let c12 := a01 * a20 - a00 * a21 in
  let c20 := a01 * a12 - a02 * a11 in
  let c21 := a02 * a10 - a00 * a12 in
  let c22 := a00 * a11 - a01 * a10 in
  let det := a00 * c00 + a01 * c01 + a02 * c02 in
  if Req_dec_T det 0 then None
  else Some [c00 / det; c01 / det; c02 / det;
             c10 / det; c11 / det; c12 / det;
             c20 / det; c21 / det; c22 / det].

Definition exact : Ops :=
  {| translate m v :=
       mul4 m [1; 0; 0; 0;  0; 1; 0; 0;  0; 0; 1; 0;  vx v; vy v; vz v; 1];
     rotateX m rad :=
       mul4 m [1; 0; 0; 0;  0; cos rad; sin rad; 0;  0; - sin rad; cos rad; 0;
               0; 0; 0; 1];
     rotateY m rad :=
       mul4 m [cos rad; 0; - sin rad; 0;  0; 1; 0; 0;  sin rad; 0; cos rad; 0;
               0; 0; 0; 1];
     rotateZ m rad :=
       mul4 m [cos rad; sin rad; 0; 0;  - sin rad; cos rad; 0; 0;  0; 0; 1; 0;
               0; 0; 0; 1];
     scale m v :=
       mul4 m [vx v; 0; 0; 0;  0; vy v; 0; 0;  0; 0; vz v; 0;  0; 0; 0; 1];
     lookAt := exact_lookAt;
     perspective := exact_perspective;
     normalFromMat4 := exact_normalFromMat4 |}.

End GlMatrix.

(* ===================================================================== *)
(** * scene-object.js *)
(* ===================================================================== *)

Module Scene.
Import Glsl.
Local Open Scope R_scope.

(** A [Mesh] of mesh.js, as far as drawing needs it: its GPU handles (absent
    until [loadFromData], and again after [dispose]) and its index count. *)
Record Mesh := {
  vertexArray : option nat;
  vertexBuffer : option nat;
  indexBuffer : option nat;
  indexCount : nat
}.

(** The [transform] argument of the constructor.  Each property is absent
    or an array of three numbers. *)
Record transform := Transform {
  t_position : option vec3;
  t_rotation : option vec3;
  t_scale : option vec3;
  t_rotationSpeed : option vec3
}.

(** [transform = {}] *)
Definition empty_transform : transform := Transform None None None None.

(** A [SceneObject].  [material] is the reference to the object's own material
    record in the heap; [position], [rotation] and [scale] are the typed
    arrays [vec3.fromValues] returns, which the object alone holds;
    [rotationSpeed] is read by value (nothing in the repository writes to
    that array after construction). *)
Record SceneObject := {
  mesh : option Mesh;
  material : Js.loc;
  position : vec3;
  rotation : vec3;
  scale : vec3;
  rotationSpeed : vec3;
  modelMatrix : GlMatrix.mat4
}.

(** [a || d] *)
Definition or_value (a d : Js.value) : Js.value := if Js.truthy a then a else d.

(** [a || [x, y, z]]: the array literal is built only when [a] is falsy. *)
Definition or_array (h : Js.heap) (a : Js.value) (d : list R) : Js.heap * Js.value :=
  if Js.truthy a then (h, a)
  else let '(h', l) := Js.alloc h (Js.CArray d) in (h', Js.VRef l).

(** [t?.[i] || d] for a component of a transform property. *)
Definition component_or (t : option vec3) (sel : vec3 -> R) (d : R) : R :=
  match t with
  | Some v => if Req_dec_T (sel v) 0 then d else sel v
  | None => d
  end.

Section WithGlMatrix.
Context {G : GlMatrix.Ops}.

Definition updateMatrix (o : SceneObject) : SceneObject :=
  let m := GlMatrix.mat4_identity in
  let m := GlMatrix.translate m (position o) in
  let m := GlMatrix.rotateX m (vx (rotation o)) in
  let m := GlMatrix.rotateY m (vy (rotation o)) in
  let m := GlMatrix.rotateZ m (vz (rotation o)) in
  let m := GlMatrix.scale m (scale o) in
  {| mesh := mesh o; material := material o; position := position o;
     rotation := rotation o; scale := scale o;
     rotationSpeed := rotationSpeed o; modelMatrix := m |}.

(** [new SceneObject(mesh, material, transform)], with [material] the
    location of the record passed.  The result is [None] only for a
    location that holds no object. *)
Definition new_SceneObject (h : Js.heap) (mesh0 : option Mesh) (material0 : Js.loc)
    (t : transform) : option (Js.heap * SceneObject) :=
  match Js.get_material h material0 with
  | None => None
  | Some m =>
      let '(h1, albedo1) := or_array h (Js.albedo m) [0.7; 0.7; 0.7] in
      let own := Js.Material albedo1
                   (or_value (Js.metallic m) (Js.VNum 0))
                   (or_value (Js.roughness m) (Js.VNum 0.5))
                   (or_value (Js.ao m) (Js.VNum 1)) in
      let '(h2, l) := Js.alloc h1 (Js.CMaterial own) in
      let o :=
        {| mesh := mesh0;
           material := l;
           position := Vec3 (component_or (t_position t) vx 0)
                            (component_or (t_position t) vy 0)
                            (component_or (t_position t) vz 0);
           rotation := Vec3 (component_or (t_rotation t) vx 0)
                            (component_or (t_rotation t) vy 0)
                            (component_or (t_rotation t) vz 0);
           scale := Vec3 (component_or (t_scale t) vx 1)
                         (component_or (t_scale t) vy 1)
                         (component_or (t_scale t) vz 1);
           rotationSpeed := match t_rotationSpeed t with
                            | Some s => s
                            | None => Vec3 0 0 0
                            end;
           modelMatrix := GlMatrix.mat4_identity |} in
      Some (h2, updateMatrix o)
  end.

Definition update (deltaTime : R) (o : SceneObject) : SceneObject :=
  let r := Vec3 (vx (rotation o) + vx (rotationSpeed o) * deltaTime)
                (vy (rotation o) + vy (rotationSpeed o) * deltaTime)
                (vz (rotation o) + vz (rotationSpeed o) * deltaTime) in
  updateMatrix
    {| mesh := mesh o; material := material o; position := position o;
       rotation := r; scale := scale o;
       rotationSpeed := rotationSpeed o; modelMatrix := modelMatrix o |}.

(** ** SceneManager *)

Record SceneManager := {
  objects : list SceneObject;
  activeObjectIndex : nat
}.

Definition new_SceneManager : SceneManager :=
  {| objects := []; activeObjectIndex := 0 |}.

Definition addObject (s : SceneManager) (o : SceneObject) : SceneManager * nat :=
  let objs := objects s ++ [o] in
  ({| objects := objs; activeObjectIndex := activeObjectIndex s |},
   (List.length objs - 1)%nat).

Definition SceneManager_update (s : SceneManager) (deltaTime : R) : SceneManager :=
  {| objects := List.map (update deltaTime) (objects s);
     activeObjectIndex := activeObjectIndex s |}.

Definition getAllObjects (s : SceneManager) : list SceneObject := objects s.

End WithGlMatrix.

(** [removeObject(index)], for an integer [index]. *)
Definition removeObject (s : SceneManager) (index : Z) : SceneManager :=
  if ((0 <=? index)%Z && (index <? Z.of_nat (List.length (objects s)))%Z)%bool then
    let objs := delete (Z.to_nat index) (objects s) in
    {| objects := objs;
       activeObjectIndex :=
         if (List.length objs <=? activeObjectIndex s)%nat
         then Nat.max 0 (List.length objs - 1)
         else activeObjectIndex s |}
  else s.

(** [getActiveObject()]; [None] is [null]. *)
Definition getActiveObject (s : SceneManager) : option SceneObject :=
  objects s !! activeObjectIndex s.

(** [setActiveObject(index)], for an integer [index]. *)
Definition setActiveObject (s : SceneManager) (index : Z) : SceneManager :=
  if ((0 <=? index)%Z && (index <? Z.of_nat (List.length (objects s)))%Z)%bool then
    {| objects := objects s; activeObjectIndex := Z.to_nat index |}
  else s.

(** The calls a user of a [SceneManager] can make on it. *)
Inductive call :=
| AddObject (o : SceneObject)
| RemoveObject (index : Z)
| SetActiveObject (index : Z)
| Update (deltaTime : R).

Section Calls.
Context {G : GlMatrix.Ops}.

Definition perform (s : SceneManager) (c : call) : SceneManager :=
  match c with
  | AddObject o => fst (addObject s o)
  | RemoveObject index => removeObject s index
  | SetActiveObject index => setActiveObject s index
  | Update deltaTime => SceneManager_update s deltaTime
  end.

End Calls.

(** The active index designates an object whenever there is one, and is 0
    when there is none. *)
Definition active_valid (s : SceneManager) : Prop :=
  (activeObjectIndex s < Nat.max 1 (List.length (objects s)))%nat.

(** The model matrix [updateMatrix] computes from a position, a rotation
    and a scale: [T * Rx * Ry * Rz * S]. *)
Definition compose `{G : GlMatrix.Ops} (position0 rotation0 scale0 : vec3)
    : GlMatrix.mat4 :=
  GlMatrix.scale
    (GlMatrix.rotateZ
       (GlMatrix.rotateY
          (GlMatrix.rotateX
             (GlMatrix.translate GlMatrix.mat4_identity position0)
             (vx rotation0))
          (vy rotation0))
       (vz rotation0))
    scale0.

(** [p || d] component by component, for an optional array [p]. *)
Definition defaulted (t : option vec3) (d : R) : vec3 :=
  match t with
  | Some p => Vec3 (if Req_dec_T (vx p) 0 then d else vx p)
                   (if Req_dec_T (vy p) 0 then d else vy p)
                   (if Req_dec_T (vz p) 0 then d else vz p)
  | None => Vec3 d d d
  end.

End Scene.

(* ===================================================================== *)
(** * camera.js *)
(* ===================================================================== *)

Module Cam.
Import Glsl.
Local Open Scope R_scope.

Record Camera := {
  position : vec3;
  target : vec3;
  up : vec3;
  radius : R;
  azimuth : R;
  elevation : R;
  fov : R;
  near : R;
  far : R;
  aspect : R;
  rotateSpeed : R;
  zoomSpeed : R;
  minRadius : R;
  maxRadius : R;
  minElevation : R;
  maxElevation : R;
  viewMatrix : GlMatrix.mat4;
  projectionMatrix : GlMatrix.mat4;
  isMouseDown : bool;
  lastMouseX : R;
  lastMouseY : R
}.

(** Field updates, one per assignment form the methods use. *)
Definition with_radius (c : Camera) (r : R) : Camera :=
  {| position := position c; target := target c; up := up c;
     radius := r; azimuth := azimuth c; elevation := elevation c;
     fov := fov c; near := near c; far := far c; aspect := aspect c;
     rotateSpeed := rotateSpeed c; zoomSpeed := zoomSpeed c;
     minRadius := minRadius c; maxRadius := maxRadius c;
     minElevation := minElevation c; maxElevation := maxElevation c;
     viewMatrix := viewMatrix c; projectionMatrix := projectionMatrix c;
     isMouseDown := isMouseDown c; lastMouseX := lastMouseX c;
     lastMouseY := lastMouseY c |}.

Definition with_target (c : Camera) (t : vec3) : Camera :=
  {| position := position c; target := t; up := up c;
     radius := radius c; azimuth := azimuth c; elevation := elevation c;
     fov := fov c; near := near c; far := far c; aspect := aspect c;
     rotateSpeed := rotateSpeed c; zoomSpeed := zoomSpeed c;
     minRadius := minRadius c; maxRadius := maxRadius c;
     minElevation := minElevation c; maxElevation := maxElevation c;
     viewMatrix := viewMatrix c; projectionMatrix := projectionMatrix c;
     isMouseDown := isMouseDown c; lastMouseX := lastMouseX c;
     lastMouseY := lastMouseY c |}.

Definition with_view (c : Camera) (p : vec3) (m : GlMatrix.mat4) : Camera :=
  {| position := p; target := target c; up := up c;
     radius := radius c; azimuth := azimuth c; elevation := elevation c;
     fov := fov c; near := near c; far := far c; aspect := aspect c;
     rotateSpeed := rotateSpeed c; zoomSpeed := zoomSpeed c;
     minRadius := minRadius c; maxRadius := maxRadius c;
     minElevation := minElevation c; maxElevation := maxElevation c;
     viewMatrix := m; projectionMatrix := projectionMatrix c;
     isMouseDown := isMouseDown c; lastMouseX := lastMouseX c;
     lastMouseY := lastMouseY c |}.

Definition with_projection (c : Camera) (m : GlMatrix.mat4) : Camera :=
  {| position := position c; target := target c; up := up c;
     radius := radius c; azimuth := azimuth c; elevation := elevation c;
     fov := fov c; near := near c; far := far c; aspect := aspect c;
     rotateSpeed := rotateSpeed c; zoomSpeed := zoomSpeed c;
     minRadius := minRadius c; maxRadius := maxRadius c;
     minElevation := minElevation c; maxElevation := maxElevation c;
     viewMatrix := viewMatrix c; projectionMatrix := m;
     isMouseDown := isMouseDown c; lastMouseX := lastMouseX c;
     lastMouseY := lastMouseY c |}.

(** [Math.max], [Math.min] *)
Definition Math_max (x y : R) : R := Rmax x y.
Definition Math_min (x y : R) : R := Rmin x y.

Section WithGlMatrix.
Context {G : GlMatrix.Ops}.

Definition updateProjectionMatrix (c : Camera) : Camera :=
  with_projection c (GlMatrix.perspective (fov c) (aspect c) (near c) (far c)).

Definition updateViewMatrix (c : Camera) : Camera :=
  let x := radius c * cos (elevation c) * cos (azimuth c) in
  let y := radius c * sin (elevation c) in
  let z := radius c * cos (elevation c) * sin (azimuth c) in
  let p := Vec3 x y z in
  let p := vadd p (target c) in
  with_view c p (GlMatrix.lookAt p (target c) (up c)).

(** [new Camera(canvas)], for a canvas of the given width and height.  The
    event listeners the constructor registers call the [on...] methods. *)
Definition new_Camera (width height : R) : Camera :=
  let c :=
    {| position := Vec3 0 0 5; target := Vec3 0 0 0; up := Vec3 0 1 0;
       radius := 5; azimuth := 0; elevation := 0;
       fov := Rtrigo1.PI / 4; near := 0.1; far := 100;
       aspect := width / height;
       rotateSpeed := 0.005; zoomSpeed := 0.1;
       minRadius := 1; maxRadius := 20;
       minElevation := - Rtrigo1.PI / 2 + 0.1;
       maxElevation := Rtrigo1.PI / 2 - 0.1;
       viewMatrix := GlMatrix.mat4_identity;
       projectionMatrix := GlMatrix.mat4_identity;
       isMouseDown := false; lastMouseX := 0; lastMouseY := 0 |} in
  updateViewMatrix (updateProjectionMatrix c).

Definition onWheel (c : Camera) (deltaY : R) : Camera :=
  let delta := if Rlt_dec 0 deltaY then 1 else -1 in
  let r := radius c + delta * zoomSpeed c in
  let r := Math_max (minRadius c) (Math_min (maxRadius c) r) in
  updateViewMatrix (with_radius c r).

Definition setTarget (c : Camera) (x y z : R) : Camera :=
  updateViewMatrix (with_target c (Vec3 x y z)).

Definition setRadius (c : Camera) (radius0 : R) : Camera :=
  updateViewMatrix
    (with_radius c (Math_max (minRadius c) (Math_min (maxRadius c) radius0))).

Definition getViewMatrix (c : Camera) : GlMatrix.mat4 := viewMatrix c.
Definition getProjectionMatrix (c : Camera) : GlMatrix.mat4 := projectionMatrix c.
Definition getPosition (c : Camera) : vec3 := position c.

End WithGlMatrix.

(** ** The event handlers *)

Definition with_orbit (c : Camera) (azimuth0 elevation0 : R) : Camera :=
  {| position := position c; target := target c; up := up c;
     radius := radius c; azimuth := azimuth0; elevation := elevation0;
     fov := fov c; near := near c; far := far c; aspect := aspect c;
     rotateSpeed := rotateSpeed c; zoomSpeed := zoomSpeed c;
     minRadius := minRadius c; maxRadius := maxRadius c;
     minElevation := minElevation c; maxElevation := maxElevation c;
     viewMatrix := viewMatrix c; projectionMatrix := projectionMatrix c;
     isMouseDown := isMouseDown c; lastMouseX := lastMouseX c;
     lastMouseY := lastMouseY c |}.

Definition with_mouse (c : Camera) (down : bool) (x y : R) : Camera :=
  {| position := position c; target := target c; up := up c;
     radius := radius c; azimuth := azimuth c; elevation := elevation c;
     fov := fov c; near := near c; far := far c; aspect := aspect c;
     rotateSpeed := rotateSpeed c; zoomSpeed := zoomSpeed c;
     minRadius := minRadius c; maxRadius := maxRadius c;
     minElevation := minElevation c; maxElevation := maxElevation c;
     viewMatrix := viewMatrix c; projectionMatrix := projectionMatrix c;
     isMouseDown := down; lastMouseX := x; lastMouseY := y |}.

Definition with_aspect (c : Camera) (aspect0 : R) : Camera :=
  {| position := position c; target := target c; up := up c;
     radius := radius c; azimuth := azimuth c; elevation := elevation c;
     fov := fov c; near := near c; far := far c; aspect := aspect0;
     rotateSpeed := rotateSpeed c; zoomSpeed := zoomSpeed c;
     minRadius := minRadius c; maxRadius := maxRadius c;
     minElevation := minElevation c; maxElevation := maxElevation c;
     viewMatrix := viewMatrix c; projectionMatrix := projectionMatrix c;
     isMouseDown := isMouseDown c; lastMouseX := lastMouseX c;
     lastMouseY := lastMouseY c |}.

(** The integer part of [x], towards zero. *)
Definition trunc (x : R) : Z :=
  if Rle_dec 0 x then Int_part x else (- Int_part (- x))%Z.

(** [a % b]: the remainder of the division truncated towards zero. *)
Definition remainder (a b : R) : R := a - b * IZR (trunc (a / b)).

Section Handlers.
Context {G : GlMatrix.Ops}.

(** The handlers take from the event what they read of it; the cursor
    style they set on the canvas is left out. *)
Definition onMouseDown (c : Camera) (clientX clientY : R) : Camera :=
  with_mouse c true clientX clientY.

Definition onMouseMove (c : Camera) (clientX clientY : R) : Camera :=
  if isMouseDown c then
    let deltaX := clientX - lastMouseX c in
    let deltaY := clientY - lastMouseY c in
    let azimuth1 := azimuth c - deltaX * rotateSpeed c in
    let elevation1 := elevation c - deltaY * rotateSpeed c in
    let elevation1 :=
      Math_max (minElevation c) (Math_min (maxElevation c) elevation1) in
    let azimuth1 := remainder azimuth1 (2 * Rtrigo1.PI) in
    with_mouse (updateViewMatrix (with_orbit c azimuth1 elevation1))
      (isMouseDown c) clientX clientY
  else c.

Definition onMouseUp (c : Camera) : Camera :=
  with_mouse c false (lastMouseX c) (lastMouseY c).

(** [touches] holds the [clientX] and [clientY] of [event.touches]. *)
Definition onTouchStart (c : Camera) (touches : list (R * R)) : Camera :=
  match touches with
  | [(x, y)] => with_mouse c true x y
  | _ => c
  end.

Definition onTouchMove (c : Camera) (touches : list (R * R)) : Camera :=
  match touches with
  | [(x, y)] =>
      if isMouseDown c then
        let deltaX := x - lastMouseX c in
        let deltaY := y - lastMouseY c in
        let azimuth1 := azimuth c - deltaX * rotateSpeed c in
        let elevation1 := elevation c - deltaY * rotateSpeed c in
        let elevation1 :=
          Math_max (minElevation c) (Math_min (maxElevation c) elevation1) in
        with_mouse (updateViewMatrix (with_orbit c azimuth1 elevation1))
          (isMouseDown c) x y
      else c
  | _ => c
  end.

Definition onTouchEnd (c : Camera) : Camera :=
  with_mouse c false (lastMouseX c) (lastMouseY c).

(** [onResize], for the canvas size at the time of the event. *)
Definition onResize (c : Camera) (width height : R) : Camera :=
  updateProjectionMatrix (with_aspect c (width / height)).

(** What can happen to a camera: the events its listeners handle and the
    calls of its public methods. *)
Inductive event :=
| MouseDown (clientX clientY : R)
| MouseMove (clientX clientY : R)
| MouseUp
| Wheel (deltaY : R)
| TouchStart (touches : list (R * R))
| TouchMove (touches : list (R * R))
| TouchEnd
| Resize (width height : R)
| SetTarget (x y z : R)
| SetRadius (radius0 : R).

Definition handle (c : Camera) (e : event) : Camera :=
  match e with
  | MouseDown x y => onMouseDown c x y
  | MouseMove x y => onMouseMove c x y
  | MouseUp => onMouseUp c
  | Wheel deltaY => onWheel c deltaY
  | TouchStart touches => onTouchStart c touches
  | TouchMove touches => onTouchMove c touches
  | TouchEnd => onTouchEnd c
  | Resize width height => onResize c width height
  | SetTarget x y z => setTarget c x y z
  | SetRadius radius0 => setRadius c radius0
  end.

End Handlers.

(** The state the constructor leaves and every handler keeps: position
    and matrices computed from the orbit state, the limits of the
    constructor, radius and elevation within them. *)
Definition steady `{G : GlMatrix.Ops} (c : Camera) : Prop :=
  position c
  = vadd (Vec3 (radius c * cos (elevation c) * cos (azimuth c))
               (radius c * sin (elevation c))
               (radius c * cos (elevation c) * sin (azimuth c)))
         (target c)
  /\ viewMatrix c = GlMatrix.lookAt (position c) (target c) (up c)
  /\ projectionMatrix c = GlMatrix.perspective (fov c) (aspect c) (near c) (far c)
  /\ up c = Vec3 0 1 0
  /\ minRadius c = 1 /\ maxRadius c = 20
  /\ minElevation c = - Rtrigo1.PI / 2 + 0.1
  /\ maxElevation c = Rtrigo1.PI / 2 - 0.1
  /\ minRadius c <= radius c <= maxRadius c
  /\ minElevation c <= elevation c <= maxElevation c.

(** What the specification asks of the stored radius, in its words: the
    requested value clamped to [[minRadius, maxRadius]]. *)
Definition clamped_to (lo hi x : R) : R :=
  if Rlt_dec x lo then lo else if Rlt_dec hi x then hi else x.

(** The position the specification derives from the orbit state:
    [target + radius * (cos(elevation)cos(azimuth), sin(elevation),
    cos(elevation)sin(azimuth))]. *)
Definition orbit_position (target0 : vec3) (radius0 azimuth0 elevation0 : R) : vec3 :=
  vadd target0
       (smulv radius0 (Vec3 (cos elevation0 * cos azimuth0)
                            (sin elevation0)
                            (cos elevation0 * sin azimuth0))).

End Cam.

(* ===================================================================== *)
(** * webgl-utils.js, mesh.js and the render loop of main.js *)
(* ===================================================================== *)

Module Gl.
Import Glsl.
Local Open Scope R_scope.

(** ** Values passed to WebGL *)

(** The JavaScript values the host code hands to [setUniform]. *)
#[local] Set Warnings "-register-all".
Inductive arg :=
| AUndefined
| ANull
| ABool (b : bool)
| ANum (x : R)
| AArray (elems : list arg)     (* an [Array] *)
| ATyped (elems : list R)       (* a [Float32Array] *)
| AObject.                      (* any other object *)

(** An [Array] of numbers. *)
Definition numbers (xs : list R) : arg := AArray (List.map ANum xs).

(** A material property as [setUniform] receives it. *)
Definition arg_of_value (h : Js.heap) (v : Js.value) : arg :=
  match v with
  | Js.VUndefined => AUndefined
  | Js.VNull => ANull
  | Js.VBool b => ABool b
  | Js.VNum x => ANum x
  | Js.VRef l =>
      match h !! l with
      | Some (Js.CArray xs) => numbers xs
      | Some (Js.CMaterial _) => AObject
      | None => AUndefined
      end
  end.

(** [Array.isArray(a)] *)
Definition isArray (a : arg) : bool :=
  match a with AArray _ => true | _ => false end.

(** [a && typeof a === 'object' && a.length >= 3], for [a] not an [Array]. *)
Definition isObjectOfLength3 (a : arg) : bool :=
  match a with
  | ATyped xs => (3 <=? List.length xs)%nat
  | _ => false
  end.

(** [Array.from(a)] *)
Definition Array_from (a : arg) : arg :=
  match a with
  | ATyped xs => numbers xs
  | AArray xs => AArray xs
  | _ => AArray []
  end.

(** ** The WebGL context *)

(** The uniform types [setUniform] distinguishes; [OTHER] stands for every
    other type constant. *)
Inductive gltype :=
| FLOAT | FLOAT_VEC2 | FLOAT_VEC3 | FLOAT_VEC4 | FLOAT_MAT3 | FLOAT_MAT4
| INT | SAMPLER_2D | SAMPLER_CUBE | BOOL
| OTHER (code : nat).

Record WebGLActiveInfo := ActiveInfo {
  name : string;
  size : nat;
  type : gltype
}.

(** A uniform location is an opaque handle; it is identified here with the
    name of the uniform it was obtained for. *)
Record WebGLUniformLocation := Location { uniform_name : string }.

(** A linked program, as the host sees it: the list [getActiveUniform]
    enumerates, and which names [getUniformLocation] resolves (it returns
    [null] for the others). *)
Record WebGLProgram := {
  activeUniforms : list WebGLActiveInfo;
  locatable : string -> bool
}.

Definition getUniformLocation (p : WebGLProgram) (n : string)
    : option WebGLUniformLocation :=
  if locatable p n then Some (Location n) else None.

(** The calls the host code makes on the context. *)
Inductive glcall :=
| clear
| useProgram
| uniform1f (l : WebGLUniformLocation) (v : arg)
| uniform1i (l : WebGLUniformLocation) (v : arg)
| uniform2fv (l : WebGLUniformLocation) (v : arg)
| uniform3fv (l : WebGLUniformLocation) (v : arg)
| uniform4fv (l : WebGLUniformLocation) (v : arg)
| uniformMatrix3fv (l : WebGLUniformLocation) (transpose : bool) (v : arg)
| uniformMatrix4fv (l : WebGLUniformLocation) (transpose : bool) (v : arg)
| bindVertexArray (vao : option nat)
| drawElements (count : nat)
| getError.

(** The vector and matrix setters take a [Float32Array] or a sequence; any
    other argument makes the call throw a [TypeError] before it reaches the
    context. *)
Definition isFloat32List (a : arg) : bool :=
  match a with AArray _ | ATyped _ => true | _ => false end.

Definition throwsTypeError (c : glcall) : bool :=
  match c with
  | uniform2fv _ v | uniform3fv _ v | uniform4fv _ v
  | uniformMatrix3fv _ _ v | uniformMatrix4fv _ _ v => negb (isFloat32List v)
  | _ => false
  end.

(** ** Console, exceptions, and the monad of host code *)

Inductive entry :=
| Log (msg : string)
| Warn (msg : string)
| Error (msg : string).

(** What host code can observe and change outside its own objects: the
    calls that reached the WebGL context, in order, and the console. *)
Record world := World {
  calls : list glcall;
  console : list entry
}.

Inductive exn :=
| TypeError
| GLError (code : nat).

Inductive outcome (A : Type) :=
| Ret (a : A)
| Throw (e : exn).
Arguments Ret {A} a.
Arguments Throw {A} e.

Definition M (A : Type) : Type := world -> outcome A * world.

#[global] Instance M_ret : MRet M := fun A a w => (Ret a, w).

#[global] Instance M_bind : MBind M := fun A B f m w =>
  match m w with
  | (Ret a, w') => f a w'
  | (Throw e, w') => (Throw e, w')
  end.

Definition throw {A} (e : exn) : M A := fun w => (Throw e, w).

(** [try { body } catch (error) { handler }] *)
Definition try_catch {A} (body : M A) (handler : exn -> M A) : M A := fun w =>
  match body w with
  | (Ret a, w') => (Ret a, w')
  | (Throw e, w') => handler e w'
  end.

Definition print (e : entry) : M unit := fun w =>
  (Ret tt, World (calls w) (console w ++ [e])).

(** A call on the context: it throws, or it is appended to [calls]. *)
Definition gl (c : glcall) : M unit := fun w =>
  if throwsTypeError c then (Throw TypeError, w)
  else (Ret tt, World (calls w ++ [c]) (console w)).

(** ** UniformManager *)

Record UniformManager := {
  program : WebGLProgram;
  uniformLocations : gmap string (option WebGLUniformLocation);
  uniformInfo : gmap string WebGLActiveInfo
}.

(** [cacheUniforms], entered with the two maps as they stand. *)
Fixpoint cacheUniforms_from (p : WebGLProgram) (infos : list WebGLActiveInfo)
    (locs : gmap string (option WebGLUniformLocation))
    (inf : gmap string WebGLActiveInfo)
    : gmap string (option WebGLUniformLocation) * gmap string WebGLActiveInfo :=
  match infos with
  | [] => (locs, inf)
  | i :: rest =>
      let location := getUniformLocation p (name i) in
      cacheUniforms_from p rest (<[name i := location]> locs) (<[name i := i]> inf)
  end.

(** [new UniformManager(gl, program)].  The [console.log] of the cached
    names is left out. *)
Definition new_UniformManager (p : WebGLProgram) : UniformManager :=
  let '(locs, inf) := cacheUniforms_from p (activeUniforms p) ∅ ∅ in
  {| program := p; uniformLocations := locs; uniformInfo := inf |}.

(** [values[0]] *)
Definition first (values : list arg) : arg := nth 0 values AUndefined.

Definition typeCode (t : gltype) : string :=
  match t with OTHER c => pretty c | _ => "" end.

(** The [switch (info.type)] of [setUniform]. *)
Definition dispatch (location : WebGLUniformLocation) (t : gltype)
    (values : list arg) : M unit :=
  match t with
  | FLOAT => gl (uniform1f location (first values))
  | FLOAT_VEC2 =>
      if isArray (first values) then gl (uniform2fv location (first values))
      else gl (uniform2fv location (AArray values))
  | FLOAT_VEC3 =>
      if isArray (first values) then gl (uniform3fv location (first values))
      else if isObjectOfLength3 (first values)
      then gl (uniform3fv location (Array_from (first values)))
      else gl (uniform3fv location (AArray values))
  | FLOAT_VEC4 =>
      if isArray (first values) then gl (uniform4fv location (first values))
      else gl (uniform4fv location (AArray values))
  | FLOAT_MAT3 => gl (uniformMatrix3fv location false (first values))
  | FLOAT_MAT4 => gl (uniformMatrix4fv location false (first values))
  | INT | SAMPLER_2D | SAMPLER_CUBE | BOOL => gl (uniform1i location (first values))
  | OTHER _ => print (Warn ("Unsupported uniform type: " +:+ typeCode t))
  end.

Definition setUniform (um : UniformManager) (name0 : string) (values : list arg)
    : M unit :=
  match uniformLocations um !! name0 with
  | None | Some None =>
      print (Warn ("Uniform '" +:+ name0 +:+ "' not found"))
  | Some (Some location) =>
      let info := uniformInfo um !! name0 in
      try_catch
        (match info with
         | None => throw TypeError
         | Some info => dispatch location (type info) values
         end)
        (fun error =>
           print (Error ("Error setting uniform '" +:+ name0 +:+ "':"));;
           print (Error "Values:");;
           print (Error "Info:");;
           print (Error "Value type:");;
           print (Error "Value content:"))
  end.

Definition hasUniform (um : UniformManager) (name0 : string) : bool :=
  bool_decide (is_Some (uniformLocations um !! name0)).

(** [checkGLError(gl, operation)]: [gl.getError()] returns what the context
    recorded, which the host code cannot predict; [status] is that value,
    [0] being [NO_ERROR]. *)
Definition checkGLError (status : nat) : M unit :=
  gl getError;;
  if (status =? 0)%nat then mret tt else throw (GLError status).

(** ** Mesh.render and SceneObject.render *)

Definition Mesh_render (m : Scene.Mesh) : M unit :=
  match Scene.vertexArray m with
  | None => print (Warn "Mesh not loaded")
  | Some vao =>
      try_catch
        (gl (bindVertexArray (Some vao));;
         gl (drawElements (Scene.indexCount m));;
         gl (bindVertexArray None))
        (fun error => print (Error "Error rendering mesh:");; throw error)
  end.

Definition SceneObject_render (m : option Scene.Mesh) : M unit :=
  match m with
  | Some m => Mesh_render m
  | None => mret tt
  end.

(** ** PBRRenderer *)

Record Light := {
  l_type : R;
  l_position : list R;
  l_direction : list R;
  l_color : list R;
  l_intensity : R;
  l_range : R;
  l_innerCone : R;
  l_outerCone : R
}.

Record Ibl := {
  enabled : bool;
  intensity : R;
  ambientColor : list R
}.

(** The fields of [PBRRenderer] the frame reads or writes.  [material] is
    the location of [this.material]. *)
Record PBRRenderer := {
  uniformManager : UniformManager;
  camera : Cam.Camera;
  mesh : option Scene.Mesh;
  sceneManager : option Scene.SceneManager;
  material : Js.loc;
  ibl : Ibl;
  lights : list Light;
  rotation : R;
  animationSpeed : R;
  lastTime : R;
  deltaTime : R;
  frameCount : nat;
  fps : R;
  lastFpsTime : R
}.

(** What a frame reads from its environment: the two values
    [performance.now()] returns (in [render] and in [update]), and what
    [gl.getError()] returns at the end of the frame. *)
Record frame_env := {
  now_render : R;
  now_update : R;
  gl_status : nat
}.

(** [Math.round(x)], the integer [floor(x + 0.5)]. *)
Definition Math_round (x : R) : R := IZR (up (x + 0.5) - 1).

(** The initial lights of the constructor. *)
Definition initial_lights : list Light :=
  [ {| l_type := 0; l_position := [0; 0; 0]; l_direction := [-0.5; -1; -0.3];
       l_color := [1; 0.95; 0.8]; l_intensity := 3; l_range := 0;
       l_innerCone := 0; l_outerCone := 0 |};
    {| l_type := 1; l_position := [3; 2; 2]; l_direction := [0; 0; 0];
       l_color := [1; 0.4; 0.2]; l_intensity := 5; l_range := 8;
       l_innerCone := 0; l_outerCone := 0 |};
    {| l_type := 2; l_position := [-2; 3; 1]; l_direction := [0.3; -1; 0.2];
       l_color := [0.2; 0.4; 1]; l_intensity := 8; l_range := 10;
       l_innerCone := 15; l_outerCone := 25 |} ].

Definition initial_ibl : Ibl :=
  {| enabled := true; intensity := 1; ambientColor := [0.1; 0.1; 0.15] |}.

(** The operations of one frame that act outside the renderer's own
    objects, in the order [render] performs them. *)
Inductive command :=
| Clear
| UseProgram
| SetUniform (name0 : string) (values : list arg)
| Render (m : option Scene.Mesh)
| CheckGLError.

(** [`${array}[${i}]`] *)
Definition lightName (array : string) (i : nat) : string :=
  array +:+ "[" +:+ pretty i +:+ "]".

Section WithGlMatrix.
Context {G : GlMatrix.Ops}.

(** [update(deltaTime)].  The material editor's [update] and the FPS display
    write to the page only and are left out. *)
Definition update (r : PBRRenderer) (deltaTime0 : R) (currentTime : R) : PBRRenderer :=
  let sm := match sceneManager r with
            | Some s => Some (Scene.SceneManager_update s deltaTime0)
            | None => None
            end in
  let rotation1 := rotation r + deltaTime0 * animationSpeed r in
  let frameCount1 := S (frameCount r) in
  let tick := Rle_dec 1000 (currentTime - lastFpsTime r) in
  {| uniformManager := uniformManager r; camera := camera r; mesh := mesh r;
     sceneManager := sm; material := material r; ibl := ibl r;
     lights := lights r; rotation := rotation1;
     animationSpeed := animationSpeed r;
     lastTime := lastTime r; deltaTime := deltaTime r;
     frameCount := if tick then 0%nat else frameCount1;
     fps := if tick
            then Math_round ((INR frameCount1 * 1000) / (currentTime - lastFpsTime r))
            else fps r;
     lastFpsTime := if tick then currentTime else lastFpsTime r |}.

(** The body of the light loop for index [i]. *)
Definition lightCommands (um : UniformManager) (i : nat) (l : Light) : list command :=
  if hasUniform um (lightName "u_lightTypes" i) then
    [ SetUniform (lightName "u_lightTypes" i) [ANum (l_type l)];
      SetUniform (lightName "u_lightPositions" i) [numbers (l_position l)];
      SetUniform (lightName "u_lightDirections" i) [numbers (l_direction l)];
      SetUniform (lightName "u_lightColors" i) [numbers (l_color l)];
      SetUniform (lightName "u_lightIntensities" i) [ANum (l_intensity l)];
      SetUniform (lightName "u_lightRanges" i) [ANum (l_range l)];
      SetUniform (lightName "u_lightInnerCones" i) [ANum (l_innerCone l)];
      SetUniform (lightName "u_lightOuterCones" i) [ANum (l_outerCone l)] ]
  else [].

(** "Set global uniforms", "Set multi-light uniforms", "Set IBL uniforms". *)
Definition globalCommands (r : PBRRenderer) : list command :=
  [ SetUniform "u_viewMatrix" [ATyped (Cam.getViewMatrix (camera r))];
    SetUniform "u_projectionMatrix" [ATyped (Cam.getProjectionMatrix (camera r))];
    SetUniform "u_cameraPosition"
      [numbers (let p := Cam.getPosition (camera r) in [vx p; vy p; vz p])];
    SetUniform "u_numLights" [ANum (INR (List.length (lights r)))] ]
  ++ concat (imap (lightCommands (uniformManager r)) (lights r))
  ++ [ SetUniform "u_useIBL" [ANum (if enabled (ibl r) then 1 else 0)];
       SetUniform "u_iblIntensity" [ANum (intensity (ibl r))];
       SetUniform "u_ambientColor" [numbers (ambientColor (ibl r))] ].

(** [material.f] as an argument, for the material object at [l]. *)
Definition materialArg (h : Js.heap) (l : Js.loc) (f : Js.field) : arg :=
  match Js.get_material h l with
  | Some m => arg_of_value h (Js.get_field m f)
  | None => AUndefined
  end.

(** [mat3.create()] followed by [mat3.normalFromMat4(normalMatrix, modelMatrix)]. *)
Definition normalMatrixOf (modelMatrix : GlMatrix.mat4) : GlMatrix.mat3 :=
  match GlMatrix.normalFromMat4 modelMatrix with
  | Some n => n
  | None => GlMatrix.mat3_identity
  end.

(** The transform and material uniforms of one draw, then the draw. *)
Definition drawCommands (h : Js.heap) (modelMatrix : GlMatrix.mat4)
    (material0 : Js.loc) (m : option Scene.Mesh) : list command :=
  [ SetUniform "u_modelMatrix" [ATyped modelMatrix];
    SetUniform "u_normalMatrix" [ATyped (normalMatrixOf modelMatrix)];
    SetUniform "u_albedo" [materialArg h material0 Js.FAlbedo];
    SetUniform "u_metallic" [materialArg h material0 Js.FMetallic];
    SetUniform "u_roughness" [materialArg h material0 Js.FRoughness];
    SetUniform "u_ao" [materialArg h material0 Js.FAo];
    Render m ].

(** The body of [for (const sceneObject of objects)]. *)
Definition objectCommands (h : Js.heap) (o : Scene.SceneObject) : list command :=
  drawCommands h (Scene.modelMatrix o) (Scene.material o) (Scene.mesh o).

(** "Render all scene objects", with its fallback branch. *)
Definition sceneCommands (r : PBRRenderer) (h : Js.heap) : list command :=
  match sceneManager r with
  | Some s => concat (List.map (objectCommands h) (Scene.getAllObjects s))
  | None =>
      let modelMatrix := GlMatrix.mat4_identity in
      let modelMatrix := GlMatrix.rotateY modelMatrix (rotation r) in
      let modelMatrix := GlMatrix.rotateX modelMatrix (rotation r * 0.5) in
      drawCommands h modelMatrix (material r) (mesh r)
  end.

(** Everything [render] does inside its [try] after [update]. *)
Definition frameCommands (r : PBRRenderer) (h : Js.heap) : list command :=
  [Clear; UseProgram] ++ globalCommands r ++ sceneCommands r h ++ [CheckGLError].

(** What each operation does. *)
Definition exec (um : UniformManager) (env : frame_env) (c : command) : M unit :=
  match c with
  | Clear => gl clear
  | UseProgram => gl useProgram
  | SetUniform n values => setUniform um n values
  | Render m => SceneObject_render m
  | CheckGLError => checkGLError (gl_status env)
  end.

(** Statements in sequence: the first exception ends the sequence. *)
Fixpoint run (um : UniformManager) (env : frame_env) (cs : list command) : M unit :=
  match cs with
  | [] => mret tt
  | c :: rest => exec um env c;; run um env rest
  end.

(** The [switch (error)] of [checkGLError], on the values of the constants
    of [WebGLRenderingContext]. *)
Definition errorName (error : nat) : string :=
  match Z.of_nat error with
  | 1280%Z => "INVALID_ENUM"
  | 1281%Z => "INVALID_VALUE"
  | 1282%Z => "INVALID_OPERATION"
  | 1286%Z => "INVALID_FRAMEBUFFER_OPERATION"
  | 1285%Z => "OUT_OF_MEMORY"
  | 37442%Z => "CONTEXT_LOST_WEBGL"
  | _ => "UNKNOWN_ERROR"
  end.

(** [error.message]: for the error of [checkGLError(gl, 'render')],
    [`WebGL error ${errorName} (${error}) during: ${operation}`]; the
    message of a [TypeError] is the browser's. *)
Definition message (e : exn) : string :=
  match e with
  | TypeError => "TypeError"
  | GLError code =>
      "WebGL error " +:+ errorName code +:+ " (" +:+ pretty code
      +:+ ") during: render"
  end.

(** [displayError(message)]; the page element it fills is left out. *)
Definition displayError (message0 : string) : M unit := print (Error message0).

(** The renderer as [render] leaves it: the time step, then [update]. *)
Definition advance (r : PBRRenderer) (env : frame_env) : PBRRenderer :=
  let currentTime := now_render env in
  let deltaTime1 := (currentTime - lastTime r) / 1000 in
  let r1 :=
    {| uniformManager := uniformManager r; camera := camera r; mesh := mesh r;
       sceneManager := sceneManager r; material := material r; ibl := ibl r;
       lights := lights r; rotation := rotation r;
       animationSpeed := animationSpeed r;
       lastTime := currentTime; deltaTime := deltaTime1;
       frameCount := frameCount r; fps := fps r;
       lastFpsTime := lastFpsTime r |} in
  update r1 deltaTime1 (now_update env).

(** [render()], one frame.  The request for the next animation frame is
    the caller's iteration. *)
Definition render (r : PBRRenderer) (h : Js.heap) (env : frame_env)
    : world -> PBRRenderer * world := fun w =>
  let r1 := advance r env in
  let body := run (uniformManager r1) env (frameCommands r1 h) in
  let '(_, w1) :=
    try_catch body
      (fun error =>
         print (Error "Render error:");;
         displayError ("Render error: " +:+ message error)) w in
  (r1, w1).

End WithGlMatrix.

(** ** Reading the calls of a frame *)

(** The uniform location a call writes to, if it is a uniform call. *)
Definition target (c : glcall) : option WebGLUniformLocation :=
  match c with
  | uniform1f l _ | uniform1i l _ | uniform2fv l _ | uniform3fv l _
  | uniform4fv l _ | uniformMatrix3fv l _ _ | uniformMatrix4fv l _ _ => Some l
  | _ => None
  end.

Definition writes (n : string) (c : glcall) : bool :=
  match target c with
  | Some l => bool_decide (uniform_name l = n)
  | None => false
  end.

(** The binding of the uniform [n] in force after the calls [cs]: the last
    call that wrote to it. *)
Definition last_binding (cs : list glcall) (n : string) : option glcall :=
  List.find (writes n) (rev cs).

(** The names [render] binds once per frame: camera, lights, IBL. *)
Definition is_global_name (n : string) : bool :=
  bool_decide (n ∈ ["u_viewMatrix"; "u_projectionMatrix"; "u_cameraPosition";
                    "u_numLights"; "u_useIBL"; "u_iblIntensity"; "u_ambientColor"])
  || String.prefix "u_light" n.

(** The names [render] binds for each object: transform and material. *)
Definition is_object_name (n : string) : bool :=
  bool_decide (n ∈ ["u_modelMatrix"; "u_normalMatrix"; "u_albedo"; "u_metallic";
                    "u_roughness"; "u_ao"]).

(** A call that binds a global uniform. *)
Definition global_call (c : glcall) : bool :=
  match target c with
  | Some l => is_global_name (uniform_name l)
  | None => false
  end.

(** A call that belongs to the drawing of an object: a per-object uniform,
    the vertex array binding, or the draw call itself. *)
Definition object_call (c : glcall) : bool :=
  match c with
  | drawElements _ | bindVertexArray _ => true
  | _ => match target c with
         | Some l => is_object_name (uniform_name l)
         | None => false
         end
  end.

(** Every call [m] adds to the context satisfies [P]. *)
Definition emits (P : glcall -> Prop) {A} (m : M A) : Prop :=
  forall w, exists new, calls (m w).2 = calls w ++ new /\ Forall P new.

(** Every location in the cache is the location of the name it is stored
    under. *)
Definition sound (um : UniformManager) : Prop :=
  forall n l, uniformLocations um !! n = Some (Some l) -> uniform_name l = n.

(** The seven names of the camera and IBL uniforms. *)
Definition frameNames : list string :=
  ["u_viewMatrix"; "u_projectionMatrix"; "u_cameraPosition"; "u_numLights";
   "u_useIBL"; "u_iblIntensity"; "u_ambientColor"].

(** A command of the global phase: a [setUniform] of a global name. *)
Definition global_command (c : command) : bool :=
  match c with SetUniform n _ => is_global_name n | _ => false end.

(** A command of the drawing of an object: a [setUniform] of a per-object
    name, or the object's [render]. *)
Definition object_command (c : command) : bool :=
  match c with
  | SetUniform n _ => is_object_name n
  | Render _ => true
  | _ => false
  end.

(** The eight names [render] binds for the light of index [i]. *)
Definition lightNames (i : nat) : list string :=
  [ lightName "u_lightTypes" i; lightName "u_lightPositions" i;
    lightName "u_lightDirections" i; lightName "u_lightColors" i;
    lightName "u_lightIntensities" i; lightName "u_lightRanges" i;
    lightName "u_lightInnerCones" i; lightName "u_lightOuterCones" i ].

(** The name a command binds, if it is a [setUniform]. *)
Definition bound_name (c : command) : option string :=
  match c with SetUniform n _ => Some n | _ => None end.

(** ** The program of the two shaders *)

(** The uniforms the vertex shader and the fragment shader declare, each
    with the type constant of its declaration.  An array is entered the way
    [getActiveUniform] of a WebGL 2 context reports one: once, under the
    name of its element 0. *)
Definition declaredUniforms : list (string * gltype) :=
  [ ("u_modelMatrix", FLOAT_MAT4);
    ("u_viewMatrix", FLOAT_MAT4);
    ("u_projectionMatrix", FLOAT_MAT4);
    ("u_normalMatrix", FLOAT_MAT3);
    ("u_cameraPosition", FLOAT_VEC3);
    ("u_numLights", INT);
    ("u_lightTypes[0]", INT);
    ("u_lightPositions[0]", FLOAT_VEC3);
    ("u_lightDirections[0]", FLOAT_VEC3);
    ("u_lightColors[0]", FLOAT_VEC3);
    ("u_lightIntensities[0]", FLOAT);
    ("u_lightRanges[0]", FLOAT);
    ("u_lightInnerCones[0]", FLOAT);
    ("u_lightOuterCones[0]", FLOAT);
    ("u_useIBL", BOOL);
    ("u_iblIntensity", FLOAT);
    ("u_ambientColor", FLOAT_VEC3);
    ("u_albedo", FLOAT_VEC3);
    ("u_metallic", FLOAT);
    ("u_roughness", FLOAT);
    ("u_ao", FLOAT) ].

(** [p] is a program linked from the two shaders: [getActiveUniform]
    enumerates the declared uniforms, in some order, and
    [getUniformLocation] finds each of them. *)
Definition linked (p : WebGLProgram) : Prop :=
  List.map (fun i => (name i, type i)) (activeUniforms p) ≡ₚ declaredUniforms
  /\ forall i, i ∈ activeUniforms p -> locatable p (name i) = true.

(** ** Reading the draws of a frame *)

(** The index count of a draw call. *)
Definition drawCount (c : glcall) : option nat :=
  match c with drawElements n => Some n | _ => None end.

(** The draw calls among [cs], in order, each by its index count. *)
Definition draws (cs : list glcall) : list nat := omap drawCount cs.

(** What rendering a mesh draws: its index count, when it is there and
    loaded. *)
Definition drawn (m : option Scene.Mesh) : option nat :=
  match m with
  | Some m =>
      match Scene.vertexArray m with
      | Some _ => Some (Scene.indexCount m)
      | None => None
      end
  | None => None
  end.

(** The meshes a frame of the renderer asks to render, in order. *)
Definition rendered (r : PBRRenderer) : list (option Scene.Mesh) :=
  match sceneManager r with
  | Some s => List.map Scene.mesh (Scene.objects s)
  | None => [mesh r]
  end.

(** The draws of one command. *)
Definition commandDraws (c : command) : list nat :=
  match c with
  | Render m => match drawn m with Some n => [n] | None => [] end
  | _ => []
  end.

(** The renderer after the frames of [envs], one after the other. *)
Definition frames `{G : GlMatrix.Ops} (r : PBRRenderer) (envs : list frame_env)
    : PBRRenderer :=
  fold_left advance envs r.

End Gl.

(* ===================================================================== *)
(** * webgl-utils.js: compiling and linking *)
(* ===================================================================== *)

Module Program.

Inductive shaderType := VERTEX_SHADER | FRAGMENT_SHADER.

(** The calls [compileShader] and [createShaderProgram] make on the context
    that create, change or delete an object, and their console errors (by
    their first argument).  Shaders and programs are named by the handle
    the context returned. *)
Inductive event :=
| createShader (type : shaderType) (shader : nat)
| shaderSource (shader : nat) (source : string)
| glCompileShader (shader : nat)
| deleteShader (shader : nat)
| createProgram (program : nat)
| attachShader (program shader : nat)
| linkProgram (program : nat)
| deleteProgram (program : nat)
| consoleError (label : string).

(** What the context answers: whether a source compiles
    ([COMPILE_STATUS]) and its info log, whether the program links
    ([LINK_STATUS]) and its info log. *)
Record driver := {
  compiles : string -> bool;
  shaderInfoLog : string -> string;
  links : bool;
  programInfoLog : string
}.

(** The context: the next handle it will return, and the events so far. *)
Record context := Context {
  next : nat;
  events : list event
}.

Inductive result (A : Type) :=
| Ok (a : A)
| Thrown (message : string).
Arguments Ok {A} a.
Arguments Thrown {A} message.

Definition P (A : Type) : Type := context -> result A * context.

#[global] Instance P_ret : MRet P := fun A a c => (Ok a, c).

#[global] Instance P_bind : MBind P := fun A B f m c =>
  match m c with
  | (Ok a, c') => f a c'
  | (Thrown e, c') => (Thrown e, c')
  end.

Definition throw {A} (message : string) : P A := fun c => (Thrown message, c).

(** A call that returns nothing. *)
Definition call (e : event) : P unit := fun c =>
  (Ok tt, Context (next c) (events c ++ [e])).

(** A call that returns a new object. *)
Definition create (e : nat -> event) : P nat := fun c =>
  (Ok (next c), Context (S (next c)) (events c ++ [e (next c)])).

Definition typeName (type : shaderType) : string :=
  match type with VERTEX_SHADER => "VERTEX" | FRAGMENT_SHADER => "FRAGMENT" end.

Definition compileShader (d : driver) (source : string) (type : shaderType) : P nat :=
  shader ← create (createShader type);
  call (shaderSource shader source);;
  call (glCompileShader shader);;
  if negb (compiles d source) then
    let error := shaderInfoLog d source in
    call (consoleError (typeName type +:+ " shader compilation error:"));;
    call (consoleError "Shader source with line numbers:");;
    call (deleteShader shader);;
    throw (typeName type +:+ " shader compilation failed: " +:+ error)
  else mret shader.

Definition createShaderProgram (d : driver) (vertexSource fragmentSource : string)
    : P nat :=
  vertexShader ← compileShader d vertexSource VERTEX_SHADER;
  fragmentShader ← compileShader d fragmentSource FRAGMENT_SHADER;
  program ← create createProgram;
  call (attachShader program vertexShader);;
  call (attachShader program fragmentShader);;
  call (linkProgram program);;
  if negb (links d) then
    let error := programInfoLog d in
    call (consoleError "Shader program linking error:");;
    call (deleteProgram program);;
    call (deleteShader vertexShader);;
    call (deleteShader fragmentShader);;
    throw ("Shader program linking failed: " +:+ error)
  else
    call (deleteShader vertexShader);;
    call (deleteShader fragmentShader);;
    mret program.

(** The shaders created and not deleted, and the programs created and not
    deleted, in a sequence of events. *)
Definition deletedShader (es : list event) (shader : nat) : bool :=
  existsb (fun e => match e with deleteShader s => (s =? shader)%nat | _ => false end) es.

Definition deletedProgram (es : list event) (program : nat) : bool :=
  existsb (fun e => match e with deleteProgram p => (p =? program)%nat | _ => false end) es.

Definition liveShaders (es : list event) : list nat :=
  omap (fun e => match e with
                 | createShader _ s => if deletedShader es s then None else Some s
                 | _ => None
                 end) es.

Definition livePrograms (es : list event) : list nat :=
  omap (fun e => match e with
                 | createProgram p => if deletedProgram es p then None else Some p
                 | _ => None
                 end) es.

End Program.

(* ===================================================================== *)
(** * mesh.js: the generated geometry *)
(* ===================================================================== *)

(** The vertex and index data the [create...] functions of [Mesh] hand to
    [loadFromData].  A vertex is eight floats: position, normal, texture
    coordinates.  [segments] is a non-negative integer. *)
Module MeshJs.
Local Open Scope R_scope.

(** What [createSphere] pushes for latitude [lat] and longitude [lon]. *)
Definition sphereVertex (radius : R) (segments lat lon : nat) : list R :=
  let theta := INR lat * PI / INR segments in
  let sinTheta := sin theta in
  let cosTheta := cos theta in
  let phi := INR lon * 2 * PI / INR segments in
  let sinPhi := sin phi in
  let cosPhi := cos phi in
  let x := cosPhi * sinTheta in
  let y := cosTheta in
  let z := sinPhi * sinTheta in
  let u := 1 - INR lon / INR segments in
  let v := 1 - INR lat / INR segments in
  [radius * x; radius * y; radius * z; x; y; z; u; v].

(** "Generate sphere vertices": [lat] and [lon] from 0 to [segments]
    included. *)
Definition sphereVertices (radius : R) (segments : nat) : list R :=
  flat_map (fun lat => flat_map (sphereVertex radius segments lat) (seq 0 (S segments)))
           (seq 0 (S segments)).

(** The two triangles of the quad at [lat], [lon]. *)
Definition sphereQuad (segments lat lon : nat) : list nat :=
  let first := (lat * (segments + 1) + lon)%nat in
  let second := (first + segments + 1)%nat in
  [first; second; (first + 1)%nat; second; (second + 1)%nat; (first + 1)%nat].

(** "Generate sphere indices": [lat] and [lon] from 0 to [segments]
    excluded. *)
Definition sphereIndices (segments : nat) : list nat :=
  flat_map (fun lat => flat_map (sphereQuad segments lat) (seq 0 segments))
           (seq 0 segments).

(** [new Uint16Array(indices)]: every index modulo 2^16. *)
Definition Uint16Array (indices : list nat) : list nat :=
  List.map (fun i => Z.to_nat (Z.of_nat i mod 65536)) indices.

(** The four vertices [createCylinder] pushes for [i]: top circle, bottom
    circle, side top, side bottom. *)
Definition ringVertices (radius height : R) (segments i : nat) : list R :=
  let halfHeight := height / 2 in
  let angle := (INR i / INR segments) * 2 * PI in
  let x := cos angle * radius in
  let z := sin angle * radius in
  let u := INR i / INR segments in
  [x; halfHeight; z; 0; 1; 0; u; 1]
  ++ [x; - halfHeight; z; 0; -1; 0; u; 0]
  ++ [x; halfHeight; z; x / radius; 0; z / radius; u; 1]
  ++ [x; - halfHeight; z; x / radius; 0; z / radius; u; 0].

Definition cylinderVertices (radius height : R) (segments : nat) : list R :=
  let halfHeight := height / 2 in
  flat_map (ringVertices radius height segments) (seq 0 (S segments))
  ++ [0; halfHeight; 0; 0; 1; 0; 0.5; 0.5]
  ++ [0; - halfHeight; 0; 0; -1; 0; 0.5; 0.5].

(** "Generate indices for sides"; [%] on non-negative integers. *)
Definition sideIndices (segments i : nat) : list nat :=
  let sideTopA := (i * 4 + 2)%nat in
  let sideBottomA := (i * 4 + 3)%nat in
  let sideTopB := (((i + 1) mod segments) * 4 + 2)%nat in
  let sideBottomB := (((i + 1) mod segments) * 4 + 3)%nat in
  [sideTopA; sideBottomA; sideTopB; sideBottomA; sideBottomB; sideTopB].

Definition topIndices (segments i : nat) : list nat :=
  let vertsPerSeg := 4%nat in
  let ringVertCount := ((segments + 1) * vertsPerSeg)%nat in
  let topCenterIndex := ringVertCount in
  let a := (i * 4 + 0)%nat in
  let b := ((i + 1) * 4 + 0)%nat in
  [topCenterIndex; a; b].

Definition bottomIndices (segments i : nat) : list nat :=
  let vertsPerSeg := 4%nat in
  let ringVertCount := ((segments + 1) * vertsPerSeg)%nat in
  let topCenterIndex := ringVertCount in
  let bottomCenterIndex := (topCenterIndex + 1)%nat in
  let a := (i * 4 + 1)%nat in
  let b := ((i + 1) * 4 + 1)%nat in
  [bottomCenterIndex; b; a].

Definition cylinderIndices (segments : nat) : list nat :=
  flat_map (sideIndices segments) (seq 0 segments)
  ++ flat_map (topIndices segments) (seq 0 segments)
  ++ flat_map (bottomIndices segments) (seq 0 segments).

(** The handles [createVertexArray] and the two [createBuffer] calls of
    [loadFromData] return; each is [null] when the context is lost. *)
Record handles := {
  h_vertexArray : option nat;
  h_vertexBuffer : option nat;
  h_indexBuffer : option nat
}.

(** [loadFromData(vertices, indices)], as far as the mesh object goes: the
    data itself goes to the buffers of the context. *)
Definition loadFromData (hs : handles) (vertices : list R) (indices : list nat)
    : Scene.Mesh :=
  {| Scene.vertexArray := h_vertexArray hs;
     Scene.vertexBuffer := h_vertexBuffer hs;
     Scene.indexBuffer := h_indexBuffer hs;
     Scene.indexCount := List.length indices |}.

Definition createSphere (hs : handles) (radius : R) (segments : nat) : Scene.Mesh :=
  loadFromData hs (sphereVertices radius segments) (Uint16Array (sphereIndices segments)).

Definition createCylinder (hs : handles) (radius height : R) (segments : nat)
    : Scene.Mesh :=
  loadFromData hs (cylinderVertices radius height segments)
    (Uint16Array (cylinderIndices segments)).

(** What [dispose] deletes on the context. *)
Inductive deletion :=
| deleteVertexArray (vao : nat)
| deleteBuffer (buffer : nat).

(** [dispose()]: the mesh afterwards, and the deletions in order. *)
Definition dispose (m : Scene.Mesh) : Scene.Mesh * list deletion :=
  ({| Scene.vertexArray := None; Scene.vertexBuffer := None;
      Scene.indexBuffer := None; Scene.indexCount := Scene.indexCount m |},
   match Scene.vertexArray m with Some v => [deleteVertexArray v] | None => [] end
   ++ match Scene.vertexBuffer m with Some b => [deleteBuffer b] | None => [] end
   ++ match Scene.indexBuffer m with Some b => [deleteBuffer b] | None => [] end).

(** The vertex of index [k] in a vertex array. *)
Definition vertexAt (vertices : list R) (k : nat) : list R :=
  take 8 (drop (8 * k) vertices).

End MeshJs.

(* ===================================================================== *)
(** * material-editor.js: presets and material updates *)
(* ===================================================================== *)

Module Editor.
Local Open Scope R_scope.

(** An entry of [this.presets]. *)
Record preset := {
  p_albedo : list R;
  p_metallic : R;
  p_roughness : R;
  p_ao : R
}.

Definition Gold : preset :=
  {| p_albedo := [1; 0.8; 0.1]; p_metallic := 1; p_roughness := 0.1; p_ao := 1 |}.
Definition Silver : preset :=
  {| p_albedo := [0.95; 0.95; 0.95]; p_metallic := 1; p_roughness := 0.05; p_ao := 1 |}.
Definition Copper : preset :=
  {| p_albedo := [0.95; 0.6; 0.4]; p_metallic := 1; p_roughness := 0.15; p_ao := 1 |}.
Definition Iron : preset :=
  {| p_albedo := [0.56; 0.56; 0.56]; p_metallic := 1; p_roughness := 0.3; p_ao := 1 |}.
Definition PlasticRed : preset :=
  {| p_albedo := [0.8; 0.2; 0.2]; p_metallic := 0; p_roughness := 0.5; p_ao := 1 |}.
Definition PlasticBlue : preset :=
  {| p_albedo := [0.2; 0.4; 0.8]; p_metallic := 0; p_roughness := 0.3; p_ao := 1 |}.
Definition Rubber : preset :=
  {| p_albedo := [0.1; 0.1; 0.1]; p_metallic := 0; p_roughness := 0.9; p_ao := 1 |}.
Definition Ceramic : preset :=
  {| p_albedo := [0.9; 0.9; 0.85]; p_metallic := 0; p_roughness := 0.1; p_ao := 1 |}.
Definition Wood : preset :=
  {| p_albedo := [0.6; 0.4; 0.2]; p_metallic := 0; p_roughness := 0.8; p_ao := 1 |}.
Definition Glass : preset :=
  {| p_albedo := [0.95; 0.95; 0.95]; p_metallic := 0; p_roughness := 0; p_ao := 1 |}.

(** The four assignments [loadPreset] makes to one material object:
    [m.albedo = [...preset.albedo]; m.metallic = preset.metallic; ...]. *)
Definition applyPreset (h : Js.heap) (l : Js.loc) (p : preset) : Js.heap :=
  let '(h, a) := Js.alloc h (Js.CArray (p_albedo p)) in
  let h := Js.assign_field h l Js.FAlbedo (Js.VRef a) in
  let h := Js.assign_field h l Js.FMetallic (Js.VNum (p_metallic p)) in
  let h := Js.assign_field h l Js.FRoughness (Js.VNum (p_roughness p)) in
  Js.assign_field h l Js.FAo (Js.VNum (p_ao p)).

(** [loadPreset], for a preset that exists: the renderer's material first,
    then the material of every scene object.  The refresh of the GUI
    controllers is left out. *)
Definition loadPreset (h : Js.heap) (rendererMaterial : Js.loc)
    (objects : list Scene.SceneObject) (p : preset) : Js.heap :=
  fold_left (fun h o => applyPreset h (Scene.material o) p) objects
            (applyPreset h rendererMaterial p).

(** The assignments [updateMaterial] makes to one scene object, from the
    renderer's material [src]: the albedo array is copied
    ([[...this.renderer.material.albedo]]), the numbers are assigned.  The
    result is [None] when [src.albedo] is not an array (the spread throws). *)
Definition copyMaterial (h : Js.heap) (src : Js.material) (l : Js.loc)
    : option Js.heap :=
  match Js.deref_array h (Js.albedo src) with
  | None => None
  | Some xs =>
      let '(h, a) := Js.alloc h (Js.CArray xs) in
      let h := Js.assign_field h l Js.FAlbedo (Js.VRef a) in
      let h := Js.assign_field h l Js.FMetallic (Js.metallic src) in
      let h := Js.assign_field h l Js.FRoughness (Js.roughness src) in
      Some (Js.assign_field h l Js.FAo (Js.ao src))
  end.

(** [updateMaterial]: every scene object in turn, each reading the
    renderer's material as it then stands. *)
Fixpoint updateMaterial (h : Js.heap) (rendererMaterial : Js.loc)
    (objects : list Scene.SceneObject) : option Js.heap :=
  match objects with
  | [] => Some h
  | o :: rest =>
      match Js.get_material h rendererMaterial with
      | None => None
      | Some src =>
          match copyMaterial h src (Scene.material o) with
          | None => None
          | Some h' => updateMaterial h' rendererMaterial rest
          end
      end
  end.

(** The assignments [loadPreset] and [updateMaterial] both make to one
    material object: a new array for the albedo, then the three numbers. *)
Definition overwrite (h : Js.heap) (l : Js.loc) (xs : list R)
    (metallic0 roughness0 ao0 : Js.value) : Js.heap :=
  let '(h, a) := Js.alloc h (Js.CArray xs) in
  let h := Js.assign_field h l Js.FAlbedo (Js.VRef a) in
  let h := Js.assign_field h l Js.FMetallic metallic0 in
  let h := Js.assign_field h l Js.FRoughness roughness0 in
  Js.assign_field h l Js.FAo ao0.

(** What a reader sees of a material that holds the preset [p]. *)
Definition preset_view (p : preset) : Js.material_view :=
  Js.MaterialView (Some (p_albedo p)) (Js.VNum (p_metallic p))
    (Js.VNum (p_roughness p)) (Js.VNum (p_ao p)).

(** The location [l] holds a material object. *)
Definition is_material (h : Js.heap) (l : Js.loc) : Prop :=
  exists m, h !! l = Some (Js.CMaterial m).

(** The material object at [l] has the given numbers and the albedo array
    at [a], which holds [xs]. *)
Definition owns (h : Js.heap) (l a : Js.loc) (xs : list R)
    (metallic0 roughness0 ao0 : Js.value) : Prop :=
  h !! l = Some (Js.CMaterial (Js.Material (Js.VRef a) metallic0 roughness0 ao0))
  /\ h !! a = Some (Js.CArray xs).

(** Every material of [ls] has the given content, and no two of them have
    the same albedo array. *)
Definition separate (h : Js.heap) (ls : list Js.loc) (xs : list R)
    (metallic0 roughness0 ao0 : Js.value) : Prop :=
  (forall l, l ∈ ls -> exists a, owns h l a xs metallic0 roughness0 ao0)
  /\ (forall l1 l2 a, l1 ∈ ls -> l2 ∈ ls ->
        owns h l1 a xs metallic0 roughness0 ao0 ->
        owns h l2 a xs metallic0 roughness0 ao0 -> l1 = l2).

End Editor.

(* ===================================================================== *)
(** * Sample heaps *)
(* ===================================================================== *)

Module Samples.
Local Open Scope R_scope.

(** The heap after the constructor of [PBRRenderer]: the albedo array
    [[0.7, 0.3, 0.3]] at location 0, and [this.material] at location 1. *)
Definition renderer_heap : Js.heap :=
  [ Js.CArray [0.7; 0.3; 0.3];
    Js.CMaterial (Js.Material (Js.VRef 0%nat) (Js.VNum 0) (Js.VNum 0.5) (Js.VNum 1)) ].

Definition renderer_material : Js.loc := 1%nat.

(** A heap holding a material record whose numbers are all 0, at
    location 1. *)
Definition zero_heap : Js.heap :=
  [ Js.CArray [0.5; 0.5; 0.5];
    Js.CMaterial (Js.Material (Js.VRef 0%nat) (Js.VNum 0) (Js.VNum 0) (Js.VNum 0)) ].

(** A program interface with the uniforms of the two shaders, each light
    array listed under its element 0, and every listed name locatable. *)
Definition program : Gl.WebGLProgram :=
  {| Gl.activeUniforms :=
       [ Gl.ActiveInfo "u_modelMatrix" 1 Gl.FLOAT_MAT4;
         Gl.ActiveInfo "u_viewMatrix" 1 Gl.FLOAT_MAT4;
         Gl.ActiveInfo "u_projectionMatrix" 1 Gl.FLOAT_MAT4;
         Gl.ActiveInfo "u_normalMatrix" 1 Gl.FLOAT_MAT3;
         Gl.ActiveInfo "u_cameraPosition" 1 Gl.FLOAT_VEC3;
         Gl.ActiveInfo "u_numLights" 1 Gl.INT;
         Gl.ActiveInfo "u_lightTypes[0]" 8 Gl.INT;
         Gl.ActiveInfo "u_lightPositions[0]" 8 Gl.FLOAT_VEC3;
         Gl.ActiveInfo "u_lightDirections[0]" 8 Gl.FLOAT_VEC3;
         Gl.ActiveInfo "u_lightColors[0]" 8 Gl.FLOAT_VEC3;
         Gl.ActiveInfo "u_lightIntensities[0]" 8 Gl.FLOAT;
         Gl.ActiveInfo "u_lightRanges[0]" 8 Gl.FLOAT;
         Gl.ActiveInfo "u_lightInnerCones[0]" 8 Gl.FLOAT;
         Gl.ActiveInfo "u_lightOuterCones[0]" 8 Gl.FLOAT;
         Gl.ActiveInfo "u_useIBL" 1 Gl.BOOL;
         Gl.ActiveInfo "u_iblIntensity" 1 Gl.FLOAT;
         Gl.ActiveInfo "u_ambientColor" 1 Gl.FLOAT_VEC3;
         Gl.ActiveInfo "u_albedo" 1 Gl.FLOAT_VEC3;
         Gl.ActiveInfo "u_metallic" 1 Gl.FLOAT;
         Gl.ActiveInfo "u_roughness" 1 Gl.FLOAT;
         Gl.ActiveInfo "u_ao" 1 Gl.FLOAT ];
     Gl.locatable := fun _ => true |}.

(** A world in which the albedo has been bound once. *)
Definition world : Gl.world :=
  Gl.World [Gl.uniform3fv (Gl.Location "u_albedo") (Gl.numbers [0.7; 0.3; 0.3])] [].

(** The camera of an 800 by 600 canvas, with the exact matrices. *)
Definition camera : Cam.Camera := Cam.new_Camera (G := GlMatrix.exact) 800 600.

(** A loaded mesh of 36 indices. *)
Definition cube : Scene.Mesh :=
  {| Scene.vertexArray := Some 1%nat; Scene.vertexBuffer := Some 2%nat;
     Scene.indexBuffer := Some 3%nat; Scene.indexCount := 36 |}.

(** The transform [init] passes for its sphere:
    [{ position: [0, 0, 0], rotationSpeed: [0, 0.5, 0] }]. *)
Definition init_transform : Scene.transform :=
  {| Scene.t_position := Some (Glsl.Vec3 0 0 0);
     Scene.t_rotation := None;
     Scene.t_scale := None;
     Scene.t_rotationSpeed := Some (Glsl.Vec3 0 0.5 0) |}.

(** The heap and the scene object [init] builds from [renderer_heap] with
    [new SceneObject(mesh, this.material, ...)]: the object's material record
    is at location 2 and refers to the albedo array at location 0. *)
Definition scene_heap : Js.heap :=
  renderer_heap
  ++ [ Js.CMaterial
         (Js.Material (Js.VRef 0%nat) (Js.VNum 0) (Js.VNum 0.5) (Js.VNum 1)) ].

Definition scene_object : Scene.SceneObject :=
  Scene.updateMatrix (G := GlMatrix.exact)
    {| Scene.mesh := Some cube;
       Scene.material := 2%nat;
       Scene.position := Glsl.Vec3 0 0 0;
       Scene.rotation := Glsl.Vec3 0 0 0;
       Scene.scale := Glsl.Vec3 1 1 1;
       Scene.rotationSpeed := Glsl.Vec3 0 0.5 0;
       Scene.modelMatrix := GlMatrix.mat4_identity |}.

(** A renderer as [init] leaves it, over [scene_heap]. *)
Definition renderer : Gl.PBRRenderer :=
  {| Gl.uniformManager := Gl.new_UniformManager program;
     Gl.camera := camera;
     Gl.mesh := Some cube;
     Gl.sceneManager :=
       Some {| Scene.objects := [scene_object]; Scene.activeObjectIndex := 0 |};
     Gl.material := renderer_material;
     Gl.ibl := Gl.initial_ibl;
     Gl.lights := Gl.initial_lights;
     Gl.rotation := 0;
     Gl.animationSpeed := 1;
     Gl.lastTime := 0;
     Gl.deltaTime := 0;
     Gl.frameCount := 0;
     Gl.fps := 0;
     Gl.lastFpsTime := 0 |}.

(** A frame 16 ms after the last one, with no WebGL error pending. *)
Definition frame : Gl.frame_env :=
  {| Gl.now_render := 16; Gl.now_update := 16; Gl.gl_status := 0 |}.

End Samples.

(* ===================================================================== *)
(** * Properties of the shading core *)
(* ===================================================================== *)

Module ShaderFacts.
Import Glsl Shader.
Local Open Scope R_scope.

(** ** The light loop *)

Lemma lightLoop_exit (u : uniforms) (v : varyings) (i : Z) (Lo : vec3) :
  (Z.min (u_numLights u) MAX_LIGHTS <= i)%Z -> lightLoop u v i Lo = Lo.
Proof.
  intros Hi. simp lightLoop.
  destruct (Z_lt_dec i (u_numLights u)) as [Hn|Hn]; simpl; [|reflexivity].
  destruct (Z_lt_dec i MAX_LIGHTS) as [Hm|Hm]; simpl; [|reflexivity].
  lia.
Qed.

Lemma lightLoop_step (u : uniforms) (v : varyings) (i : Z) (Lo : vec3) :
  (i < Z.min (u_numLights u) MAX_LIGHTS)%Z ->
  lightLoop u v i Lo = lightLoop u v (i + 1) (vadd Lo (lightContribution u v i)).
Proof.
  intros Hi. rewrite lightLoop_equation_1 at 1.
  destruct (Z_lt_dec i (u_numLights u)) as [Hn|Hn]; simpl; [|lia].
  destruct (Z_lt_dec i MAX_LIGHTS) as [Hm|Hm]; simpl; [reflexivity|lia].
Qed.

Lemma lightLoop_accumulate (u : uniforms) (v : varyings) (k : nat) :
  forall (i : Z) (Lo : vec3),
    (0 <= i)%Z ->
    Z.to_nat (Z.min (u_numLights u) MAX_LIGHTS - i) = k ->
    lightLoop u v i Lo = accumulate u v (seq (Z.to_nat i) k) Lo.
Proof.
  induction k as [|k IH]; intros i Lo Hi Hk.
  - apply lightLoop_exit. lia.
  - rewrite lightLoop_step by lia.
    rewrite (IH (i + 1)%Z) by lia.
    replace (Z.to_nat (i + 1)) with (S (Z.to_nat i)) by lia.
    unfold accumulate. simpl. rewrite Z2Nat.id by lia. reflexivity.
Qed.

Lemma accumulate_ext (u u' : uniforms) (v : varyings) (indices : list nat) :
  (forall i, In i indices ->
     lightContribution u' v (Z.of_nat i) = lightContribution u v (Z.of_nat i)) ->
  forall Lo, accumulate u' v indices Lo = accumulate u v indices Lo.
Proof.
  unfold accumulate. induction indices as [|i rest IH]; intros Heq Lo; simpl.
  - reflexivity.
  - rewrite (Heq i) by (left; reflexivity).
    apply IH. intros j Hj. apply Heq. right. exact Hj.
Qed.

Lemma at_index_firstn {A} (arr : list A) (k : nat) (i : Z) (d : A) :
  (Z.to_nat i < k)%nat -> at_index (firstn k arr) i d = at_index arr i d.
Proof.
  intros Hi. unfold at_index.
  revert arr k Hi. generalize (Z.to_nat i) as n.
  induction n as [|n IH]; intros [|a arr] [|k] Hk; simpl; try reflexivity; try lia.
  apply IH. lia.
Qed.

Lemma lightContribution_keep_lights (u : uniforms) (v : varyings) (k : nat) (i : Z) :
  (Z.to_nat i < k)%nat ->
  lightContribution (keep_lights k u) v i = lightContribution u v i.
Proof.
  intros Hi. unfold lightContribution. simpl.
  rewrite !at_index_firstn by exact Hi. reflexivity.
Qed.

Lemma main_Lo_accumulate (u : uniforms) (v : varyings) :
  main_Lo u v =
  accumulate u v (seq 0 (Z.to_nat (Z.min (u_numLights u) MAX_LIGHTS))) (vec3s 0).
Proof.
  unfold main_Lo.
  rewrite (lightLoop_accumulate u v (Z.to_nat (Z.min (u_numLights u) MAX_LIGHTS)))
    by (try lia; f_equal; lia).
  reflexivity.
Qed.

(** C3.  Whatever [u_numLights] is, the light loop adds to [Lo] the
    contributions of exactly the lights with index [0 <= i < min(u_numLights,
    8)], in order; the loop is a total function, so no count is an error.
    A count above 8 gives the colour the count 8 gives, and the entries of
    the light arrays at index 8 and above have no influence on the colour
    [main] writes. *)
Theorem light_loop_clamped (u : uniforms) (v : varyings) :
  main_Lo u v =
    accumulate u v (seq 0 (Z.to_nat (Z.min (u_numLights u) MAX_LIGHTS))) (vec3s 0)
  /\ main (with_numLights u (Z.min (u_numLights u) MAX_LIGHTS)) v = main u v
  /\ main (keep_lights 8 u) v = main u v.
Proof.
  split; [apply main_Lo_accumulate|].
  assert (Hn : main_Lo (with_numLights u (Z.min (u_numLights u) MAX_LIGHTS)) v
               = main_Lo u v).
  { rewrite !main_Lo_accumulate. simpl u_numLights.
    replace (Z.min (Z.min (u_numLights u) MAX_LIGHTS) MAX_LIGHTS)
      with (Z.min (u_numLights u) MAX_LIGHTS) by lia.
    apply accumulate_ext. intros i _. reflexivity. }
  assert (Hk : main_Lo (keep_lights 8 u) v = main_Lo u v).
  { rewrite !main_Lo_accumulate. simpl u_numLights.
    apply accumulate_ext. intros i Hi.
    apply lightContribution_keep_lights.
    apply in_seq in Hi. unfold MAX_LIGHTS in Hi. lia. }
  split.
  - unfold main. rewrite Hn. reflexivity.
  - unfold main. rewrite Hk. reflexivity.
Qed.

(** ** Directional lights *)

(** C9.  For a directional light the radiance [calculateLightContribution]
    returns does not depend on the light's intensity: the attenuation stays
    [1], and two calls that differ in [lightIntensity] only return the same
    vector. *)
Theorem directional_ignores_intensity
    (lightPos lightDir lightColor : vec3)
    (intensity1 intensity2 lightRange innerCone outerCone : R)
    (worldPos N V albedo : vec3) (metallic roughness : R) (F0 : vec3) :
  snd (lightVectorAndAttenuation LIGHT_DIRECTIONAL lightPos lightDir
         intensity1 lightRange innerCone outerCone worldPos) = 1
  /\ calculateLightContribution LIGHT_DIRECTIONAL lightPos lightDir lightColor
       intensity1 lightRange innerCone outerCone worldPos N V albedo
       metallic roughness F0
     = calculateLightContribution LIGHT_DIRECTIONAL lightPos lightDir lightColor
         intensity2 lightRange innerCone outerCone worldPos N V albedo
         metallic roughness F0.
Proof. split; reflexivity. Qed.

(** ** Metals *)

Lemma vadd_zero_l (a : vec3) : vadd (vec3s 0) a = a.
Proof.
  destruct a as [x y z]. unfold vadd, vmap2, vec3s. simpl.
  f_equal; lra.
Qed.

Lemma brdfTerms_metal_diffuse (N V L albedo : vec3) (roughness : R) (F0 : vec3) :
  fst (brdfTerms N V L albedo 1 roughness F0) = vec3s 0.
Proof.
  unfold brdfTerms, vdivs, vmul, vmuls, vsub, vmap, vmap2, vec3s. simpl.
  f_equal; unfold Rdiv; ring.
Qed.

Lemma iblTerms_metal_diffuse (u : uniforms) (v : varyings) :
  u_metallic u = 1 -> fst (iblTerms u v) = vec3s 0.
Proof.
  intros Hm.
  unfold iblTerms, main_metallic, vmul, vmuls, ssubv, vmap, vmap2, vec3s.
  simpl. rewrite Hm. f_equal; ring.
Qed.

(** C4.  With [metallic = 1]: the diffuse term of the BRDF is the zero
    vector for every light, normal, view vector, albedo and roughness, and
    what a light contributes is its specular term alone; the diffuse part of
    the IBL ambient term is the zero vector too, and with IBL enabled the
    ambient colour is the specular part alone, scaled by [ao] and the IBL
    intensity. *)
Theorem metallic_one_no_diffuse
    (lightType : Z) (lightPos lightDir lightColor : vec3)
    (lightIntensity lightRange innerCone outerCone : R)
    (worldPos N V L albedo : vec3) (metallic roughness : R) (F0 : vec3)
    (u : uniforms) (v : varyings) :
  metallic = 1 ->
  u_metallic u = 1 ->
  fst (brdfTerms N V L albedo metallic roughness F0) = vec3s 0
  /\ calculateLightContribution lightType lightPos lightDir lightColor
       lightIntensity lightRange innerCone outerCone worldPos N V albedo
       metallic roughness F0
     = (let '(L, attenuation) :=
          lightVectorAndAttenuation lightType lightPos lightDir
            lightIntensity lightRange innerCone outerCone worldPos in
        if Rlt_dec attenuation 0.001 then vec3s 0
        else vmuls (vmul (snd (brdfTerms N V L albedo metallic roughness F0))
                         (vmuls lightColor attenuation))
                   (max (dot N L) 0))
  /\ fst (iblTerms u v) = vec3s 0
  /\ (u_useIBL u = true ->
      main_ambient u v
      = vmuls (vmuls (snd (iblTerms u v)) (main_ao u)) (u_iblIntensity u)).
Proof.
  intros -> Hu. split; [apply brdfTerms_metal_diffuse|]. split; [|split].
  - unfold calculateLightContribution.
    destruct (lightVectorAndAttenuation _ _ _ _ _ _ _ _) as [L' attenuation].
    destruct (Rlt_dec attenuation 0.001); [reflexivity|].
    pose proof (brdfTerms_metal_diffuse N V L' albedo roughness F0) as Hd.
    destruct (brdfTerms N V L' albedo 1 roughness F0) as [diffuse specular].
    simpl in *. rewrite Hd, vadd_zero_l. reflexivity.
  - apply iblTerms_metal_diffuse, Hu.
  - intros Hibl. unfold main_ambient. rewrite Hibl.
    pose proof (iblTerms_metal_diffuse u v Hu) as Hd.
    destruct (iblTerms u v) as [kD_diffuse specular].
    simpl in *. rewrite Hd, vadd_zero_l. reflexivity.
Qed.

Lemma metallic_one_no_diffuse_witness :
  (1 : R) = 1
  /\ u_metallic gold_uniforms = 1
  /\ fst (brdfTerms (main_N facing_pixel) (main_V gold_uniforms facing_pixel)
            (lightVector gold_uniforms facing_pixel 0) (main_albedo gold_uniforms)
            1 (main_roughness gold_uniforms) (main_F0 gold_uniforms))
     = vec3s 0
  /\ fst (iblTerms gold_uniforms facing_pixel) = vec3s 0
  /\ main_ambient gold_uniforms facing_pixel
     = vmuls (vmuls (snd (iblTerms gold_uniforms facing_pixel))
                    (main_ao gold_uniforms))
             (u_iblIntensity gold_uniforms).
Proof.
  destruct (metallic_one_no_diffuse LIGHT_DIRECTIONAL (Vec3 0 0 0) (Vec3 0 0 (-1))
              (Vec3 1 0.95 0.8) 3 0 0 0 (Vec3 0 0 0)
              (main_N facing_pixel) (main_V gold_uniforms facing_pixel)
              (lightVector gold_uniforms facing_pixel 0) (main_albedo gold_uniforms)
              1 (main_roughness gold_uniforms) (main_F0 gold_uniforms)
              gold_uniforms facing_pixel eq_refl eq_refl)
    as (Hd & _ & Hi & Ha).
  split; [reflexivity|]. split; [reflexivity|]. split; [exact Hd|].
  split; [exact Hi|]. apply Ha. reflexivity.
Defined.

(** ** Range falloff of point and spot lights *)

Ltac case_minmax :=
  unfold clamp, max, min in *;
  repeat match goal with
         | |- context [Rlt_dec ?a ?b] => destruct (Rlt_dec a b)
         | H : context [Rlt_dec ?a ?b] |- _ => destruct (Rlt_dec a b)
         end.

Lemma smoothstep_at_edge0 (edge0 edge1 : R) : smoothstep edge0 edge1 edge0 = 0.
Proof.
  unfold smoothstep.
  replace ((edge0 - edge0) / (edge1 - edge0)) with 0 by (unfold Rdiv; ring).
  case_minmax; lra.
Qed.

Lemma smoothstep_at_edge1 (edge0 edge1 : R) :
  edge0 <> edge1 -> smoothstep edge0 edge1 edge1 = 1.
Proof.
  intros Hne. unfold smoothstep.
  replace ((edge1 - edge0) / (edge1 - edge0)) with 1 by (field; lra).
  case_minmax; lra.
Qed.

(** Between the edges, with [edge0 > edge1] as in the range falloff, the
    value lies strictly between 0 and 1. *)
Lemma smoothstep_between (edge0 edge1 x : R) :
  edge1 < x < edge0 -> 0 < smoothstep edge0 edge1 x < 1.
Proof.
  intros [Hlo Hhi]. unfold smoothstep.
  set (t := (x - edge0) / (edge1 - edge0)).
  assert (Ht : 0 < t < 1).
  { unfold t. split.
    - replace ((x - edge0) / (edge1 - edge0)) with ((edge0 - x) / (edge0 - edge1))
        by (field; lra).
      apply Rdiv_lt_0_compat; lra.
    - apply Rmult_lt_reg_r with (edge0 - edge1); [lra|].
      replace ((x - edge0) / (edge1 - edge0) * (edge0 - edge1)) with (edge0 - x)
        by (field; lra).
      lra. }
  clearbody t. case_minmax; try lra.
  split.
  - apply Rmult_lt_0_compat; [apply Rmult_lt_0_compat|]; lra.
  - assert (Hpos : 0 < (1 - t) * (1 - t) * (1 + 2 * t))
      by (apply Rmult_lt_0_compat; [apply Rmult_lt_0_compat|]; lra).
    replace (t * t * (3 - 2 * t)) with (1 - (1 - t) * (1 - t) * (1 + 2 * t)) by ring.
    lra.
Qed.

Lemma rangeAttenuation_at_range (lightIntensity lightRange : R) :
  rangeAttenuation lightIntensity lightRange lightRange = 0.
Proof. unfold rangeAttenuation. rewrite smoothstep_at_edge0. ring. Qed.

(** C5, as amended.  For a point or spot light with range [r > 0]: the
    distance attenuation [intensity/d^2 * smoothstep(r, r*0.5, d)] is 0 at
    [d = r], and the light then contributes the zero vector; it is the
    inverse-square value at [d = r*0.5]; and for [r*0.5 < d < r] it is
    strictly below the inverse-square value when the intensity is positive,
    and equal to it (both 0) when the intensity is 0. *)
Theorem range_falloff (lightIntensity lightRange : R) :
  0 < lightRange ->
  rangeAttenuation lightIntensity lightRange lightRange = 0
  /\ (forall lightType lightPos lightDir lightColor innerCone outerCone
             worldPos N V albedo metallic roughness F0,
        lightType = LIGHT_POINT \/ lightType = LIGHT_SPOT ->
        length (vsub lightPos worldPos) = lightRange ->
        calculateLightContribution lightType lightPos lightDir lightColor
          lightIntensity lightRange innerCone outerCone worldPos N V albedo
          metallic roughness F0 = vec3s 0)
  /\ rangeAttenuation lightIntensity lightRange (lightRange * 0.5)
     = lightIntensity / ((lightRange * 0.5) * (lightRange * 0.5))
  /\ (forall d, lightRange * 0.5 < d < lightRange ->
        (0 < lightIntensity ->
         rangeAttenuation lightIntensity lightRange d < lightIntensity / (d * d))
        /\ (lightIntensity = 0 ->
            rangeAttenuation lightIntensity lightRange d = lightIntensity / (d * d))).
Proof.
  intros Hr. split; [apply rangeAttenuation_at_range|]. split; [|split].
  - intros lightType lightPos lightDir lightColor innerCone outerCone
           worldPos N V albedo metallic roughness F0 Hty Hd.
    unfold calculateLightContribution, lightVectorAndAttenuation.
    destruct Hty as [-> | ->]; simpl; rewrite Hd, rangeAttenuation_at_range.
    + destruct (Rlt_dec 0 0.001); [reflexivity|lra].
    + rewrite Rmult_0_l. destruct (Rlt_dec 0 0.001); [reflexivity|lra].
  - unfold rangeAttenuation. rewrite smoothstep_at_edge1 by lra. ring.
  - intros d Hd. unfold rangeAttenuation.
    pose proof (smoothstep_between lightRange (lightRange * 0.5) d Hd) as Hs.
    split.
    + intros Hi.
      assert (Hq : 0 < lightIntensity / (d * d)).
      { apply Rdiv_lt_0_compat; [lra|]. apply Rmult_lt_0_compat; lra. }
      nra.
    + intros ->. unfold Rdiv. ring.
Qed.

(** C5 as the specification words it fails for a light of intensity 0:
    halfway between half-range and range its attenuation is 0, which is the
    inverse-square value, not below it. *)
Lemma zero_intensity_not_below :
  0 < 2 /\ 2 * 0.5 < 1.5 < 2
  /\ ~ (rangeAttenuation 0 2 1.5 < 0 / (1.5 * 1.5)).
Proof.
  split; [lra|]. split; [lra|].
  unfold rangeAttenuation, Rdiv. rewrite !Rmult_0_l. lra.
Qed.

Lemma range_falloff_witness :
  0 < 8
  /\ rangeAttenuation 5 8 8 = 0
  /\ rangeAttenuation 5 8 (8 * 0.5) = 5 / ((8 * 0.5) * (8 * 0.5))
  /\ rangeAttenuation 5 8 6 < 5 / (6 * 6).
Proof.
  assert (H8 : 0 < 8) by lra.
  destruct (range_falloff 5 8 H8) as (H1 & _ & H3 & H4).
  split; [exact H8|]. split; [exact H1|]. split; [exact H3|].
  apply (H4 6); lra.
Defined.

(** ** Roughness and the divisors of D and G *)

Lemma dot_self_nonneg (a : vec3) : 0 <= dot a a.
Proof. destruct a as [x y z]. unfold dot. simpl. nra. Qed.

Lemma cauchy_schwarz (a b : vec3) : dot a b * dot a b <= dot a a * dot b b.
Proof.
  destruct a as [x y z], b as [p q r]. unfold dot. simpl.
  assert (H : (x * p + y * q + z * r) * (x * p + y * q + z * r)
              = (x * x + y * y + z * z) * (p * p + q * q + r * r)
                - ((x * q - y * p) * (x * q - y * p)
                   + (x * r - z * p) * (x * r - z * p)
                   + (y * r - z * q) * (y * r - z * q))) by ring.
  rewrite H.
  pose proof (Rle_0_sqr (x * q - y * p)) as H1.
  pose proof (Rle_0_sqr (x * r - z * p)) as H2.
  pose proof (Rle_0_sqr (y * r - z * q)) as H3.
  unfold Rsqr in *. lra.
Qed.

(** A normalised vector has squared length 1, or 0 for the zero vector. *)
Lemma dot_normalize_self (a : vec3) : dot (normalize a) (normalize a) <= 1.
Proof.
  pose proof (dot_self_nonneg a) as Hs.
  destruct (Req_dec_T (dot a a) 0) as [H0|Hne].
  - destruct a as [x y z]. unfold dot in H0. simpl in H0.
    assert (x = 0 /\ y = 0 /\ z = 0) as (-> & -> & ->) by (repeat split; nra).
    unfold normalize, vdivs, vmap, dot, Rdiv. simpl. lra.
  - assert (Hpos : 0 < dot a a) by lra.
    assert (Hl : sqrt (dot a a) * sqrt (dot a a) = dot a a) by (apply sqrt_sqrt; lra).
    assert (Hl0 : sqrt (dot a a) <> 0).
    { intros H. rewrite H in Hl. lra. }
    unfold normalize, length. destruct a as [x y z].
    unfold vdivs, vmap, dot in *. simpl in *.
    set (s := sqrt (x * x + y * y + z * z)) in *.
    replace (x / s * (x / s) + y / s * (y / s) + z / s * (z / s))
      with ((x * x + y * y + z * z) / (s * s)) by (field; exact Hl0).
    rewrite Hl. right. field. lra.
Qed.

Lemma dot_normalize_le_1 (a b : vec3) : dot (normalize a) (normalize b) <= 1.
Proof.
  pose proof (cauchy_schwarz (normalize a) (normalize b)) as Hcs.
  pose proof (dot_normalize_self a) as Ha.
  pose proof (dot_normalize_self b) as Hb.
  pose proof (dot_self_nonneg (normalize a)) as Ha0.
  pose proof (dot_self_nonneg (normalize b)) as Hb0.
  nra.
Qed.

Lemma macro_PI_pos : 0 < PI.
Proof. unfold PI. lra. Qed.

Lemma max_0_bounds (x : R) : x <= 1 -> 0 <= max x 0 <= 1.
Proof. intros Hx. unfold max. destruct (Rlt_dec x 0); lra. Qed.

Lemma GeometrySchlickGGX_denom_ge (NdotV roughness : R) :
  0 <= NdotV -> 0 <= roughness <= 1 ->
  1 / 8 <= GeometrySchlickGGX_denom NdotV roughness.
Proof.
  intros Hn Hr. unfold GeometrySchlickGGX_denom.
  assert (Hk : 1 / 8 <= (roughness + 1) * (roughness + 1) / 8 <= 1 / 2) by nra.
  set (k := (roughness + 1) * (roughness + 1) / 8) in *. clearbody k.
  nra.
Qed.

Lemma GeometrySchlickGGX_denom_pos (NdotV roughness : R) :
  0 <= NdotV -> 0 <= roughness <= 1 ->
  0 < GeometrySchlickGGX_denom NdotV roughness.
Proof.
  intros Hn Hr. pose proof (GeometrySchlickGGX_denom_ge NdotV roughness Hn Hr). lra.
Qed.

(** In exact arithmetic the divisor of the distribution term is positive
    for every roughness other than 0.  In binary32 it is not: see
    [Shader32Facts]. *)
Lemma DistributionGGX_denom_pos (N H : vec3) (roughness : R) :
  dot N H <= 1 -> roughness <> 0 ->
  0 < DistributionGGX_denom N H roughness.
Proof.
  intros Hd Hr. unfold DistributionGGX_denom, DistributionGGX_a2.
  pose proof (max_0_bounds (dot N H) Hd) as Hm.
  set (c := max (dot N H) 0) in *. clearbody c.
  assert (Hr2 : 0 < roughness * roughness) by nra.
  set (a := roughness * roughness) in *. clearbody a.
  assert (Ha2 : 0 < a * a) by nra.
  assert (Hc2 : 0 <= c * c <= 1) by nra.
  assert (Hden : 0 < c * c * (a * a - 1) + 1) by nra.
  pose proof macro_PI_pos as Hpi.
  rewrite Rmult_assoc.
  apply Rmult_lt_0_compat; [exact Hpi|].
  apply Rmult_lt_0_compat; exact Hden.
Qed.

(** C1, as amended.  [main] hands [u_roughness] to D and G as it is bound:
    nothing floors it.  For every roughness in [[0, 1]], 0 included, the
    divisor of the geometry term, [NdotV*(1-k)+k], is at least 1/8, for the
    view and for the light direction: [k] lies between 1/8 and 1/2 and
    [NdotV] is not negative.  Nothing is stated of the divisor of the
    distribution term, which no guard keeps from 0. *)
Theorem ggx_geometry_denominators_positive (u : uniforms) (v : varyings) (L : vec3) :
  0 <= u_roughness u <= 1 ->
  main_roughness u = u_roughness u
  /\ 1 / 8 <= GeometrySchlickGGX_denom (max (dot (main_N v) (main_V u v)) 0)
                (main_roughness u)
  /\ 1 / 8 <= GeometrySchlickGGX_denom (max (dot (main_N v) L) 0)
                (main_roughness u).
Proof.
  intros Hr. split; [reflexivity|].
  assert (Hmax : forall x, 0 <= max x 0).
  { intros x. unfold max. destruct (Rlt_dec x 0); lra. }
  split; apply GeometrySchlickGGX_denom_ge; first [apply Hmax | exact Hr].
Qed.

Lemma ggx_geometry_denominators_positive_witness :
  0 <= u_roughness glass_uniforms <= 1
  /\ main_roughness glass_uniforms = 0
  /\ 1 / 8 <= GeometrySchlickGGX_denom
                (max (dot (main_N facing_pixel)
                          (main_V glass_uniforms facing_pixel)) 0)
                (main_roughness glass_uniforms)
  /\ 1 / 8 <= GeometrySchlickGGX_denom
                (max (dot (main_N facing_pixel)
                          (lightVector glass_uniforms facing_pixel 0)) 0)
                (main_roughness glass_uniforms).
Proof.
  assert (Hr : 0 <= u_roughness glass_uniforms <= 1) by (simpl; lra).
  destruct (ggx_geometry_denominators_positive glass_uniforms facing_pixel
              (lightVector glass_uniforms facing_pixel 0) Hr)
    as (H1 & H2 & H3).
  split; [exact Hr|]. split; [exact H1|]. split; [exact H2|exact H3].
Defined.

Lemma normalize_z (c : R) : 0 < c -> normalize (Vec3 0 0 c) = Vec3 0 0 1.
Proof.
  intros Hc. unfold normalize, length, vdivs, vmap, dot. simpl.
  replace (0 * 0 + 0 * 0 + c * c) with (c * c) by ring.
  rewrite sqrt_square by lra.
  f_equal; field; lra.
Qed.

(** C1 as the specification words it fails on the Glass preset: its
    roughness is 0, [main] uses that 0, and at a pixel whose normal is the
    half vector (here: camera and light both along the normal) the divisor
    of [DistributionGGX] is 0, and so is its dividend. *)
Lemma roughness_zero_unguarded :
  main_roughness glass_uniforms = 0
  /\ DistributionGGX_denom (main_N facing_pixel)
       (normalize (vadd (main_V glass_uniforms facing_pixel)
                        (lightVector glass_uniforms facing_pixel 0)))
       (main_roughness glass_uniforms) = 0
  /\ DistributionGGX_a2 (main_roughness glass_uniforms) = 0.
Proof.
  split; [reflexivity|]. split.
  - unfold main_N, main_V, lightVector, main_roughness. simpl.
    unfold at_index, vsub, vneg, vmap, vmap2. simpl.
    replace (0 - 0) with 0 by ring. replace (1 - 0) with 1 by ring.
    replace (- 0) with 0 by ring. replace (- -1) with 1 by ring.
    rewrite !(normalize_z 1) by lra.
    unfold vadd, vmap2. simpl.
    replace (0 + 0) with 0 by ring. replace (1 + 1) with 2 by ring.
    rewrite (normalize_z 2) by lra.
    unfold DistributionGGX_denom, DistributionGGX_a2, dot, max. simpl.
    destruct (Rlt_dec (0 * 0 + 0 * 0 + 1 * 1) 0); [lra|]. ring.
  - unfold main_roughness, DistributionGGX_a2. simpl. ring.
Qed.

(** ** Ranges of the BRDF terms *)

Lemma pow_nonneg (x y : R) : 0 <= pow x y.
Proof.
  unfold pow. destruct (Rlt_dec 0 x); [|lra].
  unfold Rpower. left. apply exp_pos.
Qed.

Lemma pow_le_1 (x y : R) : x <= 1 -> 0 <= y -> pow x y <= 1.
Proof.
  intros Hx Hy. unfold pow. destruct (Rlt_dec 0 x) as [Hpos|]; [|lra].
  unfold Rpower.
  assert (Hln : ln x <= 0).
  { destruct (Req_dec_T x 1) as [->|Hne]; [rewrite ln_1; lra|].
    left. rewrite <- ln_1. apply ln_increasing; lra. }
  assert (Hprod : y * ln x <= 0) by nra.
  rewrite <- exp_0. destruct Hprod as [Hlt|Heq].
  - left. apply exp_increasing, Hlt.
  - rewrite Heq. lra.
Qed.

Lemma pow_one (y : R) : pow 1 y = 1.
Proof.
  unfold pow. destruct (Rlt_dec 0 1); [|lra].
  unfold Rpower. rewrite ln_1, Rmult_0_r. apply exp_0.
Qed.

Lemma pow_zero (y : R) : pow 0 y = 0.
Proof. unfold pow. destruct (Rlt_dec 0 0); [lra|reflexivity]. Qed.

Lemma clamp_unit (x : R) : 0 <= clamp x 0 1 <= 1.
Proof. case_minmax; lra. Qed.

Lemma clamp_unit_low (x : R) : x <= 0 -> clamp x 0 1 = 0.
Proof. intros Hx. case_minmax; lra. Qed.

Lemma clamp_unit_high (x : R) : 1 <= x -> clamp x 0 1 = 1.
Proof. intros Hx. case_minmax; lra. Qed.

Lemma fresnelSchlick_range (cosTheta : R) (F0 : vec3) :
  vle (vec3s 0) F0 -> vle F0 (vec3s 1) ->
  vle F0 (fresnelSchlick cosTheta F0)
  /\ vle (fresnelSchlick cosTheta F0) (vec3s 1)
  /\ (1 <= cosTheta -> fresnelSchlick cosTheta F0 = F0)
  /\ (cosTheta <= 0 -> fresnelSchlick cosTheta F0 = vec3s 1).
Proof.
  intros (Hx0 & Hy0 & Hz0) (Hx1 & Hy1 & Hz1). simpl in *.
  pose proof (clamp_unit (1 - cosTheta)) as Hc.
  pose proof (pow_nonneg (clamp (1 - cosTheta) 0 1) 5) as Hp0.
  assert (Hp1 : pow (clamp (1 - cosTheta) 0 1) 5 <= 1) by (apply pow_le_1; lra).
  destruct F0 as [x y z]. simpl in *.
  unfold fresnelSchlick, vle, vadd, vmuls, ssubv, vmap, vmap2, vec3s. simpl.
  set (p := pow (clamp (1 - cosTheta) 0 1) 5) in *.
  split; [repeat split; nra|]. split; [repeat split; nra|]. split.
  - intros Hn. unfold p. rewrite clamp_unit_low by lra. rewrite pow_zero.
    f_equal; ring.
  - intros Hg. unfold p. rewrite clamp_unit_high by lra. rewrite pow_one.
    f_equal; ring.
Qed.

(** The Schlick term stays between the base reflectance and 1; it is the
    base reflectance at normal incidence and 1 at grazing incidence. *)
Theorem fresnelSchlick_between (cosTheta : R) (F0 : vec3) :
  vle (vec3s 0) F0 -> vle F0 (vec3s 1) ->
  vle F0 (fresnelSchlick cosTheta F0)
  /\ vle (fresnelSchlick cosTheta F0) (vec3s 1)
  /\ (1 <= cosTheta -> fresnelSchlick cosTheta F0 = F0)
  /\ (cosTheta <= 0 -> fresnelSchlick cosTheta F0 = vec3s 1).
Proof. apply fresnelSchlick_range. Qed.

Lemma fresnelSchlick_between_witness :
  vle (vec3s 0) (vec3s 0.04) /\ vle (vec3s 0.04) (vec3s 1)
  /\ fresnelSchlick 1 (vec3s 0.04) = vec3s 0.04
  /\ fresnelSchlick 0 (vec3s 0.04) = vec3s 1.
Proof.
  assert (H0 : vle (vec3s 0) (vec3s 0.04)) by (unfold vle; simpl; lra).
  assert (H1 : vle (vec3s 0.04) (vec3s 1)) by (unfold vle; simpl; lra).
  destruct (fresnelSchlick_between 1 (vec3s 0.04) H0 H1) as (_ & _ & Hn & _).
  destruct (fresnelSchlick_between 0 (vec3s 0.04) H0 H1) as (_ & _ & _ & Hg).
  split; [exact H0|]. split; [exact H1|]. split; [apply Hn; lra|apply Hg; lra].
Defined.

Lemma main_F0_range (u : uniforms) :
  0 <= u_metallic u <= 1 -> vle (u_albedo u) (vec3s 1) ->
  vle (vec3s 0) (main_F0 u) /\ vle (main_F0 u) (vec3s 1)
  /\ (u_metallic u = 0 -> main_F0 u = vec3s 0.04)
  /\ (u_metallic u = 1 -> main_F0 u = main_albedo u).
Proof.
  intros Hm (Hx & Hy & Hz). simpl in *.
  unfold main_F0, main_albedo, main_metallic, vmix, mix, vpow, vle, vmap2, vec3s.
  simpl.
  pose proof (pow_nonneg (vx (u_albedo u)) 2.2) as Hx0.
  pose proof (pow_nonneg (vy (u_albedo u)) 2.2) as Hy0.
  pose proof (pow_nonneg (vz (u_albedo u)) 2.2) as Hz0.
  assert (Hx1 : pow (vx (u_albedo u)) 2.2 <= 1) by (apply pow_le_1; lra).
  assert (Hy1 : pow (vy (u_albedo u)) 2.2 <= 1) by (apply pow_le_1; lra).
  assert (Hz1 : pow (vz (u_albedo u)) 2.2 <= 1) by (apply pow_le_1; lra).
  split; [repeat split; nra|]. split; [repeat split; nra|]. split.
  - intros ->. f_equal; ring.
  - intros ->. f_equal; ring.
Qed.

(** The base reflectance [F0] of [main]: 0.04 for a dielectric, the
    gamma-decoded albedo for a metal, and within [[0, 1]] in between when
    the albedo is at most 1. *)
Theorem main_F0_split (u : uniforms) :
  0 <= u_metallic u <= 1 -> vle (u_albedo u) (vec3s 1) ->
  vle (vec3s 0) (main_F0 u) /\ vle (main_F0 u) (vec3s 1)
  /\ (u_metallic u = 0 -> main_F0 u = vec3s 0.04)
  /\ (u_metallic u = 1 -> main_F0 u = main_albedo u).
Proof. apply main_F0_range. Qed.

Lemma main_F0_split_witness :
  0 <= u_metallic gold_uniforms <= 1
  /\ vle (u_albedo gold_uniforms) (vec3s 1)
  /\ main_F0 gold_uniforms = main_albedo gold_uniforms
  /\ vle (main_F0 gold_uniforms) (vec3s 1).
Proof.
  assert (Hm : 0 <= u_metallic gold_uniforms <= 1) by (simpl; lra).
  assert (Ha : vle (u_albedo gold_uniforms) (vec3s 1)) by (unfold vle; simpl; lra).
  destruct (main_F0_split gold_uniforms Hm Ha) as (_ & H1 & _ & Hmetal).
  split; [exact Hm|]. split; [exact Ha|]. split; [apply Hmetal; reflexivity|exact H1].
Defined.

Lemma GeometrySchlickGGX_unit (NdotV roughness : R) :
  0 <= NdotV <= 1 -> 0 <= roughness <= 1 ->
  0 <= GeometrySchlickGGX NdotV roughness <= 1.
Proof.
  intros Hn Hr.
  pose proof (GeometrySchlickGGX_denom_pos NdotV roughness (proj1 Hn) Hr) as Hd.
  unfold GeometrySchlickGGX.
  assert (Hle : NdotV <= GeometrySchlickGGX_denom NdotV roughness).
  { unfold GeometrySchlickGGX_denom.
    assert (Hk : 1 / 8 <= (roughness + 1) * (roughness + 1) / 8 <= 1 / 2) by nra.
    set (k := (roughness + 1) * (roughness + 1) / 8) in *. clearbody k. nra. }
  set (d := GeometrySchlickGGX_denom NdotV roughness) in *. clearbody d.
  split.
  - apply Rmult_le_pos; [lra|]. left. apply Rinv_0_lt_compat, Hd.
  - apply Rmult_le_reg_r with d; [exact Hd|].
    replace (NdotV / d * d) with NdotV by (field; lra). lra.
Qed.

Lemma dot_unit_le_1 (a b : vec3) : dot a a = 1 -> dot b b = 1 -> dot a b <= 1.
Proof.
  intros Ha Hb. pose proof (cauchy_schwarz a b) as Hcs. rewrite Ha, Hb in Hcs. nra.
Qed.

(** For a roughness in [[0, 1]] and unit vectors, the Smith geometry term
    is within [[0, 1]]: it only ever attenuates. *)
Theorem GeometrySmith_unit (N V L : vec3) (roughness : R) :
  dot N N = 1 -> dot V V = 1 -> dot L L = 1 ->
  0 <= roughness <= 1 ->
  0 <= GeometrySmith N V L roughness <= 1.
Proof.
  intros HN HV HL Hr. unfold GeometrySmith.
  pose proof (max_0_bounds _ (dot_unit_le_1 N V HN HV)) as Hv.
  pose proof (max_0_bounds _ (dot_unit_le_1 N L HN HL)) as Hl.
  pose proof (GeometrySchlickGGX_unit _ roughness Hv Hr) as H2.
  pose proof (GeometrySchlickGGX_unit _ roughness Hl Hr) as H1.
  nra.
Qed.

Lemma GeometrySmith_unit_witness :
  dot (Vec3 0 0 1) (Vec3 0 0 1) = 1
  /\ dot (Vec3 0 0.6 0.8) (Vec3 0 0.6 0.8) = 1
  /\ dot (Vec3 0.6 0 0.8) (Vec3 0.6 0 0.8) = 1
  /\ 0 <= 0.5 <= 1
  /\ 0 <= GeometrySmith (Vec3 0 0 1) (Vec3 0 0.6 0.8) (Vec3 0.6 0 0.8) 0.5 <= 1.
Proof.
  assert (HN : dot (Vec3 0 0 1) (Vec3 0 0 1) = 1) by (unfold dot; simpl; lra).
  assert (HV : dot (Vec3 0 0.6 0.8) (Vec3 0 0.6 0.8) = 1) by (unfold dot; simpl; lra).
  assert (HL : dot (Vec3 0.6 0 0.8) (Vec3 0.6 0 0.8) = 1) by (unfold dot; simpl; lra).
  assert (Hr : 0 <= 0.5 <= 1) by lra.
  split; [exact HN|]. split; [exact HV|]. split; [exact HL|]. split; [exact Hr|].
  apply (GeometrySmith_unit _ _ _ 0.5 HN HV HL Hr).
Defined.

(** ** Where a light reaches *)

Lemma smoothstep_zero (edge0 edge1 x : R) :
  (x - edge0) / (edge1 - edge0) <= 0 -> smoothstep edge0 edge1 x = 0.
Proof.
  intros Ht. unfold smoothstep. rewrite clamp_unit_low by exact Ht. ring.
Qed.

Lemma smoothstep_one (edge0 edge1 x : R) :
  1 <= (x - edge0) / (edge1 - edge0) -> smoothstep edge0 edge1 x = 1.
Proof.
  intros Ht. unfold smoothstep. rewrite clamp_unit_high by exact Ht. ring.
Qed.

Lemma ratio_nonpos (a b : R) : a <= 0 -> 0 < b -> a / b <= 0.
Proof.
  intros Ha Hb. apply Rmult_le_reg_r with b; [exact Hb|].
  replace (a / b * b) with a by (field; lra). lra.
Qed.

Lemma ratio_ge_1 (a b : R) : b <= a -> 0 < b -> 1 <= a / b.
Proof.
  intros Ha Hb. apply Rmult_le_reg_r with b; [exact Hb|].
  replace (a / b * b) with a by (field; lra). lra.
Qed.

Lemma range_ratio (d r : R) :
  0 < r -> (d - r) / (r * 0.5 - r) = (r - d) / (r * 0.5).
Proof.
  intros Hr. replace (r * 0.5 - r) with (- (r * 0.5)) by lra. field. lra.
Qed.

Ltac vec_neq :=
  unfold vsub, vadd, vmap2, vneg, vmap, vec3s; simpl;
  let H := fresh in intros H; injection H; intros; lra.

(** A point or spot light with range [r > 0] reaches no pixel at distance
    [r] or more: its contribution there is the zero vector.  At a distance
    of [r/2] or less the range falloff is inactive: the attenuation is the
    inverse-square value. *)
Theorem range_limits (lightIntensity lightRange : R) :
  0 < lightRange ->
  (forall lightType lightPos lightDir lightColor innerCone outerCone
          worldPos N V albedo metallic roughness F0,
     light_defined lightType lightPos lightDir lightRange innerCone outerCone
       worldPos ->
     lightType <> LIGHT_DIRECTIONAL ->
     lightRange <= length (vsub lightPos worldPos) ->
     calculateLightContribution lightType lightPos lightDir lightColor
       lightIntensity lightRange innerCone outerCone worldPos N V albedo
       metallic roughness F0 = vec3s 0)
  /\ (forall d, 0 < d -> d <= lightRange * 0.5 ->
        rangeAttenuation lightIntensity lightRange d = lightIntensity / (d * d)).
Proof.
  intros Hr.
  assert (Hfar : forall d, lightRange <= d ->
                   rangeAttenuation lightIntensity lightRange d = 0).
  { intros d Hd. unfold rangeAttenuation. rewrite smoothstep_zero; [ring|].
    rewrite range_ratio by exact Hr.
    apply ratio_nonpos; lra. }
  split.
  - intros lightType lightPos lightDir lightColor innerCone outerCone
           worldPos N V albedo metallic roughness F0 Hdef Hty Hd.
    unfold calculateLightContribution, lightVectorAndAttenuation.
    destruct Hdef as [[-> _]|[[-> _]|[-> _]]]; [contradiction| |];
      simpl; rewrite (Hfar _ Hd).
    + destruct (Rlt_dec 0 0.001); [reflexivity|lra].
    + rewrite Rmult_0_l. destruct (Rlt_dec 0 0.001); [reflexivity|lra].
  - intros d Hd0 Hd. unfold rangeAttenuation. rewrite smoothstep_one; [ring|].
    rewrite range_ratio by exact Hr.
    apply ratio_ge_1; lra.
Qed.

Lemma range_limits_witness :
  0 < 8
  /\ rangeAttenuation 5 8 3 = 5 / (3 * 3)
  /\ calculateLightContribution LIGHT_POINT (Vec3 0 0 9) (Vec3 0 0 0)
       (Vec3 1 0.4 0.2) 5 8 0 0 (Vec3 0 0 0) (Vec3 0 0 1) (Vec3 0 0 1)
       (Vec3 1 1 1) 0 0.5 (vec3s 0.04) = vec3s 0.
Proof.
  assert (H8 : 0 < 8) by lra.
  destruct (range_limits 5 8 H8) as [Hfar Hnear].
  split; [exact H8|]. split; [apply Hnear; lra|].
  apply Hfar.
  - right. left. split; [reflexivity|]. split; [vec_neq|lra].
  - discriminate.
  - unfold length, vsub, vmap2, dot. simpl.
    replace ((0 - 0) * (0 - 0) + (0 - 0) * (0 - 0) + (9 - 0) * (9 - 0)) with (9 * 9)
      by ring.
    rewrite sqrt_square; lra.
Defined.

(** A spot light whose outer cone is wider than its inner cone, that is
    not at the pixel and has a direction and a range: a pixel outside the
    outer cone gets the zero vector, and a pixel inside the inner cone gets
    what a point light with the same position, colour, intensity and range
    gives. *)
Theorem spot_cone (lightPos lightDir lightColor : vec3)
    (lightIntensity lightRange innerCone outerCone : R)
    (worldPos N V albedo : vec3) (metallic roughness : R) (F0 : vec3) :
  vsub lightPos worldPos <> vec3s 0 -> lightDir <> vec3s 0 -> lightRange <> 0 ->
  cos (radians outerCone) < cos (radians innerCone) ->
  (dot (normalize (vsub lightPos worldPos)) (vneg (normalize lightDir))
   <= cos (radians outerCone) ->
   calculateLightContribution LIGHT_SPOT lightPos lightDir lightColor
     lightIntensity lightRange innerCone outerCone worldPos N V albedo
     metallic roughness F0 = vec3s 0)
  /\ (cos (radians innerCone)
      <= dot (normalize (vsub lightPos worldPos)) (vneg (normalize lightDir)) ->
      calculateLightContribution LIGHT_SPOT lightPos lightDir lightColor
        lightIntensity lightRange innerCone outerCone worldPos N V albedo
        metallic roughness F0
      = calculateLightContribution LIGHT_POINT lightPos lightDir lightColor
          lightIntensity lightRange innerCone outerCone worldPos N V albedo
          metallic roughness F0).
Proof.
  intros _ _ _ Hcone. split; intros Hc;
    unfold calculateLightContribution, lightVectorAndAttenuation; simpl.
  - rewrite smoothstep_zero by (apply ratio_nonpos; lra).
    rewrite Rmult_0_r. destruct (Rlt_dec 0 0.001); [reflexivity|lra].
  - rewrite smoothstep_one by (apply ratio_ge_1; lra).
    rewrite Rmult_1_r. reflexivity.
Qed.

Lemma spot_cone_witness :
  vsub (Vec3 0 0 1) (Vec3 0 0 0) <> vec3s 0
  /\ Vec3 0 0 1 <> vec3s 0
  /\ 10 <> 0
  /\ cos (radians 90) < cos (radians 0)
  /\ calculateLightContribution LIGHT_SPOT (Vec3 0 0 1) (Vec3 0 0 1)
       (Vec3 0.2 0.4 1) 8 10 0 90 (Vec3 0 0 0) (Vec3 0 0 1) (Vec3 0 0 1)
       (Vec3 1 1 1) 0 0.5 (vec3s 0.04) = vec3s 0.
Proof.
  assert (Hpos : vsub (Vec3 0 0 1) (Vec3 0 0 0) <> vec3s 0) by vec_neq.
  assert (Hdir : Vec3 0 0 1 <> vec3s 0) by vec_neq.
  assert (Hrange : 10 <> 0) by lra.
  assert (Hcone : cos (radians 90) < cos (radians 0)).
  { unfold radians. replace (Rtrigo1.PI / 180 * 0) with 0 by ring.
    replace (Rtrigo1.PI / 180 * 90) with (Rtrigo1.PI / 2) by field.
    rewrite cos_0, cos_PI2. lra. }
  split; [exact Hpos|]. split; [exact Hdir|]. split; [exact Hrange|].
  split; [exact Hcone|].
  apply (spot_cone (Vec3 0 0 1) (Vec3 0 0 1) (Vec3 0.2 0.4 1) 8 10 0 90
           (Vec3 0 0 0) (Vec3 0 0 1) (Vec3 0 0 1) (Vec3 1 1 1) 0 0.5
           (vec3s 0.04) Hpos Hdir Hrange Hcone).
  unfold vsub, vmap2. simpl.
  replace (0 - 0) with 0 by ring. replace (1 - 0) with 1 by ring.
  rewrite (normalize_z 1) by lra.
  unfold vneg, vmap, dot, radians. simpl.
  replace (Rtrigo1.PI / 180 * 90) with (Rtrigo1.PI / 2) by field.
  rewrite cos_PI2. lra.
Defined.

(** A surface that faces away from a light ([N.L <= 0]) receives nothing
    from it: for a unit normal, a roughness in [(0, 1]], a light that is
    defined and a half vector that is not the zero vector, the contribution
    is the zero vector. *)
Theorem backfacing_unlit (lightType : Z) (lightPos lightDir lightColor : vec3)
    (lightIntensity lightRange innerCone outerCone : R)
    (worldPos N V albedo : vec3) (metallic roughness : R) (F0 : vec3) :
  let L := fst (lightVectorAndAttenuation lightType lightPos lightDir
                  lightIntensity lightRange innerCone outerCone worldPos) in
  light_defined lightType lightPos lightDir lightRange innerCone outerCone worldPos ->
  dot N N = 1 -> 0 < roughness <= 1 -> vadd V L <> vec3s 0 ->
  dot N L <= 0 ->
  calculateLightContribution lightType lightPos lightDir lightColor
    lightIntensity lightRange innerCone outerCone worldPos N V albedo
    metallic roughness F0 = vec3s 0.
Proof.
  intros L _ _ _ _ Hback. subst L. unfold calculateLightContribution.
  destruct (lightVectorAndAttenuation _ _ _ _ _ _ _ _) as [L attenuation].
  simpl in Hback.
  destruct (Rlt_dec attenuation 0.001); [reflexivity|].
  destruct (brdfTerms N V L albedo metallic roughness F0) as [diffuse specular].
  assert (Hmax : max (dot N L) 0 = 0).
  { unfold max. destruct (Rlt_dec (dot N L) 0); [reflexivity|lra]. }
  rewrite Hmax. unfold vmuls, vmap, vec3s. simpl. f_equal; ring.
Qed.

Lemma backfacing_unlit_witness :
  light_defined LIGHT_DIRECTIONAL (Vec3 0 0 0) (Vec3 0 0 (-1)) 0 0 0 (Vec3 0 0 0)
  /\ dot (Vec3 0 0 (-1)) (Vec3 0 0 (-1)) = 1
  /\ 0 < 0.5 <= 1
  /\ calculateLightContribution LIGHT_DIRECTIONAL (Vec3 0 0 0) (Vec3 0 0 (-1))
       (Vec3 1 0.95 0.8) 3 0 0 0 (Vec3 0 0 0) (Vec3 0 0 (-1)) (Vec3 0 0 1)
       (Vec3 1 1 1) 0 0.5 (vec3s 0.04) = vec3s 0.
Proof.
  assert (HL : fst (lightVectorAndAttenuation LIGHT_DIRECTIONAL (Vec3 0 0 0)
                      (Vec3 0 0 (-1)) 3 0 0 0 (Vec3 0 0 0)) = Vec3 0 0 1).
  { simpl. unfold vneg, vmap. simpl.
    replace (- 0) with 0 by ring. replace (- -1) with 1 by ring.
    apply normalize_z. lra. }
  assert (Hdef : light_defined LIGHT_DIRECTIONAL (Vec3 0 0 0) (Vec3 0 0 (-1)) 0 0 0
                   (Vec3 0 0 0)).
  { left. split; [reflexivity|vec_neq]. }
  assert (HN : dot (Vec3 0 0 (-1)) (Vec3 0 0 (-1)) = 1) by (unfold dot; simpl; lra).
  assert (Hr : 0 < 0.5 <= 1) by lra.
  split; [exact Hdef|]. split; [exact HN|]. split; [exact Hr|].
  apply (backfacing_unlit LIGHT_DIRECTIONAL (Vec3 0 0 0) (Vec3 0 0 (-1))
           (Vec3 1 0.95 0.8) 3 0 0 0 (Vec3 0 0 0) (Vec3 0 0 (-1)) (Vec3 0 0 1)
           (Vec3 1 1 1) 0 0.5 (vec3s 0.04) Hdef HN Hr).
  - rewrite HL. vec_neq.
  - rewrite HL. unfold dot. simpl. lra.
Defined.

(** ** The range of the fragment colour *)

Lemma nonneg_zero : vle (vec3s 0) (vec3s 0).
Proof. unfold vle. simpl. lra. Qed.

Lemma nonneg_vadd (a b : vec3) :
  vle (vec3s 0) a -> vle (vec3s 0) b -> vle (vec3s 0) (vadd a b).
Proof. unfold vle. simpl. lra. Qed.

Lemma nonneg_vmul (a b : vec3) :
  vle (vec3s 0) a -> vle (vec3s 0) b -> vle (vec3s 0) (vmul a b).
Proof. unfold vle. simpl. intros (? & ? & ?) (? & ? & ?). repeat split; nra. Qed.

Lemma nonneg_vmuls (a : vec3) (s : R) :
  vle (vec3s 0) a -> 0 <= s -> vle (vec3s 0) (vmuls a s).
Proof. unfold vle. simpl. intros (? & ? & ?) ?. repeat split; nra. Qed.

Lemma nonneg_smulv (s : R) (a : vec3) :
  0 <= s -> vle (vec3s 0) a -> vle (vec3s 0) (smulv s a).
Proof. unfold vle. simpl. intros ? (? & ? & ?). repeat split; nra. Qed.

Lemma nonneg_vdivs (a : vec3) (s : R) :
  vle (vec3s 0) a -> 0 < s -> vle (vec3s 0) (vdivs a s).
Proof.
  unfold vle. simpl. intros (? & ? & ?) Hs.
  pose proof (Rinv_0_lt_compat s Hs). unfold Rdiv. repeat split; nra.
Qed.

Lemma max_nonneg_r (x : R) : 0 <= max x 0.
Proof. unfold max. destruct (Rlt_dec x 0); lra. Qed.

Lemma max_nonneg_l (x : R) : 0 <= max 0 x.
Proof. unfold max. destruct (Rlt_dec 0 x); lra. Qed.

Lemma main_albedo_unit (u : uniforms) :
  vle (u_albedo u) (vec3s 1) ->
  vle (vec3s 0) (main_albedo u) /\ vle (main_albedo u) (vec3s 1).
Proof.
  intros (Hx & Hy & Hz). simpl in *. unfold main_albedo, vpow, vle. simpl.
  repeat split; first [apply pow_nonneg | apply pow_le_1; lra].
Qed.

Lemma normalize_y_bound (a : vec3) : -1 <= vy (normalize a).
Proof.
  pose proof (dot_normalize_self a) as H. destruct (normalize a) as [x y z].
  unfold dot in H. simpl in *. nra.
Qed.

Lemma reflect_y_bound (a b : vec3) :
  -1 <= vy (reflect (vneg (normalize a)) (normalize b)).
Proof.
  pose proof (dot_normalize_self a) as Ha.
  pose proof (dot_normalize_self b) as Hb.
  pose proof (dot_self_nonneg (normalize b)) as Hb0.
  destruct (normalize a) as [x y z], (normalize b) as [p q r].
  unfold reflect, vneg, vsub, smulv, vmap, vmap2, dot in *. simpl in *.
  set (c := p * - x + q * - y + r * - z).
  assert (Hsq : (- x - 2 * c * p) * (- x - 2 * c * p)
                + (- y - 2 * c * q) * (- y - 2 * c * q)
                + (- z - 2 * c * r) * (- z - 2 * c * r)
                = (x * x + y * y + z * z)
                  - 4 * (c * c) * (1 - (p * p + q * q + r * r)))
    by (unfold c; ring).
  clearbody c.
  assert (Hcc : 0 <= c * c) by nra.
  assert (Hdef : 0 <= 4 * (c * c) * (1 - (p * p + q * q + r * r)))
    by (apply Rmult_le_pos; lra).
  pose proof (Rle_0_sqr (- x - 2 * c * p)) as H1.
  pose proof (Rle_0_sqr (- z - 2 * c * r)) as H3.
  unfold Rsqr in H1, H3.
  assert (Hle : (- y - 2 * c * q) * (- y - 2 * c * q) <= 1) by lra.
  nra.
Qed.

Lemma sampleSky_nonneg (direction : vec3) :
  -1 <= vy direction -> vle (vec3s 0) (sampleSky direction).
Proof.
  intros Hy. unfold sampleSky.
  pose proof (pow_nonneg (max 0 (- vy direction)) 0.5) as Hw0.
  assert (Hw1 : pow (max 0 (- vy direction)) 0.5 <= 1).
  { apply pow_le_1; [|lra]. unfold max. destruct (Rlt_dec 0 (- vy direction)); lra. }
  set (w := pow (max 0 (- vy direction)) 0.5) in *. clearbody w.
  pose proof (pow_nonneg
                (max (dot direction (normalize (Vec3 0.3 0.8 0.2))) 0) 128) as Hs.
  set (sun := pow (max (dot direction (normalize (Vec3 0.3 0.8 0.2))) 0) 128) in *.
  clearbody sun.
  unfold vle, vadd, vmuls, vmix, mix, vmap, vmap2. simpl.
  repeat split; nra.
Qed.

Lemma sampleIrradiance_nonneg (a : vec3) :
  vle (vec3s 0) (sampleIrradiance (normalize a)).
Proof.
  unfold sampleIrradiance.
  apply nonneg_vmuls; [|lra].
  apply nonneg_vadd; [apply nonneg_vadd|].
  - apply sampleSky_nonneg. simpl. lra.
  - apply sampleSky_nonneg. simpl. lra.
  - apply nonneg_vmuls; [|lra]. apply sampleSky_nonneg, normalize_y_bound.
Qed.

Lemma fresnelRoughness_component (x roughness p : R) :
  0 <= x <= 1 -> 0 <= roughness <= 1 -> 0 <= p <= 1 ->
  0 <= x + (max (1 - roughness) x - x) * p <= 1.
Proof.
  intros Hx Hr Hp. unfold max. destruct (Rlt_dec (1 - roughness) x).
  - replace (x + (x - x) * p) with x by ring. exact Hx.
  - assert (Hd : 0 <= 1 - roughness - x) by lra.
    assert (Hprod : 0 <= (1 - roughness - x) * p <= 1 - roughness - x) by nra.
    lra.
Qed.

Lemma fresnelSchlickRoughness_between (cosTheta : R) (F0 : vec3) (roughness : R) :
  vle (vec3s 0) F0 -> vle F0 (vec3s 1) -> 0 <= roughness <= 1 ->
  vle (vec3s 0) (fresnelSchlickRoughness cosTheta F0 roughness)
  /\ vle (fresnelSchlickRoughness cosTheta F0 roughness) (vec3s 1).
Proof.
  intros (Hx0 & Hy0 & Hz0) (Hx1 & Hy1 & Hz1) Hr. simpl in *.
  pose proof (pow_nonneg (clamp (1 - cosTheta) 0 1) 5) as Hp0.
  assert (Hp1 : pow (clamp (1 - cosTheta) 0 1) 5 <= 1)
    by (apply pow_le_1; [apply clamp_unit|lra]).
  destruct F0 as [x y z]. simpl in *.
  unfold fresnelSchlickRoughness, vle, vadd, vsub, vmuls, vmax, vmap, vmap2, vec3s.
  simpl.
  set (p := pow (clamp (1 - cosTheta) 0 1) 5) in *. clearbody p.
  pose proof (fresnelRoughness_component x roughness p
                ltac:(lra) Hr ltac:(lra)) as Cx.
  pose proof (fresnelRoughness_component y roughness p
                ltac:(lra) Hr ltac:(lra)) as Cy.
  pose proof (fresnelRoughness_component z roughness p
                ltac:(lra) Hr ltac:(lra)) as Cz.
  repeat split; lra.
Qed.

Lemma GeometrySchlickGGX_nonneg (NdotV roughness : R) :
  0 <= NdotV -> 0 <= roughness <= 1 -> 0 <= GeometrySchlickGGX NdotV roughness.
Proof.
  intros Hn Hr. unfold GeometrySchlickGGX.
  pose proof (GeometrySchlickGGX_denom_pos NdotV roughness Hn Hr) as Hd.
  apply Rmult_le_pos; [exact Hn|]. left. apply Rinv_0_lt_compat, Hd.
Qed.

Lemma brdfTerms_nonneg (n V L albedo : vec3) (metallic roughness : R) (F0 : vec3) :
  0 < roughness <= 1 -> 0 <= metallic <= 1 ->
  vle (vec3s 0) albedo -> vle (vec3s 0) F0 -> vle F0 (vec3s 1) ->
  vle (vec3s 0) (fst (brdfTerms (normalize n) V L albedo metallic roughness F0))
  /\ vle (vec3s 0) (snd (brdfTerms (normalize n) V L albedo metallic roughness F0)).
Proof.
  intros Hr Hm Ha HF0 HF1. unfold brdfTerms. simpl.
  set (H := normalize (vadd V L)).
  destruct (fresnelSchlick_range (max (dot H V) 0) F0 HF0 HF1)
    as (HFlo & HFhi & _ & _).
  set (F := fresnelSchlick (max (dot H V) 0) F0) in *. clearbody F.
  assert (HF : vle (vec3s 0) F).
  { destruct HF0 as (? & ? & ?), HFlo as (? & ? & ?). unfold vle in *. simpl in *.
    lra. }
  split.
  - apply nonneg_vdivs; [|apply macro_PI_pos].
    apply nonneg_vmul; [|exact Ha].
    apply nonneg_vmuls; [|lra].
    destruct HFhi as (? & ? & ?). unfold vle, vsub, vmap2 in *. simpl in *. lra.
  - apply nonneg_vdivs.
    + apply nonneg_smulv; [|exact HF].
      apply Rmult_le_pos.
      * left. unfold DistributionGGX. apply Rdiv_lt_0_compat.
        -- unfold DistributionGGX_a2.
           assert (0 < roughness * roughness) by nra. nra.
        -- apply DistributionGGX_denom_pos; [apply dot_normalize_le_1|lra].
      * unfold GeometrySmith. apply Rmult_le_pos;
          apply GeometrySchlickGGX_nonneg; first [apply max_nonneg_r | lra].
    + pose proof (max_nonneg_r (dot (normalize n) V)).
      pose proof (max_nonneg_r (dot (normalize n) L)). nra.
Qed.

Lemma nth_nonneg (colors : list vec3) (i : nat) :
  Forall (vle (vec3s 0)) colors -> vle (vec3s 0) (nth i colors (vec3s 0)).
Proof.
  intros Hall. revert i. induction Hall as [|c cs Hc _ IH]; intros [|i]; simpl;
    first [apply nonneg_zero | exact Hc | apply IH].
Qed.

Lemma lightContribution_nonneg (u : uniforms) (v : varyings) (i : Z) :
  in_contract u -> vle (vec3s 0) (lightContribution u v i).
Proof.
  intros (Ha0 & Ha1 & Hm & Hr & Hao & Hibl & Hamb & Hcol).
  unfold lightContribution, calculateLightContribution.
  destruct (lightVectorAndAttenuation _ _ _ _ _ _ _ _) as [L attenuation].
  destruct (Rlt_dec attenuation 0.001) as [|Hatt]; [apply nonneg_zero|].
  destruct (main_albedo_unit u Ha1) as [Hal0 Hal1].
  destruct (main_F0_range u Hm Ha1) as (HF0 & HF1 & _).
  pose proof (brdfTerms_nonneg (v_normal v) (main_V u v) L (main_albedo u)
                (main_metallic u) (main_roughness u) (main_F0 u)
                Hr Hm Hal0 HF0 HF1) as [Hd Hs].
  fold (main_N v) in Hd, Hs.
  destruct (brdfTerms (main_N v) (main_V u v) L (main_albedo u) (main_metallic u)
              (main_roughness u) (main_F0 u)) as [diffuse specular].
  simpl in Hd, Hs.
  apply nonneg_vmuls; [|apply max_nonneg_r].
  apply nonneg_vmul; [apply nonneg_vadd; assumption|].
  apply nonneg_vmuls; [|lra].
  unfold at_index. apply nth_nonneg, Hcol.
Qed.

Lemma accumulate_nonneg (u : uniforms) (v : varyings) (indices : list nat) :
  in_contract u ->
  forall Lo, vle (vec3s 0) Lo -> vle (vec3s 0) (accumulate u v indices Lo).
Proof.
  intros Hu. unfold accumulate.
  induction indices as [|i rest IH]; intros Lo HLo; simpl; [exact HLo|].
  apply IH. apply nonneg_vadd; [exact HLo|]. apply lightContribution_nonneg, Hu.
Qed.

Lemma main_ambient_nonneg (u : uniforms) (v : varyings) :
  in_contract u -> vle (vec3s 0) (main_ambient u v).
Proof.
  intros (Ha0 & Ha1 & Hm & Hr & Hao & Hibl & Hamb & Hcol).
  destruct (main_albedo_unit u Ha1) as [Hal0 Hal1].
  destruct (main_F0_range u Hm Ha1) as (HF0 & HF1 & _).
  unfold main_ambient. destruct (u_useIBL u).
  - unfold iblTerms.
    destruct (fresnelSchlickRoughness_between
                (max (dot (main_N v) (main_V u v)) 0) (main_F0 u) (main_roughness u)
                HF0 HF1 ltac:(unfold main_roughness; lra)) as [HFlo HFhi].
    set (F := fresnelSchlickRoughness _ _ _) in *. clearbody F.
    apply nonneg_vmuls; [|exact Hibl].
    apply nonneg_vmuls; [|unfold main_ao; lra].
    apply nonneg_vadd.
    + apply nonneg_vmul.
      * apply nonneg_vmuls; [|unfold main_metallic; lra].
        destruct HFhi as (? & ? & ?). unfold vle, ssubv, vmap in *. simpl in *. lra.
      * apply nonneg_vmul; [apply sampleIrradiance_nonneg|exact Hal0].
    + apply nonneg_vmul; [|exact HFlo].
      unfold sampleRadiance. apply nonneg_vmuls.
      * apply sampleSky_nonneg. apply reflect_y_bound.
      * unfold main_roughness. lra.
  - apply nonneg_vmuls; [|unfold main_ao; lra].
    apply nonneg_vmul; assumption.
Qed.

Lemma tonemap_unit (c : R) : 0 <= c -> 0 <= pow (c / (c + 1)) (1 / 2.2) <= 1.
Proof.
  intros Hc. split; [apply pow_nonneg|]. apply pow_le_1; [|lra].
  apply Rmult_le_reg_r with (c + 1); [lra|].
  replace (c / (c + 1) * (c + 1)) with c by (field; lra). lra.
Qed.

(** For uniforms within the ranges of the data model and a roughness of
    0.05 (the smallest the presets give to a rough surface) or more, at a
    pixel where every vector the shader normalises is not the zero vector
    and every light is defined, every component of the colour [main] writes
    lies in [[0, 1]] and its alpha is 1, for every number of lights.  This
    is stated in exact arithmetic; the bound on the roughness keeps the
    divisor of [DistributionGGX] away from the values at which binary32
    cancels it to 0 (a roughness below about 0.013). *)
Theorem fragColor_in_range (u : uniforms) (v : varyings) :
  in_contract u -> 0.05 <= u_roughness u -> regular u v ->
  0 <= v4x (main u v) <= 1
  /\ 0 <= v4y (main u v) <= 1
  /\ 0 <= v4z (main u v) <= 1
  /\ v4w (main u v) = 1.
Proof.
  intros Hu _ _.
  assert (Hc : vle (vec3s 0) (vadd (main_ambient u v) (main_Lo u v))).
  { apply nonneg_vadd; [apply main_ambient_nonneg, Hu|].
    rewrite main_Lo_accumulate. apply accumulate_nonneg; [exact Hu|apply nonneg_zero]. }
  unfold main. set (color := vadd (main_ambient u v) (main_Lo u v)) in *.
  clearbody color. destruct Hc as (Hx & Hy & Hz). simpl in *.
  unfold vec4of, vpow, vdiv, vadd, vmap2, vec3s. simpl.
  repeat split; try apply tonemap_unit; assumption.
Qed.

Lemma fragColor_in_range_witness :
  in_contract gold_uniforms
  /\ 0.05 <= u_roughness gold_uniforms
  /\ regular gold_uniforms facing_pixel
  /\ 0 <= v4x (main gold_uniforms facing_pixel) <= 1
  /\ v4w (main gold_uniforms facing_pixel) = 1.
Proof.
  assert (Hu : in_contract gold_uniforms).
  { unfold in_contract, vle. simpl.
    repeat split; try lra.
    repeat constructor; simpl; lra. }
  assert (Hv : regular gold_uniforms facing_pixel).
  { split; [vec_neq|]. split; [vec_neq|].
    intros i Hi. unfold MAX_LIGHTS in Hi. simpl in Hi.
    assert (i = 0%Z) by lia. subst i. split.
    - left. split; [reflexivity|]. unfold at_index. simpl. vec_neq.
    - unfold main_V, lightVector, at_index. simpl.
      unfold vsub, vneg, vmap2, vmap. simpl.
      replace (0 - 0) with 0 by ring. replace (1 - 0) with 1 by ring.
      replace (- 0) with 0 by ring. replace (- -1) with 1 by ring.
      rewrite (normalize_z 1) by lra. vec_neq. }
  assert (Hr : 0.05 <= u_roughness gold_uniforms) by (simpl; lra).
  destruct (fragColor_in_range gold_uniforms facing_pixel Hu Hr Hv)
    as (Hx & _ & _ & Hw).
  split; [exact Hu|]. split; [exact Hr|]. split; [exact Hv|].
  split; [exact Hx|exact Hw].
Defined.

(** With no active light and IBL switched off, the colour is the flat
    ambient term [u_ambientColor * albedo * ao], tone-mapped and
    gamma-encoded. *)
Theorem unlit_flat_ambient (u : uniforms) (v : varyings) :
  (u_numLights u <= 0)%Z -> u_useIBL u = false ->
  main_Lo u v = vec3s 0
  /\ main u v
     = (let c := vmuls (vmul (u_ambientColor u) (main_albedo u)) (main_ao u) in
        vec4of (vpow (vdiv c (vadd c (vec3s 1))) (vec3s (1 / 2.2))) 1).
Proof.
  intros Hn Hibl.
  assert (HLo : main_Lo u v = vec3s 0).
  { rewrite main_Lo_accumulate.
    replace (Z.to_nat (Z.min (u_numLights u) MAX_LIGHTS)) with 0%nat
      by (unfold MAX_LIGHTS; lia).
    reflexivity. }
  split; [exact HLo|].
  unfold main, main_ambient. rewrite HLo, Hibl.
  set (c := vmuls (vmul (u_ambientColor u) (main_albedo u)) (main_ao u)).
  replace (vadd c (vec3s 0)) with c; [reflexivity|].
  destruct c as [x y z]. unfold vadd, vmap2, vec3s. simpl. f_equal; ring.
Qed.

Lemma unlit_flat_ambient_witness :
  (u_numLights unlit_uniforms <= 0)%Z /\ u_useIBL unlit_uniforms = false
  /\ main_Lo unlit_uniforms facing_pixel = vec3s 0.
Proof.
  assert (Hn : (u_numLights unlit_uniforms <= 0)%Z) by (simpl; lia).
  assert (Hibl : u_useIBL unlit_uniforms = false) by reflexivity.
  destruct (unlit_flat_ambient unlit_uniforms facing_pixel Hn Hibl) as [HLo _].
  split; [exact Hn|]. split; [exact Hibl|exact HLo].
Defined.

End ShaderFacts.

(* ===================================================================== *)
(** * The distribution term in binary32 *)
(* ===================================================================== *)

Module Shader32Facts.
Import Shader32.

(** The constants as binary32 numbers. *)
Lemma PI_bits : PI = SpecFloat.S754_finite false 13176795 (-22).
Proof. vm_compute. reflexivity. Qed.

Lemma slider_bits :
  slider 0 = SpecFloat.S754_zero false
  /\ slider 1 = SpecFloat.S754_finite false 10737418 (-30)
  /\ slider 5 = SpecFloat.S754_finite false 13421773 (-28)
  /\ slider 100 = of_int 1.
Proof. vm_compute. repeat split. Qed.

Lemma dot_unit_z : dot unit_z unit_z = of_int 1.
Proof. vm_compute. reflexivity. Qed.

(** [DistributionGGX] reads [N] and [H] through [dot(N, H)] only. *)
Lemma DistributionGGX_dot (N H N' H' : vec3) (roughness : float) :
  dot N H = dot N' H' ->
  DistributionGGX_denom N H roughness = DistributionGGX_denom N' H' roughness
  /\ DistributionGGX N H roughness = DistributionGGX N' H' roughness.
Proof.
  intros Hd. unfold DistributionGGX, DistributionGGX_denom. rewrite Hd.
  split; reflexivity.
Qed.

(** The 101 positions of the slider, one by one. *)
Lemma slider_checked : forallb slider_check (seq 0 101) = true.
Proof. vm_compute. reflexivity. Qed.

Lemma slider_positions (k : nat) :
  (k <= 100)%nat ->
  (is_zero (DistributionGGX_denom unit_z unit_z (slider k)) = true <-> (k <= 1)%nat)
  /\ ((2 <= k)%nat ->
      positive_finite (DistributionGGX unit_z unit_z (slider k)) = true).
Proof.
  intros Hk.
  pose proof slider_checked as Hall. rewrite forallb_forall in Hall.
  assert (Hin : In k (seq 0 101)) by (apply in_seq; lia).
  specialize (Hall k Hin). unfold slider_check in Hall. cbv zeta in Hall.
  apply andb_true_iff in Hall. destruct Hall as [Hzero Hpos].
  apply bool_decide_eq_true in Hzero. split.
  - rewrite Hzero. apply Nat.leb_le.
  - intros H2. apply orb_true_iff in Hpos. destruct Hpos as [Hlt|Hpos]; [|exact Hpos].
    apply Nat.ltb_lt in Hlt. lia.
Qed.

(** In binary32, at a pixel where [dot(N, H)] is 1, and for the roughness
    at position [k] of the editor's slider (the number nearest to
    [k / 100]): the divisor of [DistributionGGX] is 0 at the positions 0 and
    1, that is for the roughness 0 and for the roughness 0.01, and at no
    other; from position 2 on, [DistributionGGX] is a finite number greater
    than 0. *)
Theorem DistributionGGX_on_slider (N H : vec3) (k : nat) :
  dot N H = of_int 1 -> (k <= 100)%nat ->
  (is_zero (DistributionGGX_denom N H (slider k)) = true <-> (k <= 1)%nat)
  /\ ((2 <= k)%nat -> positive_finite (DistributionGGX N H (slider k)) = true).
Proof.
  intros Hd Hk.
  destruct (DistributionGGX_dot N H unit_z unit_z (slider k)) as [-> ->].
  - rewrite Hd, dot_unit_z. reflexivity.
  - apply slider_positions, Hk.
Qed.

Lemma DistributionGGX_on_slider_witness :
  dot unit_z unit_z = of_int 1 /\ (1 <= 100)%nat
  /\ is_zero (DistributionGGX_denom unit_z unit_z (slider 1)) = true.
Proof.
  assert (Hd : dot unit_z unit_z = of_int 1) by (vm_compute; reflexivity).
  assert (Hk : (1 <= 100)%nat) by lia.
  destruct (DistributionGGX_on_slider unit_z unit_z 1 Hd Hk) as [Hzero _].
  split; [exact Hd|]. split; [exact Hk|]. apply Hzero. lia.
Defined.

(** What the division gives where the divisor is 0: not a number at the
    roughness 0, where the dividend is 0 too, and infinity at the roughness
    0.01. *)
Lemma DistributionGGX_unguarded :
  DistributionGGX unit_z unit_z (slider 0) = SpecFloat.S754_nan
  /\ DistributionGGX unit_z unit_z (slider 1) = SpecFloat.S754_infinity false.
Proof. vm_compute. split; reflexivity. Qed.

(** The same divisor in exact arithmetic, at the roughness 1/100 and with
    [dot(N, H) = 1]: [PI * 10^-16], which is not 0. *)
Lemma DistributionGGX_denom_exact :
  Shader.DistributionGGX_denom (Glsl.Vec3 0 0 1) (Glsl.Vec3 0 0 1) (1 / 100)%R
  = (Shader.PI * (1 / 100) ^ 8)%R
  /\ (0 < Shader.DistributionGGX_denom (Glsl.Vec3 0 0 1) (Glsl.Vec3 0 0 1) (1 / 100))%R.
Proof.
  assert (He : Shader.DistributionGGX_denom (Glsl.Vec3 0 0 1) (Glsl.Vec3 0 0 1)
                 (1 / 100)%R
               = (Shader.PI * (1 / 100) ^ 8)%R).
  { unfold Shader.DistributionGGX_denom, Shader.DistributionGGX_a2, Glsl.dot,
      Glsl.max. simpl.
    destruct (Rlt_dec (0 * 0 + 0 * 0 + 1 * 1) 0) as [Hlt|_]; [lra|].
    unfold Shader.PI. field. }
  split; [exact He|]. rewrite He. unfold Shader.PI. lra.
Qed.

End Shader32Facts.

(* ===================================================================== *)
(** * Properties of the scene objects *)
(* ===================================================================== *)

Module SceneFacts.
Import Glsl.
Local Open Scope R_scope.

Lemma truthy_zero : Js.truthy (Js.VNum 0) = false.
Proof. simpl. destruct (Req_dec_T 0 0) as [_|Hne]; [reflexivity|]. exfalso. apply Hne. reflexivity. Qed.

Lemma or_value_zero (d : Js.value) : Scene.or_value (Js.VNum 0) d = d.
Proof. unfold Scene.or_value. rewrite truthy_zero. reflexivity. Qed.

(** [a || d] is never the number 0 when [d] is not. *)
Lemma or_value_not_zero (a d : Js.value) :
  d <> Js.VNum 0 -> Scene.or_value a d <> Js.VNum 0.
Proof.
  intros Hd. unfold Scene.or_value.
  destruct (Js.truthy a) eqn:Ht; [|exact Hd].
  intros ->. rewrite truthy_zero in Ht. discriminate.
Qed.

(** An assignment to a property of one material object is not seen through
    any other location. *)
Lemma assign_field_leaves_others (h : Js.heap) (l l' : Js.loc) (f : Js.field)
    (v : Js.value) :
  l <> l' -> Js.view (Js.assign_field h l f v) l' = Js.view h l'.
Proof.
  intros Hne. unfold Js.assign_field.
  destruct (h !! l) as [[xs|m]|] eqn:Hl; try reflexivity.
  unfold Js.view. rewrite list_lookup_insert_ne by exact Hne.
  destruct (h !! l') as [[xs'|m']|] eqn:Hl'; try reflexivity.
  f_equal. f_equal. unfold Js.deref_array.
  destruct (Js.albedo m') as [| | | |a]; try reflexivity.
  destruct (decide (l = a)) as [<-|Hla].
  - rewrite list_lookup_insert_eq by (eapply lookup_lt_Some; exact Hl).
    rewrite Hl. reflexivity.
  - rewrite list_lookup_insert_ne by exact Hla. reflexivity.
Qed.

(** [updateMaterial] gives the object an albedo array of its own: the
    location it stores was not in the heap before. *)
Lemma copyMaterial_fresh_albedo (h h' : Js.heap) (src own : Js.material) (l : Js.loc) :
  h !! l = Some (Js.CMaterial own) ->
  Editor.copyMaterial h src l = Some h' ->
  exists own', h' !! l = Some (Js.CMaterial own')
               /\ Js.albedo own' = Js.VRef (List.length h)
               /\ Js.deref_array h' (Js.albedo own') = Js.deref_array h (Js.albedo src).
Proof.
  intros Hl. unfold Editor.copyMaterial.
  destruct (Js.deref_array h (Js.albedo src)) as [xs|] eqn:Hsrc; [|discriminate].
  simpl. intros Hh'. injection Hh' as <-.
  assert (Hlt : (l < List.length h)%nat) by (eapply lookup_lt_Some; exact Hl).
  assert (Hl1 : (h ++ [Js.CArray xs]) !! l = Some (Js.CMaterial own))
    by (apply lookup_app_l_Some, Hl).
  assert (Hlen : forall (g : Js.heap) c, (l < List.length g)%nat ->
                   (l < List.length (<[l := c]> g))%nat)
    by (intros g c Hg; rewrite length_insert; exact Hg).
  unfold Js.assign_field. rewrite Hl1.
  rewrite list_lookup_insert_eq by (rewrite length_app; simpl; lia).
  rewrite list_lookup_insert_eq
    by (rewrite length_insert, length_app; simpl; lia).
  rewrite list_lookup_insert_eq
    by (rewrite !length_insert, length_app; simpl; lia).
  eexists. split.
  - apply list_lookup_insert_eq. rewrite !length_insert, length_app. simpl. lia.
  - simpl. split; [reflexivity|].
    rewrite !list_lookup_insert_ne by lia.
    rewrite list_lookup_middle by reflexivity. reflexivity.
Qed.

Section WithGlMatrix.
Context {G : GlMatrix.Ops}.

(** What the constructor leaves in the heap: at most a default albedo
    array, then the object's own material record. *)
Lemma new_SceneObject_material (h : Js.heap) (mesh0 : option Scene.Mesh)
    (material0 : Js.loc) (t : Scene.transform) (m : Js.material) :
  Js.get_material h material0 = Some m ->
  exists h1 o,
    Scene.new_SceneObject h mesh0 material0 t
    = Some (h1 ++ [Js.CMaterial
                     (Js.Material
                        (if Js.truthy (Js.albedo m) then Js.albedo m
                         else Js.VRef (List.length h))
                        (Scene.or_value (Js.metallic m) (Js.VNum 0))
                        (Scene.or_value (Js.roughness m) (Js.VNum 0.5))
                        (Scene.or_value (Js.ao m) (Js.VNum 1)))], o)
    /\ Scene.material o = List.length h1
    /\ h1 = (if Js.truthy (Js.albedo m) then h else h ++ [Js.CArray [0.7; 0.7; 0.7]]).
Proof.
  intros Hm. unfold Scene.new_SceneObject. rewrite Hm.
  unfold Scene.or_array.
  destruct (Js.truthy (Js.albedo m)); simpl; eexists _, _;
    (split; [reflexivity|]); split; reflexivity.
Qed.

(** C10.  For every material record passed to the constructor, the stored
    roughness is 0.5 when the given one is 0 and the stored ao is 1 when the
    given one is 0; whatever is passed, the stored roughness and ao are
    never 0; a metallic of 0 is stored as 0. *)
Theorem constructor_defaults_falsy (h : Js.heap) (mesh0 : option Scene.Mesh)
    (material0 : Js.loc) (t : Scene.transform) (m : Js.material) :
  h !! material0 = Some (Js.CMaterial m) ->
  exists h' o own,
    Scene.new_SceneObject h mesh0 material0 t = Some (h', o)
    /\ h' !! Scene.material o = Some (Js.CMaterial own)
    /\ (Js.roughness m = Js.VNum 0 -> Js.roughness own = Js.VNum 0.5)
    /\ (Js.ao m = Js.VNum 0 -> Js.ao own = Js.VNum 1)
    /\ Js.roughness own <> Js.VNum 0
    /\ Js.ao own <> Js.VNum 0
    /\ (Js.metallic m = Js.VNum 0 -> Js.metallic own = Js.VNum 0).
Proof.
  intros Hm.
  assert (Hg : Js.get_material h material0 = Some m)
    by (unfold Js.get_material; rewrite Hm; reflexivity).
  destruct (new_SceneObject_material h mesh0 material0 t m Hg)
    as (h1 & o & Hnew & Hloc & _).
  eexists _, o, _. split; [exact Hnew|].
  split; [rewrite Hloc; apply list_lookup_middle; reflexivity|].
  simpl. repeat split.
  - intros ->. apply or_value_zero.
  - intros ->. apply or_value_zero.
  - apply or_value_not_zero. intros Heq. injection Heq. lra.
  - apply or_value_not_zero. intros Heq. injection Heq. lra.
  - intros ->. apply or_value_zero.
Qed.

(** The sample scene is what [init] constructs. *)
Lemma init_builds_scene :
  Scene.new_SceneObject (G := GlMatrix.exact) Samples.renderer_heap
    (Some Samples.cube) Samples.renderer_material Samples.init_transform
  = Some (Samples.scene_heap, Samples.scene_object).
Proof.
  unfold Scene.new_SceneObject, Scene.or_array, Scene.or_value, Scene.component_or.
  simpl.
  repeat match goal with
         | |- context [Req_dec_T ?a ?b] => destruct (Req_dec_T a b)
         end; reflexivity.
Qed.

(** C2 fails on the code: two objects built from the renderer's material
    record, as [init] and [changeObjectShape] build them, have distinct
    material records but one albedo array, the array of the source record.
    Writing a component of the first object's albedo changes the albedo of
    the second object and of the source record. *)
Theorem constructor_shares_albedo_array :
  exists h1 o1 h2 o2,
    Scene.new_SceneObject Samples.renderer_heap None Samples.renderer_material
      Scene.empty_transform = Some (h1, o1)
    /\ Scene.new_SceneObject h1 None Samples.renderer_material
         Scene.empty_transform = Some (h2, o2)
    /\ Scene.material o1 <> Scene.material o2
    /\ Js.view_albedo <$> Js.view h2 (Scene.material o2)
       = Some (Some [0.7; 0.3; 0.3])
    /\ Js.view_albedo <$> Js.view h2 Samples.renderer_material
       = Some (Some [0.7; 0.3; 0.3])
    /\ Js.view_albedo
         <$> Js.view (Js.assign_albedo_component h2 (Scene.material o1) 0 1)
               (Scene.material o2)
       = Some (Some [1; 0.3; 0.3])
    /\ Js.view_albedo
         <$> Js.view (Js.assign_albedo_component h2 (Scene.material o1) 0 1)
               Samples.renderer_material
       = Some (Some [1; 0.3; 0.3]).
Proof.
  destruct (new_SceneObject_material Samples.renderer_heap None
              Samples.renderer_material Scene.empty_transform _ eq_refl)
    as (h1 & o1 & Hnew1 & Hloc1 & Hh1).
  simpl in Hh1. subst h1.
  match type of Hnew1 with _ = Some (?h, _) => set (h1 := h) in * end.
  destruct (new_SceneObject_material h1 None
              Samples.renderer_material Scene.empty_transform _ eq_refl)
    as (h1' & o2 & Hnew2 & Hloc2 & Hh2).
  simpl in Hh2. subst h1'.
  eexists h1, o1, _, o2.
  split; [exact Hnew1|]. split; [exact Hnew2|].
  rewrite Hloc1, Hloc2. subst h1. simpl.
  split; [lia|]. repeat split.
Qed.

End WithGlMatrix.

Lemma constructor_defaults_falsy_witness :
  Samples.zero_heap !! 1%nat
  = Some (Js.CMaterial (Js.Material (Js.VRef 0%nat) (Js.VNum 0) (Js.VNum 0) (Js.VNum 0)))
  /\ exists h' o own,
       Scene.new_SceneObject (G := GlMatrix.exact) Samples.zero_heap None 1%nat
         Scene.empty_transform = Some (h', o)
       /\ h' !! Scene.material o = Some (Js.CMaterial own)
       /\ Js.roughness own = Js.VNum 0.5
       /\ Js.ao own = Js.VNum 1
       /\ Js.metallic own = Js.VNum 0.
Proof.
  split; [reflexivity|].
  destruct (constructor_defaults_falsy (G := GlMatrix.exact) Samples.zero_heap None
              1%nat Scene.empty_transform
              (Js.Material (Js.VRef 0%nat) (Js.VNum 0) (Js.VNum 0) (Js.VNum 0))
              eq_refl)
    as (h' & o & own & Hnew & Hown & Hr & Ha & _ & _ & Hm).
  exists h', o, own. split; [exact Hnew|]. split; [exact Hown|].
  split; [apply Hr; reflexivity|]. split; [apply Ha; reflexivity|].
  apply Hm; reflexivity.
Defined.

(** ** Transforms *)

Section Transforms.
Context {G : GlMatrix.Ops}.

(** The constructor stores the position and rotation it is given (0 where
    absent) and the scale it is given with every 0 replaced by 1, so no
    component of a constructed scale is 0; the model matrix is the one of
    that position, rotation and scale. *)
Theorem constructor_transform (h : Js.heap) (mesh0 : option Scene.Mesh)
    (material0 : Js.loc) (t : Scene.transform) (m : Js.material) :
  h !! material0 = Some (Js.CMaterial m) ->
  exists h' o,
    Scene.new_SceneObject h mesh0 material0 t = Some (h', o)
    /\ Scene.position o = Scene.defaulted (Scene.t_position t) 0
    /\ Scene.rotation o = Scene.defaulted (Scene.t_rotation t) 0
    /\ Scene.scale o = Scene.defaulted (Scene.t_scale t) 1
    /\ vx (Scene.scale o) <> 0 /\ vy (Scene.scale o) <> 0 /\ vz (Scene.scale o) <> 0
    /\ Scene.modelMatrix o
       = Scene.compose (Scene.position o) (Scene.rotation o) (Scene.scale o)
    /\ Scene.mesh o = mesh0.
Proof.
  intros Hm. unfold Scene.new_SceneObject, Js.get_material. rewrite Hm.
  destruct (Scene.or_array h (Js.albedo m) [0.7; 0.7; 0.7]) as [h1 albedo1].
  simpl. eexists _, _. split; [reflexivity|]. simpl.
  assert (Hnz : forall x : R, (if Req_dec_T x 0 then 1 else x) <> 0).
  { intros x. destruct (Req_dec_T x 0); lra. }
  split; [destruct (Scene.t_position t); reflexivity|].
  split; [destruct (Scene.t_rotation t); reflexivity|].
  split; [destruct (Scene.t_scale t); reflexivity|].
  split; [unfold Scene.component_or; destruct (Scene.t_scale t); [apply Hnz|lra]|].
  split; [unfold Scene.component_or; destruct (Scene.t_scale t); [apply Hnz|lra]|].
  split; [unfold Scene.component_or; destruct (Scene.t_scale t); [apply Hnz|lra]|].
  split; [|reflexivity].
  destruct (Scene.t_position t), (Scene.t_rotation t), (Scene.t_scale t);
    reflexivity.
Qed.

Lemma update_update (o : Scene.SceneObject) (d1 d2 : R) :
  Scene.update d2 (Scene.update d1 o) = Scene.update (d1 + d2) o.
Proof.
  unfold Scene.update, Scene.updateMatrix. simpl.
  replace (vx (Scene.rotation o) + vx (Scene.rotationSpeed o) * d1
           + vx (Scene.rotationSpeed o) * d2)
    with (vx (Scene.rotation o) + vx (Scene.rotationSpeed o) * (d1 + d2)) by ring.
  replace (vy (Scene.rotation o) + vy (Scene.rotationSpeed o) * d1
           + vy (Scene.rotationSpeed o) * d2)
    with (vy (Scene.rotation o) + vy (Scene.rotationSpeed o) * (d1 + d2)) by ring.
  replace (vz (Scene.rotation o) + vz (Scene.rotationSpeed o) * d1
           + vz (Scene.rotationSpeed o) * d2)
    with (vz (Scene.rotation o) + vz (Scene.rotationSpeed o) * (d1 + d2)) by ring.
  reflexivity.
Qed.

(** Two updates in a row are one update by the sum of the time steps, and
    an update changes the rotation and the model matrix only. *)
Theorem update_composes (o : Scene.SceneObject) (d1 d2 : R) :
  Scene.update d2 (Scene.update d1 o) = Scene.update (d1 + d2) o
  /\ Scene.position (Scene.update d1 o) = Scene.position o
  /\ Scene.scale (Scene.update d1 o) = Scene.scale o
  /\ Scene.material (Scene.update d1 o) = Scene.material o
  /\ Scene.mesh (Scene.update d1 o) = Scene.mesh o
  /\ Scene.rotationSpeed (Scene.update d1 o) = Scene.rotationSpeed o
  /\ Scene.modelMatrix (Scene.update d1 o)
     = Scene.compose (Scene.position o) (Scene.rotation (Scene.update d1 o))
         (Scene.scale o).
Proof.
  split; [apply update_update|repeat split].
Qed.

(** ** The scene manager *)

(** [addObject] returns the index at which the object then is, and leaves
    every earlier object at its index. *)
Theorem addObject_index (s : Scene.SceneManager) (o : Scene.SceneObject) :
  Scene.objects (Scene.addObject s o).1 !! (Scene.addObject s o).2 = Some o
  /\ (Scene.addObject s o).2 = List.length (Scene.objects s)
  /\ (forall i x, Scene.objects s !! i = Some x ->
        Scene.objects (Scene.addObject s o).1 !! i = Some x).
Proof.
  unfold Scene.addObject. simpl. rewrite length_app. simpl.
  replace (List.length (Scene.objects s) + 1 - 1)%nat
    with (List.length (Scene.objects s)) by lia.
  split; [apply list_lookup_middle; reflexivity|]. split; [reflexivity|].
  intros i x Hi. apply lookup_app_l_Some, Hi.
Qed.

Lemma active_valid_lookup (s : Scene.SceneManager) :
  Scene.active_valid s ->
  (Scene.getActiveObject s = None <-> Scene.objects s = []).
Proof.
  unfold Scene.active_valid, Scene.getActiveObject. intros Hv. split.
  - intros Hnone. apply lookup_ge_None in Hnone.
    destruct (Scene.objects s); [reflexivity|simpl in *; lia].
  - intros ->. reflexivity.
Qed.

Lemma perform_valid (s : Scene.SceneManager) (c : Scene.call) :
  Scene.active_valid s -> Scene.active_valid (Scene.perform s c).
Proof.
  unfold Scene.active_valid. intros Hv. destruct c as [o|index|index|dt]; simpl.
  - rewrite length_app. simpl. lia.
  - unfold Scene.removeObject.
    destruct (0 <=? index)%Z eqn:H0; simpl; [|exact Hv].
    destruct (index <? Z.of_nat (List.length (Scene.objects s)))%Z eqn:H1; simpl;
      [|exact Hv].
    destruct (List.length (delete (Z.to_nat index) (Scene.objects s))
              <=? Scene.activeObjectIndex s)%nat eqn:Hle.
    + lia.
    + apply Nat.leb_gt in Hle. lia.
  - unfold Scene.setActiveObject.
    destruct (0 <=? index)%Z eqn:H0; simpl; [|exact Hv].
    destruct (index <? Z.of_nat (List.length (Scene.objects s)))%Z eqn:H1; simpl;
      [|exact Hv].
    apply Z.ltb_lt in H1. apply Z.leb_le in H0. lia.
  - rewrite length_map. exact Hv.
Qed.

(** Whatever calls are made on a new scene manager, in whatever order and
    with whatever indices, the active object is [null] only when the scene
    is empty. *)
Theorem active_object_exists (calls : list Scene.call) :
  let s := fold_left Scene.perform calls Scene.new_SceneManager in
  Scene.getActiveObject s = None <-> Scene.objects s = [].
Proof.
  apply active_valid_lookup.
  assert (Hgen : forall s0, Scene.active_valid s0 ->
                   Scene.active_valid (fold_left Scene.perform calls s0)).
  { induction calls as [|c rest IH]; intros s0 Hs0; simpl; [exact Hs0|].
    apply IH, perform_valid, Hs0. }
  apply Hgen. unfold Scene.active_valid. simpl. lia.
Qed.

(** [removeObject] with an index outside the list changes nothing; with an
    index inside it removes that one object and keeps the others in order. *)
Theorem removeObject_bounds (s : Scene.SceneManager) (index : Z) :
  ((index < 0)%Z \/ (Z.of_nat (List.length (Scene.objects s)) <= index)%Z ->
   Scene.removeObject s index = s)
  /\ ((0 <= index < Z.of_nat (List.length (Scene.objects s)))%Z ->
      S (List.length (Scene.objects (Scene.removeObject s index)))
      = List.length (Scene.objects s)
      /\ (forall i, (i < Z.to_nat index)%nat ->
            Scene.objects (Scene.removeObject s index) !! i = Scene.objects s !! i)
      /\ (forall i, (Z.to_nat index <= i)%nat ->
            Scene.objects (Scene.removeObject s index) !! i
            = Scene.objects s !! S i)).
Proof.
  unfold Scene.removeObject. split.
  - intros [Hneg|Hbig].
    + apply Z.leb_gt in Hneg. rewrite Hneg. reflexivity.
    + apply Z.ltb_ge in Hbig. rewrite Hbig, andb_false_r. reflexivity.
  - intros [H0 H1].
    apply Z.leb_le in H0 as H0'. apply Z.ltb_lt in H1 as H1'.
    rewrite H0', H1'. simpl.
    split; [|split].
    + destruct (lookup_lt_is_Some_2 (Scene.objects s) (Z.to_nat index)
                  ltac:(lia)) as [x Hx].
      rewrite length_delete by (eexists; exact Hx).
      apply lookup_lt_Some in Hx. lia.
    + intros i Hi. apply list_lookup_delete_lt, Hi.
    + intros i Hi. apply list_lookup_delete_ge, Hi.
Qed.

(** Adding an object and removing it again at the index [addObject]
    returned gives back the scene manager as it was. *)
Theorem add_then_remove (s : Scene.SceneManager) (o : Scene.SceneObject) :
  Scene.active_valid s ->
  Scene.removeObject (Scene.addObject s o).1 (Z.of_nat (Scene.addObject s o).2) = s.
Proof.
  unfold Scene.active_valid. intros Hv.
  unfold Scene.addObject, Scene.removeObject. simpl.
  rewrite length_app. simpl.
  replace (List.length (Scene.objects s) + 1 - 1)%nat
    with (List.length (Scene.objects s)) by lia.
  rewrite Nat2Z.id.
  assert (H0 : (0 <=? Z.of_nat (List.length (Scene.objects s)))%Z = true)
    by (apply Z.leb_le; lia).
  assert (H1 : (Z.of_nat (List.length (Scene.objects s))
                <? Z.of_nat (List.length (Scene.objects s) + 1))%Z = true)
    by (apply Z.ltb_lt; lia).
  rewrite H0, H1. simpl.
  assert (Hdel : forall xs : list Scene.SceneObject,
                   delete (List.length xs) (xs ++ [o]) = xs).
  { induction xs as [|x xs IH]; simpl; [reflexivity|]. f_equal. exact IH. }
  rewrite Hdel.
  destruct (List.length (Scene.objects s) <=? Scene.activeObjectIndex s)%nat eqn:Hle.
  - apply Nat.leb_le in Hle.
    assert (Hlen : List.length (Scene.objects s) = 0%nat) by lia.
    assert (Hact : Scene.activeObjectIndex s = 0%nat) by lia.
    rewrite Hlen. simpl. rewrite <- Hact. destruct s; reflexivity.
  - destruct s; reflexivity.
Qed.

End Transforms.

Lemma constructor_transform_witness :
  Samples.renderer_heap !! Samples.renderer_material
  = Some (Js.CMaterial
            (Js.Material (Js.VRef 0%nat) (Js.VNum 0) (Js.VNum 0.5) (Js.VNum 1)))
  /\ exists h' o,
       Scene.new_SceneObject (G := GlMatrix.exact) Samples.renderer_heap None
         Samples.renderer_material
         (Scene.Transform None None (Some (Vec3 8 0 8)) None) = Some (h', o)
       /\ vy (Scene.scale o) <> 0
       /\ Scene.position o = Vec3 0 0 0.
Proof.
  split; [reflexivity|].
  destruct (constructor_transform (G := GlMatrix.exact) Samples.renderer_heap None
              Samples.renderer_material
              (Scene.Transform None None (Some (Vec3 8 0 8)) None) _ eq_refl)
    as (h' & o & Hnew & Hpos & _ & _ & _ & Hy & _).
  exists h', o. split; [exact Hnew|]. split; [exact Hy|exact Hpos].
Defined.

Lemma add_then_remove_witness :
  Scene.active_valid Scene.new_SceneManager
  /\ Scene.removeObject
       (Scene.addObject Scene.new_SceneManager Samples.scene_object).1
       (Z.of_nat (Scene.addObject Scene.new_SceneManager Samples.scene_object).2)
     = Scene.new_SceneManager.
Proof.
  assert (Hv : Scene.active_valid Scene.new_SceneManager)
    by (unfold Scene.active_valid; simpl; lia).
  split; [exact Hv|]. apply (add_then_remove _ _ Hv).
Defined.

Lemma removeObject_bounds_witness :
  ((-1 < 0)%Z \/ (Z.of_nat (List.length (Scene.objects Scene.new_SceneManager)) <= -1)%Z)
  /\ Scene.removeObject Scene.new_SceneManager (-1) = Scene.new_SceneManager.
Proof.
  assert (H : (-1 < 0)%Z
              \/ (Z.of_nat (List.length (Scene.objects Scene.new_SceneManager))
                  <= -1)%Z) by (left; lia).
  split; [exact H|].
  apply (proj1 (removeObject_bounds Scene.new_SceneManager (-1)) H).
Defined.

End SceneFacts.

(* ===================================================================== *)
(** * Properties of the camera *)
(* ===================================================================== *)

Module CamFacts.
Import Glsl.
Local Open Scope R_scope.

Lemma max_min_clamped (lo hi x : R) :
  lo <= hi -> Cam.Math_max lo (Cam.Math_min hi x) = Cam.clamped_to lo hi x.
Proof.
  intros Hle. unfold Cam.Math_max, Cam.Math_min, Cam.clamped_to, Rmax, Rmin.
  destruct (Rle_dec hi x), (Rlt_dec x lo), (Rlt_dec hi x);
    repeat match goal with |- context [Rle_dec ?a ?b] => destruct (Rle_dec a b) end;
    lra.
Qed.

Lemma max_min_below (lo hi x : R) :
  x < lo -> Cam.Math_max lo (Cam.Math_min hi x) = lo.
Proof.
  intros Hlt. unfold Cam.Math_max, Cam.Math_min, Rmax, Rmin.
  destruct (Rle_dec hi x);
    repeat match goal with |- context [Rle_dec ?a ?b] => destruct (Rle_dec a b) end;
    lra.
Qed.

Section WithGlMatrix.
Context {G : GlMatrix.Ops}.

(** [updateViewMatrix] leaves the position and the view matrix that the
    orbit state determines, and nothing else changes. *)
Lemma updateViewMatrix_fresh (c : Cam.Camera) :
  let c' := Cam.updateViewMatrix c in
  Cam.position c'
  = Cam.orbit_position (Cam.target c) (Cam.radius c) (Cam.azimuth c) (Cam.elevation c)
  /\ Cam.viewMatrix c' = GlMatrix.lookAt (Cam.position c') (Cam.target c) (Cam.up c)
  /\ Cam.radius c' = Cam.radius c
  /\ Cam.target c' = Cam.target c
  /\ Cam.up c' = Cam.up c
  /\ Cam.azimuth c' = Cam.azimuth c
  /\ Cam.elevation c' = Cam.elevation c.
Proof.
  simpl. split; [|repeat split].
  unfold Cam.orbit_position, vadd, smulv, vmap, vmap2. simpl.
  f_equal; ring.
Qed.

(** C8.  For a camera whose radius bounds are in order, [setRadius] stores
    the requested radius clamped to [[minRadius, maxRadius]] (so [minRadius]
    for a request below it), and returns with the position and the view
    matrix recomputed from the stored radius: the position is
    [target + radius * (cos(elevation)cos(azimuth), sin(elevation),
    cos(elevation)sin(azimuth))] and the view matrix is the look-at matrix
    of that position, the target and the up vector. *)
Theorem setRadius_clamps_and_refreshes (c : Cam.Camera) (requested : R) :
  Cam.minRadius c <= Cam.maxRadius c ->
  let c' := Cam.setRadius c requested in
  Cam.radius c' = Cam.clamped_to (Cam.minRadius c) (Cam.maxRadius c) requested
  /\ (requested < Cam.minRadius c -> Cam.radius c' = Cam.minRadius c)
  /\ Cam.position c'
     = Cam.orbit_position (Cam.target c) (Cam.radius c') (Cam.azimuth c)
         (Cam.elevation c)
  /\ Cam.viewMatrix c'
     = GlMatrix.lookAt
         (Cam.orbit_position (Cam.target c) (Cam.radius c') (Cam.azimuth c)
            (Cam.elevation c))
         (Cam.target c) (Cam.up c)
  /\ Cam.getViewMatrix c' = Cam.viewMatrix c'.
Proof.
  intros Hle c'. subst c'. unfold Cam.setRadius.
  assert (Hr : Cam.Math_max (Cam.minRadius c) (Cam.Math_min (Cam.maxRadius c) requested)
               = Cam.clamped_to (Cam.minRadius c) (Cam.maxRadius c) requested)
    by (apply max_min_clamped, Hle).
  assert (Hb : requested < Cam.minRadius c ->
               Cam.Math_max (Cam.minRadius c) (Cam.Math_min (Cam.maxRadius c) requested)
               = Cam.minRadius c)
    by (apply max_min_below).
  revert Hr Hb.
  generalize (Cam.Math_max (Cam.minRadius c) (Cam.Math_min (Cam.maxRadius c) requested)).
  intros r Hr Hb.
  destruct (updateViewMatrix_fresh (Cam.with_radius c r))
    as (Hpos & Hview & Hrad & _).
  change (Cam.radius (Cam.with_radius c r)) with r in *.
  change (Cam.target (Cam.with_radius c r)) with (Cam.target c) in *.
  change (Cam.up (Cam.with_radius c r)) with (Cam.up c) in *.
  change (Cam.azimuth (Cam.with_radius c r)) with (Cam.azimuth c) in *.
  change (Cam.elevation (Cam.with_radius c r)) with (Cam.elevation c) in *.
  rewrite Hrad.
  split; [exact Hr|]. split; [exact Hb|].
  split; [exact Hpos|]. split; [|reflexivity].
  rewrite Hview, Hpos. reflexivity.
Qed.

End WithGlMatrix.

Lemma setRadius_clamps_and_refreshes_witness :
  Cam.minRadius Samples.camera <= Cam.maxRadius Samples.camera
  /\ Cam.radius (Cam.setRadius (G := GlMatrix.exact) Samples.camera 0.5) = 1
  /\ Cam.position (Cam.setRadius (G := GlMatrix.exact) Samples.camera 0.5)
     = Cam.orbit_position (Vec3 0 0 0) 1 0 0
  /\ Cam.viewMatrix (Cam.setRadius (G := GlMatrix.exact) Samples.camera 0.5)
     = GlMatrix.exact_lookAt (Cam.orbit_position (Vec3 0 0 0) 1 0 0)
         (Vec3 0 0 0) (Vec3 0 1 0).
Proof.
  assert (Hle : Cam.minRadius Samples.camera <= Cam.maxRadius Samples.camera)
    by (simpl; lra).
  destruct (setRadius_clamps_and_refreshes (G := GlMatrix.exact)
              Samples.camera 0.5 Hle)
    as (_ & Hmin & Hpos & Hview & _).
  assert (Hone : Cam.radius (Cam.setRadius (G := GlMatrix.exact) Samples.camera 0.5)
                 = 1)
    by (apply Hmin; simpl; lra).
  rewrite Hone in Hpos, Hview.
  split; [exact Hle|]. split; [exact Hone|]. split; [exact Hpos|exact Hview].
Defined.

(** ** The event handlers *)

Lemma clamp_within (lo hi x : R) :
  lo <= hi -> lo <= Cam.Math_max lo (Cam.Math_min hi x) <= hi.
Proof.
  intros Hle. unfold Cam.Math_max, Cam.Math_min, Rmax, Rmin.
  destruct (Rle_dec hi x);
    repeat match goal with |- context [Rle_dec ?a ?b] => destruct (Rle_dec a b) end;
    lra.
Qed.

Lemma remainder_wraps (a b : R) :
  0 < b ->
  Rabs (Cam.remainder a b) < b
  /\ exists k : Z, Cam.remainder a b = a - IZR k * b.
Proof.
  intros Hb. unfold Cam.remainder, Cam.trunc.
  assert (Ha : a = a / b * b) by (field; lra).
  set (x := a / b) in *. clearbody x.
  split.
  - destruct (Rle_dec 0 x) as [Hx | Hx].
    + destruct (base_Int_part x) as [H1 H2].
      set (n := IZR (Int_part x)) in *. clearbody n.
      assert (H3 : a - b * n = b * (x - n)) by (rewrite Ha; ring).
      rewrite H3. rewrite Rabs_right.
      * assert (b * (x - n) < b * 1) by (apply Rmult_lt_compat_l; lra). lra.
      * apply Rle_ge, Rmult_le_pos; lra.
    + destruct (base_Int_part (- x)) as [H1 H2].
      rewrite opp_IZR.
      set (n := IZR (Int_part (- x))) in *. clearbody n.
      assert (H3 : a - b * - n = - (b * (- x - n))) by (rewrite Ha; ring).
      rewrite H3, Rabs_Ropp, Rabs_right.
      * assert (b * (- x - n) < b * 1) by (apply Rmult_lt_compat_l; lra). lra.
      * apply Rle_ge, Rmult_le_pos; lra.
  - eexists. rewrite Rmult_comm. reflexivity.
Qed.

Section Handlers.
Context {G : GlMatrix.Ops}.

Lemma steady_updateViewMatrix (c : Cam.Camera) :
  Cam.projectionMatrix c
  = GlMatrix.perspective (Cam.fov c) (Cam.aspect c) (Cam.near c) (Cam.far c) ->
  Cam.up c = Vec3 0 1 0 ->
  Cam.minRadius c = 1 -> Cam.maxRadius c = 20 ->
  Cam.minElevation c = - Rtrigo1.PI / 2 + 0.1 ->
  Cam.maxElevation c = Rtrigo1.PI / 2 - 0.1 ->
  Cam.minRadius c <= Cam.radius c <= Cam.maxRadius c ->
  Cam.minElevation c <= Cam.elevation c <= Cam.maxElevation c ->
  Cam.steady (Cam.updateViewMatrix c).
Proof.
  intros. unfold Cam.steady, Cam.updateViewMatrix. simpl.
  split; [reflexivity|]. split; [reflexivity|]. tauto.
Qed.

Lemma elevation_limits_ordered : - Rtrigo1.PI / 2 + 0.1 <= Rtrigo1.PI / 2 - 0.1.
Proof. pose proof PI2_1. lra. Qed.

Lemma steady_new_Camera (width height : R) :
  Cam.steady (Cam.new_Camera width height).
Proof.
  unfold Cam.new_Camera. apply steady_updateViewMatrix; simpl;
    try reflexivity; try lra.
  pose proof PI2_1. lra.
Qed.

Lemma steady_with_mouse (c : Cam.Camera) (down : bool) (x y : R) :
  Cam.steady c -> Cam.steady (Cam.with_mouse c down x y).
Proof. intros H. exact H. Qed.

Lemma steady_rotate (c : Cam.Camera) (az el : R) :
  Cam.steady c ->
  Cam.steady
    (Cam.updateViewMatrix
       (Cam.with_orbit c az
          (Cam.Math_max (Cam.minElevation c) (Cam.Math_min (Cam.maxElevation c) el)))).
Proof.
  intros (Hp & Hv & Hpr & Hup & Hm & HM & Hme & HMe & Hr & He).
  apply steady_updateViewMatrix; simpl; try assumption.
  apply clamp_within. rewrite Hme, HMe. apply elevation_limits_ordered.
Qed.

Lemma steady_zoom (c : Cam.Camera) (r : R) :
  Cam.steady c ->
  Cam.steady
    (Cam.updateViewMatrix
       (Cam.with_radius c
          (Cam.Math_max (Cam.minRadius c) (Cam.Math_min (Cam.maxRadius c) r)))).
Proof.
  intros (Hp & Hv & Hpr & Hup & Hm & HM & Hme & HMe & Hr & He).
  apply steady_updateViewMatrix; simpl; try assumption.
  apply clamp_within. lra.
Qed.

Lemma steady_handle (c : Cam.Camera) (e : Cam.event) :
  Cam.steady c -> Cam.steady (Cam.handle c e).
Proof.
  intros H. destruct e; simpl.
  - apply steady_with_mouse, H.
  - unfold Cam.onMouseMove. destruct (Cam.isMouseDown c); [|exact H].
    apply steady_with_mouse, steady_rotate, H.
  - apply steady_with_mouse, H.
  - apply steady_zoom, H.
  - unfold Cam.onTouchStart.
    destruct touches as [|[x y] [|? ?]]; exact H.
  - unfold Cam.onTouchMove.
    destruct touches as [|[x y] [|? ?]]; try exact H.
    destruct (Cam.isMouseDown c); [|exact H].
    apply steady_with_mouse, steady_rotate, H.
  - apply steady_with_mouse, H.
  - destruct H as (Hp & Hv & Hpr & Hup & Hm & HM & Hme & HMe & Hr & He).
    unfold Cam.onResize, Cam.updateProjectionMatrix, Cam.steady. simpl.
    split; [exact Hp|]. split; [exact Hv|]. split; [reflexivity|]. tauto.
  - destruct H as (Hp & Hv & Hpr & Hup & Hm & HM & Hme & HMe & Hr & He).
    apply steady_updateViewMatrix; simpl; assumption.
  - apply steady_zoom, H.
Qed.

Lemma steady_events (es : list Cam.event) (c : Cam.Camera) :
  Cam.steady c -> Cam.steady (fold_left Cam.handle es c).
Proof.
  revert c. induction es as [|e es IH]; intros c H; simpl; [exact H|].
  apply IH, steady_handle, H.
Qed.

(** However the user drags, scrolls, touches and resizes, and whatever
    [setTarget] and [setRadius] are called with, the camera built by the
    constructor has its position on the orbit of its current state, its
    view and projection matrices computed from its current fields, a radius
    in [[1, 20]] and an elevation within 0.1 rad of the poles; so the eye is
    at distance [radius >= 1] of the target and never on the vertical
    through it, where [lookAt] with the up vector [(0, 1, 0)] degenerates. *)
Theorem camera_stays_on_orbit (width height : R) (es : list Cam.event) :
  let c := fold_left Cam.handle es (Cam.new_Camera width height) in
  let eye := vsub (Cam.position c) (Cam.target c) in
  Cam.position c
  = Cam.orbit_position (Cam.target c) (Cam.radius c) (Cam.azimuth c)
      (Cam.elevation c)
  /\ Cam.viewMatrix c
     = GlMatrix.lookAt (Cam.position c) (Cam.target c) (Vec3 0 1 0)
  /\ Cam.projectionMatrix c
     = GlMatrix.perspective (Cam.fov c) (Cam.aspect c) (Cam.near c) (Cam.far c)
  /\ 1 <= Cam.radius c <= 20
  /\ - Rtrigo1.PI / 2 + 0.1 <= Cam.elevation c <= Rtrigo1.PI / 2 - 0.1
  /\ dot eye eye = Cam.radius c * Cam.radius c
  /\ 0 < vx eye * vx eye + vz eye * vz eye.
Proof.
  intros c eye.
  destruct (steady_events es _ (steady_new_Camera width height))
    as (Hp & Hv & Hpr & Hup & Hm & HM & Hme & HMe & Hr & He).
  fold c in Hp, Hv, Hpr, Hup, Hm, HM, Hme, HMe, Hr, He.
  rewrite Hm, HM in Hr. rewrite Hme, HMe in He. rewrite Hup in Hv.
  assert (Heye : eye = Vec3 (Cam.radius c * cos (Cam.elevation c) * cos (Cam.azimuth c))
                            (Cam.radius c * sin (Cam.elevation c))
                            (Cam.radius c * cos (Cam.elevation c) * sin (Cam.azimuth c))).
  { unfold eye. rewrite Hp. unfold vsub, vadd, vmap2. simpl. f_equal; ring. }
  pose proof (sin2_cos2 (Cam.elevation c)) as Hsc1.
  pose proof (sin2_cos2 (Cam.azimuth c)) as Hsc2.
  unfold Rsqr in Hsc1, Hsc2.
  assert (Hcos : 0 < cos (Cam.elevation c)).
  { apply cos_gt_0; lra. }
  split.
  { rewrite Hp. unfold Cam.orbit_position, vadd, smulv, vmap, vmap2. simpl.
    f_equal; ring. }
  split; [exact Hv|]. split; [exact Hpr|]. split; [exact Hr|].
  split; [exact He|].
  rewrite Heye. unfold dot. simpl.
  set (r := Cam.radius c) in *. set (ce := cos (Cam.elevation c)) in *.
  set (se := sin (Cam.elevation c)) in *. set (ca := cos (Cam.azimuth c)) in *.
  set (sa := sin (Cam.azimuth c)) in *.
  clearbody r ce se ca sa.
  split.
  - replace (r * ce * ca * (r * ce * ca) + r * se * (r * se)
             + r * ce * sa * (r * ce * sa))
      with (r * r * (ce * ce * (sa * sa + ca * ca) + se * se)) by ring.
    rewrite Hsc2. replace (ce * ce * 1 + se * se) with (se * se + ce * ce) by ring.
    rewrite Hsc1. ring.
  - replace (r * ce * ca * (r * ce * ca) + r * ce * sa * (r * ce * sa))
      with ((r * ce) * (r * ce) * (sa * sa + ca * ca)) by ring.
    rewrite Hsc2, Rmult_1_r.
    assert (0 < r * ce) by (apply Rmult_lt_0_compat; lra).
    apply Rmult_lt_0_compat; assumption.
Qed.

(** A mouse move while no button is held changes nothing.  While one is
    held it turns the camera by the distance moved since the last event
    times [rotateSpeed], and stores the azimuth wrapped: strictly
    between -2 pi and 2 pi, and a whole number of turns away from the
    unwrapped angle. *)
Theorem onMouseMove_wraps_azimuth (c : Cam.Camera) (clientX clientY : R) :
  let c' := Cam.onMouseMove c clientX clientY in
  (Cam.isMouseDown c = false -> c' = c)
  /\ (Cam.isMouseDown c = true ->
      - (2 * Rtrigo1.PI) < Cam.azimuth c' < 2 * Rtrigo1.PI
      /\ (exists k : Z,
            Cam.azimuth c'
            = Cam.azimuth c - (clientX - Cam.lastMouseX c) * Cam.rotateSpeed c
              - IZR k * (2 * Rtrigo1.PI))
      /\ Cam.lastMouseX c' = clientX /\ Cam.lastMouseY c' = clientY).
Proof.
  intros c'. subst c'. unfold Cam.onMouseMove.
  split; intros Hdown; rewrite Hdown; [reflexivity|]. simpl.
  assert (Hpi : 0 < 2 * Rtrigo1.PI) by (pose proof Rtrigo1.PI_RGT_0; lra).
  destruct (remainder_wraps
              (Cam.azimuth c - (clientX - Cam.lastMouseX c) * Cam.rotateSpeed c)
              (2 * Rtrigo1.PI) Hpi) as [Habs Hk].
  split; [|split; [exact Hk|split; reflexivity]].
  apply Rabs_def2 in Habs. lra.
Qed.

(** For a camera whose radius is within its limits and whose zoom speed is
    not negative, a wheel event moves the radius by at most [zoomSpeed] and
    keeps it within the limits: away from the target when [deltaY] is
    positive, towards it otherwise, an event with [deltaY = 0] included.
    The size of [deltaY] plays no part. *)
Theorem onWheel_steps (c : Cam.Camera) (deltaY : R) :
  Cam.minRadius c <= Cam.radius c <= Cam.maxRadius c ->
  0 <= Cam.zoomSpeed c ->
  let r' := Cam.radius (Cam.onWheel c deltaY) in
  Cam.minRadius c <= r' <= Cam.maxRadius c
  /\ (0 < deltaY ->
      r' = Rmin (Cam.maxRadius c) (Cam.radius c + Cam.zoomSpeed c))
  /\ (deltaY <= 0 ->
      r' = Rmax (Cam.minRadius c) (Cam.radius c - Cam.zoomSpeed c)).
Proof.
  intros Hr Hz r'. subst r'. unfold Cam.onWheel. simpl.
  split; [apply clamp_within; lra|].
  unfold Cam.Math_max, Cam.Math_min.
  split; intros Hd; destruct (Rlt_dec 0 deltaY); try lra;
    unfold Rmax, Rmin;
    repeat match goal with
           | |- context [Rle_dec ?a ?b] =>
               lazymatch b with
               | context [Rle_dec _ _] => fail
               | _ => destruct (Rle_dec a b)
               end
           end;
    lra.
Qed.

End Handlers.

Lemma onMouseMove_wraps_azimuth_witness :
  let c := Cam.onMouseDown Samples.camera 0 0 in
  Cam.isMouseDown c = true
  /\ - (2 * Rtrigo1.PI)
     < Cam.azimuth (Cam.onMouseMove (G := GlMatrix.exact) c 2000 0)
     < 2 * Rtrigo1.PI.
Proof.
  split; [reflexivity|].
  destruct (onMouseMove_wraps_azimuth (G := GlMatrix.exact)
              (Cam.onMouseDown Samples.camera 0 0) 2000 0) as [_ H].
  destruct (H eq_refl) as [Hb _]. exact Hb.
Defined.

Lemma onWheel_steps_witness :
  Cam.minRadius Samples.camera <= Cam.radius Samples.camera
  <= Cam.maxRadius Samples.camera
  /\ 0 <= Cam.zoomSpeed Samples.camera
  /\ Cam.radius (Cam.onWheel (G := GlMatrix.exact) Samples.camera 0)
     = Rmax 1 (5 - 0.1).
Proof.
  assert (Hr : Cam.minRadius Samples.camera <= Cam.radius Samples.camera
               <= Cam.maxRadius Samples.camera) by (simpl; lra).
  assert (Hz : 0 <= Cam.zoomSpeed Samples.camera) by (simpl; lra).
  split; [exact Hr|]. split; [exact Hz|].
  destruct (onWheel_steps (G := GlMatrix.exact) Samples.camera 0 Hr Hz)
    as (_ & _ & H).
  apply H. lra.
Defined.


End CamFacts.

(* ===================================================================== *)
(** * Properties of the uniform manager and of the frame *)
(* ===================================================================== *)

Module GlFacts.
Import Gl.
Local Open Scope R_scope.

(** ** setUniform on a name that is not cached *)

(** C7.  For a name that is not in the uniform cache, [setUniform] returns
    normally (it does not throw), adds one warning to the console and makes
    no call on the context: the sequence of calls is the same, so every
    uniform keeps the binding it had. *)
Theorem setUniform_unknown_is_noop (um : UniformManager) (name0 : string)
    (values : list arg) (w : world) :
  uniformLocations um !! name0 = None ->
  setUniform um name0 values w
  = (Ret tt,
     World (calls w)
           (console w ++ [Warn ("Uniform '" +:+ name0 +:+ "' not found")]))
  /\ forall n, last_binding (calls (setUniform um name0 values w).2) n
               = last_binding (calls w) n.
Proof.
  intros Hnone. unfold setUniform. rewrite Hnone.
  split; reflexivity.
Qed.

Lemma setUniform_unknown_is_noop_witness :
  uniformLocations (new_UniformManager Samples.program) !! "u_shininess" = None
  /\ setUniform (new_UniformManager Samples.program) "u_shininess" [ANum 32]
       Samples.world
     = (Ret tt,
        World (calls Samples.world) [Warn "Uniform 'u_shininess' not found"])
  /\ last_binding
       (calls (setUniform (new_UniformManager Samples.program) "u_shininess"
                 [ANum 32] Samples.world).2) "u_albedo"
     = Some (uniform3fv (Location "u_albedo") (numbers [0.7; 0.3; 0.3])).
Proof.
  assert (Hnone : uniformLocations (new_UniformManager Samples.program)
                    !! "u_shininess" = None) by reflexivity.
  destruct (setUniform_unknown_is_noop (new_UniformManager Samples.program)
              "u_shininess" [ANum 32] Samples.world Hnone) as [Hret Hkeep].
  split; [exact Hnone|]. split; [exact Hret|].
  rewrite Hkeep. reflexivity.
Defined.

(** Whatever the name and the values, [setUniform] returns: an exception
    of the context is caught and logged. *)
Lemma setUniform_returns (um : UniformManager) (name0 : string)
    (values : list arg) (w : world) :
  exists w', setUniform um name0 values w = (Ret tt, w').
Proof.
  unfold setUniform.
  destruct (uniformLocations um !! name0) as [[location|]|];
    try (eexists; reflexivity).
  unfold try_catch.
  match goal with |- context [match ?body w with _ => _ end] =>
    destruct (body w) as [[[]|e] w1] end;
    eexists; reflexivity.
Qed.

(** ** What the cache of a new manager holds *)

Lemma cacheUniforms_from_sound (p : WebGLProgram) (infos : list WebGLActiveInfo) :
  forall locs inf,
    (forall n l, locs !! n = Some (Some l) -> uniform_name l = n) ->
    forall n l,
      (cacheUniforms_from p infos locs inf).1 !! n = Some (Some l) ->
      uniform_name l = n.
Proof.
  induction infos as [|i rest IH]; intros locs inf Hlocs n l; simpl.
  - apply Hlocs.
  - apply IH. intros n' l' Hl'.
    destruct (decide (name i = n')) as [<-|Hne].
    + rewrite lookup_insert_eq in Hl'. unfold getUniformLocation in Hl'.
      destruct (locatable p (name i)); [|discriminate].
      injection Hl' as <-. reflexivity.
    + rewrite lookup_insert_ne in Hl' by exact Hne. apply Hlocs, Hl'.
Qed.

(** A location in the cache of a new manager is the location of the name
    it is stored under. *)
Lemma new_UniformManager_sound (p : WebGLProgram) (n : string)
    (l : WebGLUniformLocation) :
  uniformLocations (new_UniformManager p) !! n = Some (Some l) ->
  uniform_name l = n.
Proof.
  unfold new_UniformManager.
  pose proof (cacheUniforms_from_sound p (activeUniforms p) ∅ ∅) as Hs.
  destruct (cacheUniforms_from p (activeUniforms p) ∅ ∅) as [locs inf].
  simpl in *. apply Hs. intros n' l' Hl'. rewrite lookup_empty in Hl'. discriminate.
Qed.

(** ** Which calls a computation makes *)

Lemma emits_nothing (P : glcall -> Prop) {A} (m : M A) :
  (forall w, calls (m w).2 = calls w) -> emits P m.
Proof.
  intros Hm w. exists []. rewrite app_nil_r. split; [apply Hm|constructor].
Qed.

Lemma emits_ret (P : glcall -> Prop) {A} (a : A) : emits P (mret a : M A).
Proof. apply emits_nothing. reflexivity. Qed.

Lemma emits_throw (P : glcall -> Prop) {A} (e : exn) : emits P (throw e : M A).
Proof. apply emits_nothing. reflexivity. Qed.

Lemma emits_print (P : glcall -> Prop) (e : entry) : emits P (print e).
Proof. apply emits_nothing. reflexivity. Qed.

Lemma emits_gl (P : glcall -> Prop) (c : glcall) : P c -> emits P (gl c).
Proof.
  intros Hc w. unfold gl. destruct (throwsTypeError c); simpl.
  - exists []. rewrite app_nil_r. split; [reflexivity|constructor].
  - exists [c]. split; [reflexivity|]. constructor; [exact Hc|constructor].
Qed.

Lemma emits_bind (P : glcall -> Prop) {A B} (m : M A) (f : A -> M B) :
  emits P m -> (forall a, emits P (f a)) -> emits P (m ≫= f).
Proof.
  intros Hm Hf w. unfold mbind, M_bind.
  destruct (Hm w) as (new1 & Hc1 & HP1).
  destruct (m w) as [[a|e] w1]; simpl in *.
  - destruct (Hf a w1) as (new2 & Hc2 & HP2).
    exists (new1 ++ new2). rewrite Hc2, Hc1, app_assoc.
    split; [reflexivity|]. apply Forall_app. split; assumption.
  - exists new1. split; assumption.
Qed.

Lemma emits_try_catch (P : glcall -> Prop) {A} (body : M A) (handler : exn -> M A) :
  emits P body -> (forall e, emits P (handler e)) -> emits P (try_catch body handler).
Proof.
  intros Hb Hh w. unfold try_catch.
  destruct (Hb w) as (new1 & Hc1 & HP1).
  destruct (body w) as [[a|e] w1]; simpl in *.
  - exists new1. split; assumption.
  - destruct (Hh e w1) as (new2 & Hc2 & HP2).
    exists (new1 ++ new2). rewrite Hc2, Hc1, app_assoc.
    split; [reflexivity|]. apply Forall_app. split; assumption.
Qed.

Lemma emits_mono (P Q : glcall -> Prop) {A} (m : M A) :
  (forall c, P c -> Q c) -> emits P m -> emits Q m.
Proof.
  intros HPQ Hm w. destruct (Hm w) as (new & Hc & HP).
  exists new. split; [exact Hc|]. eapply Forall_impl; eassumption.
Qed.

(** [setUniform] calls the context on the location it looked up only. *)
Lemma emits_dispatch (location : WebGLUniformLocation) (t : gltype)
    (values : list arg) :
  emits (fun c => target c = Some location) (dispatch location t values).
Proof.
  unfold dispatch.
  destruct t;
    repeat match goal with |- context [if ?b then _ else _] => destruct b end;
    first [apply emits_gl; reflexivity | apply emits_print].
Qed.

Lemma emits_setUniform (um : UniformManager) (n : string) (values : list arg) :
  (forall l, uniformLocations um !! n = Some (Some l) -> uniform_name l = n) ->
  emits (fun c => writes n c = true) (setUniform um n values).
Proof.
  intros Hsound. unfold setUniform.
  destruct (uniformLocations um !! n) as [[location|]|] eqn:Hloc;
    try apply emits_print.
  apply emits_try_catch.
  - destruct (uniformInfo um !! n) as [info|]; [|apply emits_throw].
    eapply emits_mono; [|apply emits_dispatch].
    intros c Hc. unfold writes. rewrite Hc.
    apply bool_decide_eq_true. apply Hsound. reflexivity.
  - intros e. repeat (apply emits_bind; [apply emits_print|intros _]).
    apply emits_print.
Qed.

Lemma emits_Mesh_render (m : Scene.Mesh) :
  emits (fun c => target c = None /\ object_call c = true) (Mesh_render m).
Proof.
  unfold Mesh_render. destruct (Scene.vertexArray m); [|apply emits_print].
  apply emits_try_catch.
  - repeat (apply emits_bind; [apply emits_gl; split; reflexivity|intros _]).
    apply emits_gl; split; reflexivity.
  - intros e. apply emits_bind; [apply emits_print|intros _]. apply emits_throw.
Qed.

(** ** Global names and per-object names *)

Lemma object_not_global (n : string) :
  is_object_name n = true -> is_global_name n = false.
Proof.
  unfold is_object_name. intros Hn. apply bool_decide_eq_true in Hn.
  repeat (apply elem_of_cons in Hn; destruct Hn as [->|Hn]; [reflexivity|]).
  apply elem_of_nil in Hn. contradiction.
Qed.

Lemma global_not_object (n : string) :
  is_global_name n = true -> is_object_name n = false.
Proof.
  intros Hg. destruct (is_object_name n) eqn:Ho; [|reflexivity].
  apply object_not_global in Ho. congruence.
Qed.

Lemma is_global_lightName (i : nat) :
  Forall (fun n => is_global_name n = true) (lightNames i).
Proof.
  unfold lightNames, lightName, is_global_name.
  repeat constructor; apply orb_true_iff; right; reflexivity.
Qed.

Lemma writes_name (n : string) (c : glcall) :
  writes n c = true -> exists l, target c = Some l /\ uniform_name l = n.
Proof.
  unfold writes. destruct (target c) as [l|]; [|discriminate].
  intros H. apply bool_decide_eq_true in H. exists l. split; [reflexivity|exact H].
Qed.

Lemma writes_global (n : string) (c : glcall) :
  writes n c = true -> is_global_name n = true ->
  object_call c = false /\ global_call c = true.
Proof.
  intros Hw Hg. destruct (writes_name n c Hw) as (l & Ht & <-).
  unfold global_call. rewrite Ht. split; [|exact Hg].
  apply global_not_object in Hg.
  destruct c; simpl in Ht; try discriminate; injection Ht as ->; exact Hg.
Qed.

Lemma writes_object (n : string) (c : glcall) :
  writes n c = true -> is_object_name n = true -> global_call c = false.
Proof.
  intros Hw Ho. destruct (writes_name n c Hw) as (l & Ht & <-).
  unfold global_call. rewrite Ht. apply object_not_global, Ho.
Qed.

Lemma not_global_call_writes (n : string) (c : glcall) :
  is_global_name n = true -> global_call c = false -> writes n c = false.
Proof.
  intros Hg Hc. destruct (writes n c) eqn:Hw; [|reflexivity].
  destruct (writes_global n c Hw Hg) as [_ Hgc]. congruence.
Qed.

(** ** The last binding of a uniform *)

Lemma find_none_app {A} (f : A -> bool) (xs ys : list A) :
  Forall (fun x => f x = false) xs -> List.find f (xs ++ ys) = List.find f ys.
Proof.
  induction 1 as [|x xs Hx _ IH]; simpl; [reflexivity|]. rewrite Hx. exact IH.
Qed.

Lemma last_binding_app (cs new : list glcall) (n : string) :
  Forall (fun c => writes n c = false) new ->
  last_binding (cs ++ new) n = last_binding cs n.
Proof.
  intros Hnew. unfold last_binding. rewrite rev_app_distr.
  apply find_none_app. apply Forall_forall. intros c Hc.
  rewrite Forall_forall in Hnew. apply Hnew.
  apply list_elem_of_In. apply list_elem_of_In in Hc. apply in_rev. exact Hc.
Qed.

(** ** The commands of a frame *)

Lemma run_app (um : UniformManager) (env : frame_env) (cs1 cs2 : list command)
    (w : world) :
  run um env (cs1 ++ cs2) w = (run um env cs1;; run um env cs2) w.
Proof.
  revert w. induction cs1 as [|c cs1 IH]; intros w; simpl.
  - reflexivity.
  - unfold mbind, M_bind in *. destruct (exec um env c w) as [[[]|e] w1].
    + apply IH.
    + reflexivity.
Qed.

Lemma emits_run (P : glcall -> Prop) (um : UniformManager) (env : frame_env)
    (cs : list command) :
  Forall (fun c => emits P (exec um env c)) cs -> emits P (run um env cs).
Proof.
  induction 1 as [|c cs Hc _ IH]; simpl.
  - apply emits_ret.
  - apply emits_bind; [exact Hc|intros _; exact IH].
Qed.

(** Two phases in sequence: the calls of the first, then the calls of the
    second. *)
Lemma emits_seq (P Q : glcall -> Prop) (m1 m2 : M unit) (w : world) :
  emits P m1 -> emits Q m2 ->
  exists pre post,
    calls ((m1;; m2) w).2 = calls w ++ pre ++ post
    /\ calls (m1 w).2 = calls w ++ pre
    /\ Forall P pre /\ Forall Q post.
Proof.
  intros H1 H2. unfold mbind, M_bind.
  destruct (H1 w) as (pre & Hc1 & HP).
  destruct (m1 w) as [[[]|e] w1]; simpl in *.
  - destruct (H2 w1) as (post & Hc2 & HQ).
    exists pre, post. rewrite Hc2, Hc1, app_assoc. repeat split; assumption.
  - exists pre, []. rewrite app_nil_r. repeat split; try assumption. constructor.
Qed.

Section WithGlMatrix.
Context {G : GlMatrix.Ops}.

Lemma lightCommands_names (um : UniformManager) (i : nat) (l : Light) :
  omap bound_name (lightCommands um i l)
  = if hasUniform um (lightName "u_lightTypes" i) then lightNames i else [].
Proof.
  unfold lightCommands. destruct (hasUniform um _); reflexivity.
Qed.

Lemma lightCommands_global (um : UniformManager) (i : nat) (l : Light) :
  Forall (fun c => global_command c = true) (lightCommands um i l).
Proof.
  pose proof (is_global_lightName i) as Hn.
  unfold lightCommands, lightNames in *.
  destruct (hasUniform um _); [|constructor].
  repeat match goal with
         | H : Forall _ (_ :: _) |- _ => apply Forall_cons in H; destruct H as [? H]
         end.
  repeat constructor; simpl; assumption.
Qed.

Lemma globalCommands_global (r : PBRRenderer) :
  Forall (fun c => global_command c = true) (globalCommands r).
Proof.
  unfold globalCommands. repeat (apply Forall_app; split).
  - repeat constructor.
  - apply Forall_concat. apply Forall_forall. intros cs Hcs.
    apply elem_of_lookup_imap in Hcs. destruct Hcs as (i & l & -> & _).
    apply lightCommands_global.
  - repeat constructor.
Qed.

Lemma drawCommands_object (h : Js.heap) (modelMatrix : GlMatrix.mat4)
    (material0 : Js.loc) (m : option Scene.Mesh) :
  Forall (fun c => object_command c = true) (drawCommands h modelMatrix material0 m).
Proof. unfold drawCommands. repeat constructor. Qed.

Lemma sceneCommands_object (r : PBRRenderer) (h : Js.heap) :
  Forall (fun c => object_command c = true) (sceneCommands r h).
Proof.
  unfold sceneCommands. destruct (sceneManager r) as [s|].
  - apply Forall_concat. apply Forall_forall. intros cs Hcs.
    apply list_elem_of_In, in_map_iff in Hcs. destruct Hcs as (o & <- & _).
    apply drawCommands_object.
  - apply drawCommands_object.
Qed.

End WithGlMatrix.

Lemma emits_global_command (um : UniformManager) (env : frame_env) (c : command) :
  sound um -> global_command c = true ->
  emits (fun c => object_call c = false) (exec um env c).
Proof.
  intros Hs Hc. destruct c as [| |n values|m|]; try discriminate. simpl in *.
  eapply emits_mono; [|apply emits_setUniform; apply Hs].
  intros c Hw. apply (writes_global n c Hw Hc).
Qed.

Lemma emits_object_command (um : UniformManager) (env : frame_env) (c : command) :
  sound um -> object_command c = true ->
  emits (fun c => global_call c = false) (exec um env c).
Proof.
  intros Hs Hc. destruct c as [| |n values|m|]; try discriminate; simpl in *.
  - eapply emits_mono; [|apply emits_setUniform; apply Hs].
    intros c Hw. apply (writes_object n c Hw Hc).
  - destruct m as [m|]; [|apply emits_ret]. simpl.
    eapply emits_mono; [|apply emits_Mesh_render].
    intros c [Ht _]. unfold global_call. rewrite Ht. reflexivity.
Qed.

Section Frame.
Context {G : GlMatrix.Ops}.

Lemma render_calls (r : PBRRenderer) (h : Js.heap) (env : frame_env) (w : world) :
  calls (render r h env w).2
  = calls (run (uniformManager r) env (frameCommands (advance r env) h) w).2.
Proof.
  unfold render, try_catch.
  change (uniformManager (advance r env)) with (uniformManager r).
  destruct (run (uniformManager r) env (frameCommands (advance r env) h) w)
    as [[[]|e] w1]; reflexivity.
Qed.

Lemma globalCommands_names (r : PBRRenderer) :
  omap bound_name (globalCommands r)
  = ["u_viewMatrix"; "u_projectionMatrix"; "u_cameraPosition"; "u_numLights"]
    ++ omap bound_name (concat (imap (lightCommands (uniformManager r)) (lights r)))
    ++ ["u_useIBL"; "u_iblIntensity"; "u_ambientColor"].
Proof. unfold globalCommands. rewrite !omap_app. reflexivity. Qed.

Lemma frameNames_bound (r : PBRRenderer) :
  frameNames ⊆ omap bound_name (globalCommands r).
Proof.
  rewrite globalCommands_names. intros n Hn. unfold frameNames in Hn.
  rewrite !elem_of_app.
  repeat (apply elem_of_cons in Hn; destruct Hn as [->|Hn]);
    try (apply elem_of_nil in Hn; contradiction);
    first [ left; repeat constructor; fail
          | right; right; repeat constructor ].
Qed.

Lemma lightNames_bound (r : PBRRenderer) (i : nat) :
  (i < List.length (lights r))%nat ->
  hasUniform (uniformManager r) (lightName "u_lightTypes" i) = true ->
  lightNames i ⊆ omap bound_name (globalCommands r).
Proof.
  intros Hi Hhas n Hn. rewrite globalCommands_names.
  rewrite !elem_of_app. right. left.
  destruct (lookup_lt_is_Some_2 (lights r) i Hi) as [l Hl].
  pose proof (lightCommands_names (uniformManager r) i l) as Hnames.
  rewrite Hhas in Hnames. rewrite <- Hnames in Hn.
  apply list_elem_of_omap in Hn. destruct Hn as (c & Hc & Hb).
  apply list_elem_of_omap. exists c. split; [|exact Hb].
  apply list_elem_of_In, in_concat.
  exists (lightCommands (uniformManager r) i l). split.
  - apply list_elem_of_In. apply (elem_of_lookup_imap_2 _ _ _ _ Hl).
  - apply list_elem_of_In, Hc.
Qed.

(** The order of the two phases of a frame, whatever the program the
    uniform manager was built from: the calls the frame adds to the context
    are those of a global phase followed by those of an object phase.  The
    global phase runs [setUniform] for the view matrix, the projection
    matrix, the camera position, the light count, every light slot
    [hasUniform] finds, and the three IBL uniforms; none of its calls binds
    a per-object uniform, binds a vertex array or draws.  None of the calls
    of the object phase binds a global uniform.  Which of the [setUniform]
    calls reach the context depends on the program; the end of this module
    has them for the program of the two shaders. *)
Lemma globals_bound_before_objects (r : PBRRenderer) (h : Js.heap)
    (env : frame_env) (w : world) (p : WebGLProgram) :
  uniformManager r = new_UniformManager p ->
  exists pre post,
    calls (render r h env w).2 = calls w ++ pre ++ post
    /\ calls (run (uniformManager r) env
                ([Clear; UseProgram] ++ globalCommands (advance r env)) w).2
       = calls w ++ pre
    /\ Forall (fun c => object_call c = false) pre
    /\ Forall (fun c => global_call c = false) post
    /\ (forall n post1 post2,
          is_global_name n = true -> post = post1 ++ post2 ->
          last_binding (calls w ++ pre ++ post1) n = last_binding (calls w ++ pre) n)
    /\ frameCommands (advance r env) h
       = [Clear; UseProgram] ++ globalCommands (advance r env)
         ++ sceneCommands (advance r env) h ++ [CheckGLError]
    /\ Forall (fun c => global_command c = true) (globalCommands (advance r env))
    /\ Forall (fun c => object_command c = true) (sceneCommands (advance r env) h)
    /\ frameNames ⊆ omap bound_name (globalCommands (advance r env))
    /\ (forall i, (i < List.length (lights r))%nat ->
          hasUniform (uniformManager r) (lightName "u_lightTypes" i) = true ->
          lightNames i ⊆ omap bound_name (globalCommands (advance r env))).
Proof.
  intros Hum.
  assert (Hs : sound (uniformManager r)).
  { rewrite Hum. intros n l. apply new_UniformManager_sound. }
  set (r1 := advance r env).
  set (um := uniformManager r).
  assert (Hpre : emits (fun c => object_call c = false)
                   (run um env ([Clear; UseProgram] ++ globalCommands r1))).
  { apply emits_run. apply Forall_app. split.
    - repeat constructor; apply emits_gl; reflexivity.
    - eapply Forall_impl; [apply globalCommands_global|].
      intros c Hc. apply emits_global_command; assumption. }
  assert (Hpost : emits (fun c => global_call c = false)
                    (run um env (sceneCommands r1 h ++ [CheckGLError]))).
  { apply emits_run. apply Forall_app. split.
    - eapply Forall_impl; [apply sceneCommands_object|].
      intros c Hc. apply emits_object_command; assumption.
    - repeat constructor. simpl. unfold checkGLError.
      apply emits_bind; [apply emits_gl; reflexivity|intros _].
      destruct (gl_status env =? 0)%nat; [apply emits_ret|apply emits_throw]. }
  destruct (emits_seq _ _ _ _ w Hpre Hpost) as (pre & post & Hall & Hfirst & HP & HQ).
  exists pre, post. split.
  { rewrite render_calls. fold um r1. unfold frameCommands.
    replace ([Clear; UseProgram] ++ globalCommands r1 ++ sceneCommands r1 h
             ++ [CheckGLError])
      with (([Clear; UseProgram] ++ globalCommands r1)
            ++ (sceneCommands r1 h ++ [CheckGLError]))
      by (rewrite <- app_assoc; reflexivity).
    rewrite run_app. exact Hall. }
  split; [exact Hfirst|]. split; [exact HP|]. split; [exact HQ|]. split.
  { intros n post1 post2 Hn Hsplit. rewrite app_assoc.
    apply last_binding_app. subst post. apply Forall_app in HQ. destruct HQ as [HQ1 _].
    eapply Forall_impl; [exact HQ1|]. intros c Hc.
    apply not_global_call_writes; assumption. }
  split; [reflexivity|].
  split; [apply globalCommands_global|].
  split; [apply sceneCommands_object|].
  split; [apply frameNames_bound|].
  intros i Hi Hhas. apply lightNames_bound; assumption.
Qed.

End Frame.

(** The Glass preset reaches the shader: after [loadPreset] the frame binds
    [u_roughness] to the number 0. *)
Lemma glass_preset_binds_zero_roughness :
  In (SetUniform "u_roughness" [ANum 0])
     (sceneCommands (G := GlMatrix.exact) Samples.renderer
        (Editor.loadPreset Samples.scene_heap Samples.renderer_material
           [Samples.scene_object] Editor.Glass)).
Proof.
  simpl. do 4 right. left. reflexivity.
Qed.

Lemma globals_bound_before_objects_witness :
  uniformManager Samples.renderer = new_UniformManager Samples.program
  /\ exists pre post,
       calls (render (G := GlMatrix.exact) Samples.renderer Samples.scene_heap
                Samples.frame Samples.world).2
       = calls Samples.world ++ pre ++ post
       /\ Forall (fun c => object_call c = false) pre
       /\ Forall (fun c => global_call c = false) post
       /\ frameNames
          ⊆ omap bound_name
              (globalCommands (advance (G := GlMatrix.exact) Samples.renderer
                                 Samples.frame)).
Proof.
  split; [reflexivity|].
  destruct (globals_bound_before_objects (G := GlMatrix.exact) Samples.renderer
              Samples.scene_heap Samples.frame Samples.world Samples.program
              eq_refl)
    as (pre & post & Hcalls & _ & Hpre & Hpost & _ & _ & _ & _ & Hnames & _).
  exists pre, post. repeat split; assumption.
Defined.

(** ** What the cache of a new manager covers *)

Lemma cacheUniforms_from_lookup (p : WebGLProgram) (infos : list WebGLActiveInfo) :
  forall locs inf n,
    let r := cacheUniforms_from p infos locs inf in
    (n ∈ List.map name infos ->
     r.1 !! n = Some (getUniformLocation p n)
     /\ exists i, r.2 !! n = Some i /\ i ∈ infos /\ name i = n)
    /\ (n ∉ List.map name infos -> r.1 !! n = locs !! n /\ r.2 !! n = inf !! n).
Proof.
  induction infos as [|i rest IH]; intros locs inf n; simpl.
  - split; [intros H; apply elem_of_nil in H; contradiction|]. intros _. split; reflexivity.
  - destruct (IH (<[name i := getUniformLocation p (name i)]> locs)
                 (<[name i := i]> inf) n) as [IHin IHout].
    destruct (decide (n ∈ List.map name rest)) as [Hin|Hout].
    + split; [|intros Hn; exfalso; apply Hn; right; exact Hin].
      intros _. destruct (IHin Hin) as (Hl & j & Hj & Hjin & Hjn).
      split; [exact Hl|]. exists j. split; [exact Hj|]. split; [right; exact Hjin|exact Hjn].
    + destruct (IHout Hout) as [Hl Hi]. split.
      * intros Hn. apply elem_of_cons in Hn. destruct Hn as [->|Hn]; [|contradiction].
        rewrite Hl, Hi, !lookup_insert_eq. split; [reflexivity|].
        exists i. split; [reflexivity|]. split; [left|reflexivity].
      * intros Hn. rewrite not_elem_of_cons in Hn. destruct Hn as [Hne _].
        rewrite Hl, Hi, !lookup_insert_ne by congruence. split; reflexivity.
Qed.

Lemma new_UniformManager_lookup (p : WebGLProgram) (n : string) :
  let um := new_UniformManager p in
  (hasUniform um n = true <-> n ∈ List.map name (activeUniforms p))
  /\ (n ∈ List.map name (activeUniforms p) ->
      uniformLocations um !! n = Some (getUniformLocation p n)
      /\ exists i, uniformInfo um !! n = Some i
                   /\ i ∈ activeUniforms p /\ name i = n)
  /\ (n ∉ List.map name (activeUniforms p) ->
      uniformLocations um !! n = None /\ uniformInfo um !! n = None).
Proof.
  unfold new_UniformManager, hasUniform.
  pose proof (cacheUniforms_from_lookup p (activeUniforms p) ∅ ∅ n) as H.
  destruct (cacheUniforms_from p (activeUniforms p) ∅ ∅) as [locs inf].
  simpl in *. destruct H as [Hin Hout]. rewrite !lookup_empty in Hout.
  split; [|split; assumption].
  rewrite bool_decide_eq_true. split.
  - intros Hsome. destruct (decide (n ∈ List.map name (activeUniforms p))) as [Hn|Hn];
      [exact Hn|].
    destruct (Hout Hn) as [Hnone _]. rewrite Hnone in Hsome.
    destruct Hsome as [x Hx]. discriminate.
  - intros Hn. destruct (Hin Hn) as [Hl _]. rewrite Hl. eexists. reflexivity.
Qed.

(** The cache of a new manager holds exactly the names of the program's
    active uniforms: [hasUniform] is true for these and for no other name,
    each is stored with what [getUniformLocation] returned for it (a
    location or [null]) and with an info record of that name. *)
Theorem cache_covers_active_uniforms (p : WebGLProgram) (n : string) :
  let um := new_UniformManager p in
  (hasUniform um n = true <-> n ∈ List.map name (activeUniforms p))
  /\ (n ∈ List.map name (activeUniforms p) ->
      uniformLocations um !! n = Some (getUniformLocation p n)
      /\ exists i, uniformInfo um !! n = Some i
                   /\ i ∈ activeUniforms p /\ name i = n)
  /\ (n ∉ List.map name (activeUniforms p) ->
      uniformLocations um !! n = None /\ uniformInfo um !! n = None).
Proof. apply new_UniformManager_lookup. Qed.

Lemma cache_covers_active_uniforms_witness :
  "u_albedo" ∈ List.map name (activeUniforms Samples.program)
  /\ uniformLocations (new_UniformManager Samples.program) !! "u_albedo"
     = Some (Some (Location "u_albedo")).
Proof.
  assert (Hin : "u_albedo" ∈ List.map name (activeUniforms Samples.program)).
  { simpl. do 17 right. left. }
  split; [exact Hin|].
  destruct (cache_covers_active_uniforms Samples.program "u_albedo") as (_ & H & _).
  destruct (H Hin) as [Hl _]. exact Hl.
Defined.

(** ** One call or a console entry *)

Lemma gl_outcome (c : glcall) (w : world) :
  (throwsTypeError c = true /\ gl c w = (Throw TypeError, w))
  \/ (throwsTypeError c = false
      /\ gl c w = (Ret tt, World (calls w ++ [c]) (console w))).
Proof.
  unfold gl. destruct (throwsTypeError c); [left|right]; split; reflexivity.
Qed.

Lemma dispatch_outcome (location : WebGLUniformLocation) (t : gltype)
    (values : list arg) (w : world) :
  (exists c, target c = Some location
             /\ dispatch location t values w
                = (Ret tt, World (calls w ++ [c]) (console w)))
  \/ dispatch location t values w = (Throw TypeError, w)
  \/ (exists e, dispatch location t values w
                = (Ret tt, World (calls w) (console w ++ [e]))).
Proof.
  unfold dispatch.
  destruct t;
    repeat match goal with |- context [if ?b then _ else _] => destruct b end;
    try (right; right; eexists; reflexivity);
    match goal with |- context [gl ?c w] =>
      destruct (gl_outcome c w) as [[_ ->]|[_ ->]];
        [right; left; reflexivity|left; exists c; split; reflexivity]
    end.
Qed.

(** [setUniform] on a manager built from its program always returns, and
    does one of two things: it makes exactly one call on the context, a
    uniform call on the location of that very name, and leaves the console
    alone; or it makes no call and writes to the console (a warning for a
    name without location or a type it does not support, five errors for a
    value the context refuses). *)
Theorem setUniform_calls_or_logs (p : WebGLProgram) (n : string)
    (values : list arg) (w : world) :
  exists w',
    setUniform (new_UniformManager p) n values w = (Ret tt, w')
    /\ ((exists c, calls w' = calls w ++ [c]
                   /\ target c = Some (Location n)
                   /\ console w' = console w)
        \/ (calls w' = calls w
            /\ exists e es, console w' = console w ++ e :: es)).
Proof.
  unfold setUniform.
  destruct (uniformLocations (new_UniformManager p) !! n) as [[location|]|] eqn:Hloc;
    try (eexists; split; [reflexivity|]; right; split; [reflexivity|];
         eexists _, []; reflexivity).
  assert (Hname : location = Location n).
  { apply new_UniformManager_sound in Hloc. destruct location. simpl in Hloc.
    subst. reflexivity. }
  subst location. unfold try_catch.
  destruct (uniformInfo (new_UniformManager p) !! n) as [info|].
  - destruct (dispatch_outcome (Location n) (type info) values w)
      as [(c & Hc & ->)|[->|(e & ->)]].
    + eexists. split; [reflexivity|]. left. exists c. repeat split. exact Hc.
    + eexists. split; [reflexivity|]. right. split; [reflexivity|].
      simpl. eexists _, _. rewrite <- !app_assoc. reflexivity.
    + eexists. split; [reflexivity|]. right. split; [reflexivity|].
      eexists _, []. reflexivity.
  - eexists. split; [reflexivity|]. right. split; [reflexivity|].
    simpl. eexists _, _. rewrite <- !app_assoc. reflexivity.
Qed.

(** For a uniform of type vec3, passing an array, passing the numbers one
    by one, and passing a typed array of at least three numbers make the
    same call: [uniform3fv] on the location with the numbers as a list. *)
Theorem setUniform_vec3_forms (um : UniformManager) (n : string)
    (location : WebGLUniformLocation) (info : WebGLActiveInfo)
    (xs : list R) (w : world) :
  uniformLocations um !! n = Some (Some location) ->
  uniformInfo um !! n = Some info ->
  type info = FLOAT_VEC3 ->
  let bound := (Ret tt, World (calls w ++ [uniform3fv location (numbers xs)])
                              (console w)) in
  setUniform um n [numbers xs] w = bound
  /\ setUniform um n (List.map ANum xs) w = bound
  /\ ((3 <= List.length xs)%nat -> setUniform um n [ATyped xs] w = bound).
Proof.
  intros Hloc Hinfo Htype bound. subst bound.
  unfold setUniform. rewrite Hloc, Hinfo, Htype.
  split; [reflexivity|]. split.
  - destruct xs as [|x xs]; reflexivity.
  - intros Hlen. destruct xs as [|a [|b [|c xs]]]; simpl in Hlen; try lia.
    reflexivity.
Qed.

Lemma setUniform_vec3_forms_witness :
  uniformLocations (new_UniformManager Samples.program) !! "u_albedo"
  = Some (Some (Location "u_albedo"))
  /\ setUniform (new_UniformManager Samples.program) "u_albedo"
       [ANum 1; ANum 0.8; ANum 0.1] Samples.world
     = setUniform (new_UniformManager Samples.program) "u_albedo"
         [ATyped [1; 0.8; 0.1]] Samples.world.
Proof.
  assert (Hloc : uniformLocations (new_UniformManager Samples.program) !! "u_albedo"
                 = Some (Some (Location "u_albedo"))) by reflexivity.
  split; [exact Hloc|].
  destruct (setUniform_vec3_forms (new_UniformManager Samples.program) "u_albedo"
              (Location "u_albedo") (ActiveInfo "u_albedo" 1 FLOAT_VEC3)
              [1; 0.8; 0.1] Samples.world Hloc eq_refl eq_refl)
    as (_ & Hnums & Htyped).
  simpl in Hnums. rewrite Hnums. symmetry. apply Htyped. simpl. lia.
Defined.

(** ** The draws of a frame *)

Lemma draws_app (cs1 cs2 : list glcall) : draws (cs1 ++ cs2) = draws cs1 ++ draws cs2.
Proof. apply omap_app. Qed.

Lemma emits_draws (P : glcall -> Prop) {A} (m : M A) (w : world) :
  emits P m -> (forall c, P c -> drawCount c = None) ->
  draws (calls (m w).2) = draws (calls w).
Proof.
  intros Hm HP. destruct (Hm w) as (new & -> & Hnew).
  rewrite draws_app.
  assert (Hnone : draws new = []).
  { induction Hnew as [|c new Hc _ IH]; [reflexivity|].
    unfold draws in *. simpl. rewrite (HP c Hc). exact IH. }
  rewrite Hnone, app_nil_r. reflexivity.
Qed.

Lemma setUniform_draws (um : UniformManager) (n : string) (values : list arg)
    (w : world) :
  exists w', setUniform um n values w = (Ret tt, w')
             /\ draws (calls w') = draws (calls w).
Proof.
  destruct (setUniform_returns um n values w) as [w' Hw'].
  exists w'. split; [exact Hw'|].
  assert (He : emits (fun c => target c <> None) (setUniform um n values)).
  { unfold setUniform.
    destruct (uniformLocations um !! n) as [[location|]|]; try apply emits_print.
    apply emits_try_catch.
    - destruct (uniformInfo um !! n) as [info|]; [|apply emits_throw].
      eapply emits_mono; [|apply emits_dispatch].
      intros c Hc. rewrite Hc. discriminate.
    - intros e. repeat (apply emits_bind; [apply emits_print|intros _]).
      apply emits_print. }
  pose proof (emits_draws _ _ w He) as Hd. rewrite Hw' in Hd. apply Hd.
  intros c Hc. destruct c; simpl in *; try reflexivity. contradiction.
Qed.

Lemma exec_draws (um : UniformManager) (env : frame_env) (c : command) (w : world) :
  c <> CheckGLError ->
  exists w', exec um env c w = (Ret tt, w')
             /\ draws (calls w') = draws (calls w) ++ commandDraws c.
Proof.
  intros Hc. destruct c as [| |n values|m|]; simpl.
  - eexists. split; [reflexivity|]. simpl. rewrite draws_app. reflexivity.
  - eexists. split; [reflexivity|]. simpl. rewrite draws_app. reflexivity.
  - destruct (setUniform_draws um n values w) as (w' & Hw' & Hd).
    exists w'. split; [exact Hw'|]. rewrite app_nil_r. exact Hd.
  - destruct m as [m|]; simpl.
    + unfold Mesh_render. destruct (Scene.vertexArray m) as [vao|].
      * eexists. split; [reflexivity|]. simpl.
        rewrite <- !app_assoc, draws_app. reflexivity.
      * eexists. split; [reflexivity|]. simpl. rewrite app_nil_r. reflexivity.
    + eexists. split; [reflexivity|]. rewrite app_nil_r. reflexivity.
  - contradiction.
Qed.

Lemma run_draws (um : UniformManager) (env : frame_env) (cs : list command) :
  Forall (fun c => c <> CheckGLError) cs ->
  forall w, exists w',
    run um env cs w = (Ret tt, w')
    /\ draws (calls w') = draws (calls w) ++ flat_map commandDraws cs.
Proof.
  induction 1 as [|c cs Hc _ IH]; intros w; simpl.
  - eexists. split; [reflexivity|]. rewrite app_nil_r. reflexivity.
  - destruct (exec_draws um env c w Hc) as (w1 & Hw1 & Hd1).
    destruct (IH w1) as (w2 & Hw2 & Hd2).
    exists w2. unfold mbind, M_bind. rewrite Hw1. split; [exact Hw2|].
    rewrite Hd2, Hd1, app_assoc. reflexivity.
Qed.

Lemma setUniforms_draw_nothing (cs : list command) :
  Forall (fun c => bound_name c <> None) cs ->
  Forall (fun c => c <> CheckGLError) cs /\ flat_map commandDraws cs = [].
Proof.
  induction 1 as [|c cs Hc _ [IH1 IH2]]; [split; [constructor|reflexivity]|].
  destruct c; simpl in Hc; try contradiction.
  split; [constructor; [discriminate|exact IH1]|exact IH2].
Qed.

Section Draws.
Context {G : GlMatrix.Ops}.

Lemma globalCommands_setUniforms (r : PBRRenderer) :
  Forall (fun c => bound_name c <> None) (globalCommands r).
Proof.
  eapply Forall_impl; [apply globalCommands_global|].
  intros c Hc. destruct c; simpl in *; discriminate.
Qed.

Lemma drawCommands_draws (h : Js.heap) (modelMatrix : GlMatrix.mat4)
    (material0 : Js.loc) (m : option Scene.Mesh) :
  Forall (fun c => c <> CheckGLError) (drawCommands h modelMatrix material0 m)
  /\ flat_map commandDraws (drawCommands h modelMatrix material0 m)
     = commandDraws (Render m).
Proof.
  unfold drawCommands. split; [repeat constructor; discriminate|].
  simpl. rewrite app_nil_r. reflexivity.
Qed.

Lemma objects_draws (h : Js.heap) (objs : list Scene.SceneObject) :
  Forall (fun c => c <> CheckGLError) (concat (List.map (objectCommands h) objs))
  /\ flat_map commandDraws (concat (List.map (objectCommands h) objs))
     = omap drawn (List.map Scene.mesh objs).
Proof.
  induction objs as [|o objs [IH1 IH2]]; [split; [constructor|reflexivity]|].
  destruct (drawCommands_draws h (Scene.modelMatrix o) (Scene.material o) (Scene.mesh o))
    as [Hd1 Hd2].
  change (concat (List.map (objectCommands h) (o :: objs)))
    with (objectCommands h o ++ concat (List.map (objectCommands h) objs)).
  split; [apply Forall_app; split; assumption|].
  rewrite flat_map_app, IH2. unfold objectCommands. rewrite Hd2. simpl.
  destruct (drawn (Scene.mesh o)); reflexivity.
Qed.

Lemma rendered_advance (r : PBRRenderer) (env : frame_env) :
  rendered (advance r env) = rendered r.
Proof.
  unfold rendered, advance, update. simpl.
  destruct (sceneManager r) as [s|]; [|reflexivity].
  simpl. rewrite List.map_map. reflexivity.
Qed.

Lemma sceneCommands_draws (r : PBRRenderer) (h : Js.heap) :
  Forall (fun c => c <> CheckGLError) (sceneCommands r h)
  /\ flat_map commandDraws (sceneCommands r h) = omap drawn (rendered r).
Proof.
  unfold sceneCommands, rendered. destruct (sceneManager r) as [s|].
  - apply objects_draws.
  - match goal with |- context [drawCommands h ?mm ?mat ?m] =>
      destruct (drawCommands_draws h mm mat m) as [H1 H2] end.
    split; [exact H1|]. rewrite H2. simpl. destruct (drawn (mesh r)); reflexivity.
Qed.

Lemma render_draws (r : PBRRenderer) (h : Js.heap) (env : frame_env) (w : world) :
  draws (calls (render r h env w).2) = draws (calls w) ++ omap drawn (rendered r).
Proof.
  rewrite render_calls.
  set (r1 := advance r env). set (um := uniformManager r).
  destruct (setUniforms_draw_nothing _ (globalCommands_setUniforms r1)) as [Hg1 Hg2].
  destruct (sceneCommands_draws r1 h) as [Hs1 Hs2].
  assert (Hbody : Forall (fun c => c <> CheckGLError)
                    ([Clear; UseProgram] ++ globalCommands r1 ++ sceneCommands r1 h)).
  { apply Forall_app. split; [repeat constructor; discriminate|].
    apply Forall_app. split; assumption. }
  destruct (run_draws um env _ Hbody w) as (w1 & Hw1 & Hd1).
  unfold frameCommands.
  replace ([Clear; UseProgram] ++ globalCommands r1 ++ sceneCommands r1 h
           ++ [CheckGLError])
    with (([Clear; UseProgram] ++ globalCommands r1 ++ sceneCommands r1 h)
          ++ [CheckGLError])
    by (rewrite <- !app_assoc; reflexivity).
  rewrite run_app. unfold mbind at 1, M_bind at 1. rewrite Hw1.
  assert (Hlast : draws (calls (run um env [CheckGLError] w1).2) = draws (calls w1)).
  { apply emits_draws with (P := fun c => c = getError).
    - apply emits_run. repeat constructor. simpl. unfold checkGLError.
      apply emits_bind; [apply emits_gl; reflexivity|intros _].
      destruct (gl_status env =? 0)%nat; [apply emits_ret|apply emits_throw].
    - intros c ->. reflexivity. }
  rewrite Hlast, Hd1.
  rewrite !flat_map_app, Hg2, Hs2. simpl.
  unfold r1. rewrite rendered_advance. reflexivity.
Qed.

(** A frame draws every mesh it is asked to render that is loaded, once,
    in the order of the scene objects and with the mesh's index count; it
    draws nothing for an object without mesh or with a mesh that is not
    loaded, and nothing else.  No [setUniform] failure and no WebGL error
    reported at the end of the frame changes this. *)
Theorem frame_draws_each_object (r : PBRRenderer) (h : Js.heap)
    (env : frame_env) (w : world) :
  draws (calls (render r h env w).2) = draws (calls w) ++ omap drawn (rendered r).
Proof. apply render_draws. Qed.

(** ** Which light slots a frame binds *)

Lemma concat_imap_nil {A B} (f : nat -> A -> list B) (l : list A) :
  (forall i x, l !! i = Some x -> f i x = []) -> concat (imap f l) = [].
Proof.
  revert f. induction l as [|x l IH]; intros f Hf; [reflexivity|].
  rewrite imap_cons. simpl. rewrite (Hf 0%nat x eq_refl). simpl.
  apply IH. intros i y Hi. apply (Hf (S i)). exact Hi.
Qed.

(** The frame binds the uniforms of light [i] only when the program lists
    [u_lightTypes[i]] among its active uniforms.  For a program that lists
    the light arrays under their element 0 only, the frame binds the
    uniforms of the first light and of no other, while it binds
    [u_numLights] to the number of lights. *)
Theorem unlisted_light_slots_unbound (r : PBRRenderer) (p : WebGLProgram) :
  uniformManager r = new_UniformManager p ->
  lightName "u_lightTypes" 0 ∈ List.map name (activeUniforms p) ->
  (forall i, (0 < i < List.length (lights r))%nat ->
     lightName "u_lightTypes" i ∉ List.map name (activeUniforms p)) ->
  omap bound_name (globalCommands r)
  = ["u_viewMatrix"; "u_projectionMatrix"; "u_cameraPosition"; "u_numLights"]
    ++ match lights r with [] => [] | _ :: _ => lightNames 0 end
    ++ ["u_useIBL"; "u_iblIntensity"; "u_ambientColor"]
  /\ In (SetUniform "u_numLights" [ANum (INR (List.length (lights r)))])
        (globalCommands r).
Proof.
  intros Hum H0 Hrest. split.
  - rewrite globalCommands_names. f_equal. f_equal.
    rewrite Hum. destruct (lights r) as [|l ls]; [reflexivity|].
    rewrite imap_cons. simpl concat. rewrite omap_app.
    rewrite lightCommands_names.
    destruct (new_UniformManager_lookup p (lightName "u_lightTypes" 0)) as ([_ Hhas] & _).
    rewrite (Hhas H0).
    rewrite (concat_imap_nil _ ls); [reflexivity|].
    intros i x Hi. unfold compose, lightCommands.
    destruct (hasUniform (new_UniformManager p) (lightName "u_lightTypes" (S i)))
      eqn:Hhas'; [|reflexivity].
    exfalso.
    destruct (new_UniformManager_lookup p (lightName "u_lightTypes" (S i)))
      as ([Hlisted _] & _).
    apply (Hrest (S i)); [|apply Hlisted, Hhas'].
    apply lookup_lt_Some in Hi. simpl. lia.
  - unfold globalCommands. simpl. do 3 right. left. reflexivity.
Qed.

(** ** Animation and the clock *)

Lemma advance_fields (r : PBRRenderer) (env : frame_env) :
  let dt := (now_render env - lastTime r) / 1000 in
  rotation (advance r env) = rotation r + dt * animationSpeed r
  /\ animationSpeed (advance r env) = animationSpeed r
  /\ lastTime (advance r env) = now_render env
  /\ sceneManager (advance r env)
     = match sceneManager r with
       | Some s => Some (Scene.SceneManager_update s dt)
       | None => None
       end.
Proof. unfold advance, update. simpl. repeat split. Qed.

Lemma frames_clock (envs : list frame_env) :
  forall (r : PBRRenderer) (last : frame_env),
    let r' := frames r (envs ++ [last]) in
    let t := (now_render last - lastTime r) / 1000 in
    rotation r' = rotation r + t * animationSpeed r
    /\ animationSpeed r' = animationSpeed r
    /\ lastTime r' = now_render last
    /\ sceneManager r'
       = match sceneManager r with
         | Some s => Some (Scene.SceneManager_update s t)
         | None => None
         end.
Proof.
  unfold frames.
  induction envs as [|e envs IH]; intros r last.
  - apply advance_fields.
  - change (fold_left advance ((e :: envs) ++ [last]) r)
      with (fold_left advance (envs ++ [last]) (advance r e)).
    pose proof (IH (advance r e) last) as H. cbv zeta in H.
    destruct H as (Hrot & Hspeed & Htime & Hscene).
    pose proof (advance_fields r e) as H1. cbv zeta in H1.
    destruct H1 as (Hrot1 & Hspeed1 & Htime1 & Hscene1).
    cbv zeta.
    rewrite Hrot, Hspeed, Htime, Hscene, Hrot1, Hspeed1, Htime1, Hscene1.
    split; [field|]. split; [reflexivity|]. split; [reflexivity|].
    destruct (sceneManager r) as [s|]; [|reflexivity].
    f_equal. unfold Scene.SceneManager_update. simpl. f_equal.
    rewrite List.map_map. apply map_ext. intros o.
    rewrite SceneFacts.update_update. f_equal. field.
Qed.

(** In exact arithmetic the animation follows the clock and not the frame
    rate: after any number of frames the rotation of the renderer and the
    rotation of every scene object have advanced by their speed times the
    time between the last frame before and the last frame of the sequence,
    however that time was cut into frames; every model matrix is the one of
    the object's rotation then. *)
Theorem animation_follows_clock (r : PBRRenderer) (envs : list frame_env)
    (last : frame_env) :
  let r' := frames r (envs ++ [last]) in
  let t := (now_render last - lastTime r) / 1000 in
  rotation r' = rotation r + t * animationSpeed r
  /\ lastTime r' = now_render last
  /\ sceneManager r'
     = match sceneManager r with
       | Some s => Some (Scene.SceneManager_update s t)
       | None => None
       end
  /\ frames r (envs ++ [last]) = advance (frames r envs) last.
Proof.
  destruct (frames_clock envs r last) as (Hrot & _ & Htime & Hscene).
  split; [exact Hrot|]. split; [exact Htime|]. split; [exact Hscene|].
  unfold frames. rewrite fold_left_app. reflexivity.
Qed.

End Draws.

Lemma unlisted_light_slots_unbound_witness :
  uniformManager Samples.renderer = new_UniformManager Samples.program
  /\ List.length (lights Samples.renderer) = 3%nat
  /\ omap bound_name (globalCommands Samples.renderer)
     = ["u_viewMatrix"; "u_projectionMatrix"; "u_cameraPosition"; "u_numLights"]
       ++ lightNames 0
       ++ ["u_useIBL"; "u_iblIntensity"; "u_ambientColor"].
Proof.
  assert (Hum : uniformManager Samples.renderer = new_UniformManager Samples.program)
    by reflexivity.
  assert (H0 : lightName "u_lightTypes" 0
               ∈ List.map name (activeUniforms Samples.program)).
  { apply list_elem_of_In. vm_compute. do 6 right. left. reflexivity. }
  assert (Hrest : forall i, (0 < i < List.length (lights Samples.renderer))%nat ->
            lightName "u_lightTypes" i
            ∉ List.map name (activeUniforms Samples.program)).
  { intros i Hi. simpl in Hi.
    assert (Hcases : i = 1%nat \/ i = 2%nat) by lia.
    destruct Hcases as [-> | ->]; intros H; apply list_elem_of_In in H;
      vm_compute in H; repeat (destruct H as [H|H]; [discriminate H|]); exact H. }
  split; [exact Hum|]. split; [reflexivity|].
  apply (unlisted_light_slots_unbound Samples.renderer Samples.program Hum H0 Hrest).
Defined.

(** ** What the frame reports of a WebGL error *)

Lemma message_names_error :
  message (GLError 1280) = "WebGL error INVALID_ENUM (1280) during: render"
  /\ message (GLError 1285) = "WebGL error OUT_OF_MEMORY (1285) during: render"
  /\ message (GLError 7) = "WebGL error UNKNOWN_ERROR (7) during: render".
Proof. vm_compute. repeat split. Qed.

(** A frame at whose end [gl.getError()] returns [INVALID_OPERATION] logs
    the error and displays it, with its name and its code. *)
Lemma render_reports_error :
  console (render (G := GlMatrix.exact) Samples.renderer Samples.scene_heap
             {| now_render := 16; now_update := 16; gl_status := 1282 |}
             Samples.world).2
  = [ Error "Render error:";
      Error "Render error: WebGL error INVALID_OPERATION (1282) during: render" ].
Proof. vm_compute. reflexivity. Qed.

(** ** The frame on the program of the two shaders *)

Lemma pretty_0 : pretty 0%nat = "0".
Proof. reflexivity. Qed.

Lemma index_closing (i : nat) : pretty i +:+ "]" = "0]" -> i = 0%nat.
Proof.
  intros H. apply (inj pretty). rewrite pretty_0.
  destruct (pretty i) as [|c [|c' s]]; simpl in H.
  - discriminate H.
  - injection H as ->. reflexivity.
  - injection H as _ _ H. destruct s; discriminate H.
Qed.

Lemma light_slot_undeclared (i : nat) (n : string) :
  (1 <= i)%nat -> n ∈ lightNames i -> n ∉ List.map fst declaredUniforms.
Proof.
  intros Hi Hn Hd. unfold lightNames, lightName in Hn.
  repeat (apply elem_of_cons in Hn; destruct Hn as [->|Hn]);
    try (apply elem_of_nil in Hn; contradiction);
    simpl in Hd;
    repeat (apply elem_of_cons in Hd; destruct Hd as [Hd|Hd]);
    try (apply elem_of_nil in Hd; contradiction);
    cbn [String.append] in Hd;
    try discriminate Hd;
    injection Hd as Hd; apply index_closing in Hd; lia.
Qed.

Lemma declared_functional (n : string) (t t' : gltype) :
  (n, t) ∈ declaredUniforms -> (n, t') ∈ declaredUniforms -> t = t'.
Proof.
  assert (Hnd : NoDup (List.map fst declaredUniforms)).
  { apply (bool_decide_unpack _). vm_compute. exact I. }
  revert Hnd. generalize declaredUniforms. intros l.
  induction l as [|[m u] l IH]; intros Hnd H1 H2.
  - apply elem_of_nil in H1. contradiction.
  - simpl in Hnd. apply NoDup_cons in Hnd. destruct Hnd as [Hm Hnd].
    apply elem_of_cons in H1. apply elem_of_cons in H2.
    destruct H1 as [H1|H1], H2 as [H2|H2].
    + congruence.
    + exfalso. apply Hm. injection H1 as -> ->.
      change m with (fst (m, t')). apply list_elem_of_fmap_2, H2.
    + exfalso. apply Hm. injection H2 as -> ->.
      change m with (fst (m, t)). apply list_elem_of_fmap_2, H1.
    + apply IH; assumption.
Qed.

Lemma linked_names (p : WebGLProgram) :
  linked p -> List.map name (activeUniforms p) ≡ₚ List.map fst declaredUniforms.
Proof.
  intros [Hperm _]. rewrite <- Hperm. rewrite List.map_map. reflexivity.
Qed.

Lemma linked_cache (p : WebGLProgram) (n : string) (t : gltype) :
  linked p -> (n, t) ∈ declaredUniforms ->
  uniformLocations (new_UniformManager p) !! n = Some (Some (Location n))
  /\ exists info, uniformInfo (new_UniformManager p) !! n = Some info
                  /\ type info = t.
Proof.
  intros Hp Hin. pose proof (linked_names p Hp) as Hnames.
  destruct Hp as [Hperm Hloc].
  assert (Hn : n ∈ List.map name (activeUniforms p)).
  { rewrite Hnames. change n with (fst (n, t)). apply list_elem_of_fmap_2, Hin. }
  destruct (new_UniformManager_lookup p n) as (_ & Hlisted & _).
  destruct (Hlisted Hn) as (Hl & i & Hinfo & Hi & Hname).
  split.
  - rewrite Hl. unfold getUniformLocation. rewrite <- Hname at 1.
    rewrite (Hloc i Hi). reflexivity.
  - exists i. split; [exact Hinfo|].
    apply (declared_functional n); [|exact Hin].
    rewrite <- Hperm, <- Hname.
    apply (list_elem_of_fmap_2 (fun i => (name i, type i))), Hi.
Qed.

Lemma linked_rest (p : WebGLProgram) (i : nat) :
  linked p -> (1 <= i)%nat ->
  hasUniform (new_UniformManager p) (lightName "u_lightTypes" i) = false.
Proof.
  intros Hp Hi.
  destruct (new_UniformManager_lookup p (lightName "u_lightTypes" i)) as ([Hhas _] & _).
  destruct (hasUniform _ _) eqn:E; [|reflexivity]. exfalso.
  specialize (Hhas eq_refl). rewrite (linked_names p Hp) in Hhas.
  revert Hhas. apply (light_slot_undeclared i); [exact Hi|].
  unfold lightNames. apply elem_of_cons. left. reflexivity.
Qed.

Lemma linked_first (p : WebGLProgram) :
  linked p -> hasUniform (new_UniformManager p) (lightName "u_lightTypes" 0) = true.
Proof.
  intros Hp.
  destruct (new_UniformManager_lookup p (lightName "u_lightTypes" 0)) as ([_ Hhas] & _).
  apply Hhas. rewrite (linked_names p Hp).
  apply list_elem_of_In. simpl. do 6 right. left. reflexivity.
Qed.

Lemma run_binds (um : UniformManager) (env : frame_env) (cmds : list command)
    (cs : list glcall) :
  Forall2 (fun cmd c => forall w, exec um env cmd w
                                  = (Ret tt, World (calls w ++ [c]) (console w)))
    cmds cs ->
  forall w, run um env cmds w = (Ret tt, World (calls w ++ cs) (console w)).
Proof.
  induction 1 as [|cmd c cmds cs Hc _ IH]; intros w; simpl.
  - destruct w. simpl. rewrite app_nil_r. reflexivity.
  - unfold mbind, M_bind. rewrite Hc, IH. simpl. rewrite <- app_assoc. reflexivity.
Qed.

Lemma setUniform_binds (p : WebGLProgram) (n : string) (t : gltype)
    (values : list arg) (c : glcall) :
  linked p -> (n, t) ∈ declaredUniforms ->
  (forall w, dispatch (Location n) t values w
             = (Ret tt, World (calls w ++ [c]) (console w))) ->
  forall w, setUniform (new_UniformManager p) n values w
            = (Ret tt, World (calls w ++ [c]) (console w)).
Proof.
  intros Hp Hin Hd w. destruct (linked_cache p n t Hp Hin) as (Hl & info & Hi & Ht).
  unfold setUniform. rewrite Hl, Hi, Ht. unfold try_catch. rewrite Hd. reflexivity.
Qed.

Ltac declared_name :=
  apply list_elem_of_In; simpl; repeat first [left; reflexivity | right].

Ltac binds_tac Hp :=
  repeat match goal with |- Forall2 _ _ _ => constructor end;
  try (intros ?; reflexivity);
  (intros ?; cbn [exec];
   (eapply setUniform_binds; [exact Hp | declared_name | intros ?; reflexivity])).

Section FirstLight.
Context {G : GlMatrix.Ops}.

(** C6, on the program of the two shaders.  For a renderer whose uniform
    manager was built from a program linked from the two shaders, the calls
    a frame adds to the context are: [clear], [useProgram]; then the view
    matrix, the projection matrix, the camera position and the light count
    (the number of lights of the renderer); then the eight uniforms of the
    first light, if there is a light; then the IBL toggle, intensity and
    ambient colour; then the calls of the object phase, none of which binds
    a global uniform and which hold every draw of the frame.  So the global
    uniforms that are bound are bound before any per-object uniform and any
    draw, and none is rebound; but of the light array only element 0 is
    bound: for every light after the first, no call of the frame writes any
    of its eight uniforms, whatever the number of lights.  [hasUniform]
    looks the name [u_lightTypes[i]] up among the names [getActiveUniform]
    reported, and an array is reported under its element 0 only. *)
Theorem frame_binds_first_light_only (r : PBRRenderer) (h : Js.heap)
    (env : frame_env) (w : world) (p : WebGLProgram) :
  uniformManager r = new_UniformManager p -> linked p ->
  exists new post,
    calls (render r h env w).2 = calls w ++ new
    /\ new
       = [ clear; useProgram;
           uniformMatrix4fv (Location "u_viewMatrix") false
             (ATyped (Cam.getViewMatrix (camera r)));
           uniformMatrix4fv (Location "u_projectionMatrix") false
             (ATyped (Cam.getProjectionMatrix (camera r)));
           uniform3fv (Location "u_cameraPosition")
             (numbers (let p := Cam.getPosition (camera r) in
                      [Glsl.vx p; Glsl.vy p; Glsl.vz p]));
           uniform1i (Location "u_numLights") (ANum (INR (List.length (lights r)))) ]
         ++ match lights r with
            | [] => []
            | l :: _ =>
                [ uniform1i (Location "u_lightTypes[0]") (ANum (l_type l));
                  uniform3fv (Location "u_lightPositions[0]") (numbers (l_position l));
                  uniform3fv (Location "u_lightDirections[0]") (numbers (l_direction l));
                  uniform3fv (Location "u_lightColors[0]") (numbers (l_color l));
                  uniform1f (Location "u_lightIntensities[0]") (ANum (l_intensity l));
                  uniform1f (Location "u_lightRanges[0]") (ANum (l_range l));
                  uniform1f (Location "u_lightInnerCones[0]") (ANum (l_innerCone l));
                  uniform1f (Location "u_lightOuterCones[0]") (ANum (l_outerCone l)) ]
            end
         ++ [ uniform1i (Location "u_useIBL") (ANum (if enabled (ibl r) then 1 else 0));
              uniform1f (Location "u_iblIntensity") (ANum (intensity (ibl r)));
              uniform3fv (Location "u_ambientColor") (numbers (ambientColor (ibl r))) ]
         ++ post
    /\ Forall (fun c => global_call c = false) post
    /\ draws post = omap drawn (rendered r)
    /\ forall i n, (1 <= i)%nat -> n ∈ lightNames i ->
         Forall (fun c => writes n c = false) new.
Proof.
  intros Hum Hp.
  assert (Hs : sound (uniformManager r)).
  { rewrite Hum. intros n l. apply new_UniformManager_sound. }
  set (r1 := advance r env).
  set (um := uniformManager r) in *.
  set (pre :=
         [ clear; useProgram;
           uniformMatrix4fv (Location "u_viewMatrix") false
             (ATyped (Cam.getViewMatrix (camera r)));
           uniformMatrix4fv (Location "u_projectionMatrix") false
             (ATyped (Cam.getProjectionMatrix (camera r)));
           uniform3fv (Location "u_cameraPosition")
             (numbers (let p := Cam.getPosition (camera r) in
                      [Glsl.vx p; Glsl.vy p; Glsl.vz p]));
           uniform1i (Location "u_numLights") (ANum (INR (List.length (lights r)))) ]
         ++ match lights r with
            | [] => []
            | l :: _ =>
                [ uniform1i (Location "u_lightTypes[0]") (ANum (l_type l));
                  uniform3fv (Location "u_lightPositions[0]") (numbers (l_position l));
                  uniform3fv (Location "u_lightDirections[0]") (numbers (l_direction l));
                  uniform3fv (Location "u_lightColors[0]") (numbers (l_color l));
                  uniform1f (Location "u_lightIntensities[0]") (ANum (l_intensity l));
                  uniform1f (Location "u_lightRanges[0]") (ANum (l_range l));
                  uniform1f (Location "u_lightInnerCones[0]") (ANum (l_innerCone l));
                  uniform1f (Location "u_lightOuterCones[0]") (ANum (l_outerCone l)) ]
            end
         ++ [ uniform1i (Location "u_useIBL") (ANum (if enabled (ibl r) then 1 else 0));
              uniform1f (Location "u_iblIntensity") (ANum (intensity (ibl r)));
              uniform3fv (Location "u_ambientColor") (numbers (ambientColor (ibl r))) ]).
  assert (Hpre : forall w0,
             run um env ([Clear; UseProgram] ++ globalCommands r1) w0
             = (Ret tt, World (calls w0 ++ pre) (console w0))).
  { apply run_binds. unfold globalCommands, pre.
    change (lights r1) with (lights r). change (camera r1) with (camera r).
    change (ibl r1) with (ibl r). change (uniformManager r1) with um.
    subst um. rewrite Hum.
    destruct (lights r) as [|l ls].
    - simpl. binds_tac Hp.
    - rewrite imap_cons. simpl concat.
      rewrite (concat_imap_nil _ ls).
      2:{ intros i x _. unfold compose, lightCommands.
          rewrite (linked_rest p (S i) Hp) by lia. reflexivity. }
      unfold lightCommands. rewrite (linked_first p Hp).
      simpl. binds_tac Hp. }
  assert (Hpost : emits (fun c => global_call c = false)
                    (run um env (sceneCommands r1 h ++ [CheckGLError]))).
  { apply emits_run. apply Forall_app. split.
    - eapply Forall_impl; [apply sceneCommands_object|].
      intros c Hc. apply emits_object_command; assumption.
    - repeat constructor. simpl. unfold checkGLError.
      apply emits_bind; [apply emits_gl; reflexivity|intros _].
      destruct (gl_status env =? 0)%nat; [apply emits_ret|apply emits_throw]. }
  destruct (Hpost (World (calls w ++ pre) (console w))) as (post & Hcalls & HQ).
  simpl in Hcalls.
  assert (Hall : calls (render r h env w).2 = calls w ++ pre ++ post).
  { rewrite render_calls. fold um r1. unfold frameCommands.
    replace ([Clear; UseProgram] ++ globalCommands r1 ++ sceneCommands r1 h
             ++ [CheckGLError])
      with (([Clear; UseProgram] ++ globalCommands r1)
            ++ (sceneCommands r1 h ++ [CheckGLError]))
      by (rewrite <- app_assoc; reflexivity).
    rewrite run_app. unfold mbind at 1, M_bind at 1. rewrite Hpre.
    rewrite Hcalls, app_assoc. reflexivity. }
  exists (pre ++ post), post.
  split; [exact Hall|].
  split; [unfold pre; rewrite <- !app_assoc; reflexivity|].
  split; [exact HQ|]. split.
  - pose proof (render_draws r h env w) as Hd.
    rewrite Hall, !draws_app in Hd.
    assert (Hnone : draws pre = []) by (unfold pre; destruct (lights r); reflexivity).
    rewrite Hnone in Hd. simpl in Hd. apply app_inv_head in Hd. exact Hd.
  - intros i n Hi Hn. pose proof (light_slot_undeclared i n Hi Hn) as Hfresh.
    apply Forall_app. split.
    + unfold pre. destruct (lights r) as [|l ls]; simpl;
        repeat constructor;
        apply bool_decide_eq_false; simpl; intros <-; apply Hfresh; declared_name.
    + eapply Forall_impl; [exact HQ|]. intros c Hc.
      apply not_global_call_writes; [|exact Hc].
      pose proof (is_global_lightName i) as Hg. rewrite Forall_forall in Hg.
      apply Hg, Hn.
Qed.

End FirstLight.

Lemma linked_program : linked Samples.program.
Proof. split; [reflexivity|]. intros i _. reflexivity. Qed.

Lemma frame_binds_first_light_only_witness :
  uniformManager Samples.renderer = new_UniformManager Samples.program
  /\ linked Samples.program
  /\ List.length (lights Samples.renderer) = 3%nat
  /\ exists new,
       calls (render (G := GlMatrix.exact) Samples.renderer Samples.scene_heap
                Samples.frame Samples.world).2
       = calls Samples.world ++ new
       /\ In (uniform1i (Location "u_numLights") (ANum (INR 3))) new
       /\ In (uniform3fv (Location "u_lightPositions[0]") (numbers [0; 0; 0])) new
       /\ draws new = [36%nat]
       /\ Forall (fun c => writes "u_lightPositions[1]" c = false) new
       /\ Forall (fun c => writes "u_lightColors[2]" c = false) new.
Proof.
  assert (Hum : uniformManager Samples.renderer = new_UniformManager Samples.program)
    by reflexivity.
  split; [exact Hum|]. split; [exact linked_program|]. split; [reflexivity|].
  destruct (frame_binds_first_light_only (G := GlMatrix.exact) Samples.renderer
              Samples.scene_heap Samples.frame Samples.world Samples.program
              Hum linked_program)
    as (new & post & Hcalls & Hnew & _ & Hdraws & Hslots).
  exists new. split; [exact Hcalls|].
  split; [rewrite Hnew; simpl; do 5 right; left; reflexivity|].
  split; [rewrite Hnew; simpl; do 7 right; left; reflexivity|].
  split.
  - rewrite Hnew. simpl. exact Hdraws.
  - split.
    + apply (Hslots 1%nat); [lia|]. apply list_elem_of_In. simpl.
      right. left. reflexivity.
    + apply (Hslots 2%nat); [lia|]. apply list_elem_of_In. simpl.
      do 3 right. left. reflexivity.
Defined.

End GlFacts.

(* ===================================================================== *)
(** * Properties of the generated geometry *)
(* ===================================================================== *)

Module MeshFacts.
Import MeshJs.
Local Open Scope R_scope.

Lemma flat_map_Forall {A B} (P : B -> Prop) (f : A -> list B) (l : list A) :
  (forall x, In x l -> Forall P (f x)) -> Forall P (flat_map f l).
Proof.
  intros H. apply Forall_flat_map. apply List.Forall_forall. exact H.
Qed.

(** The chunk of index [k] of a list made of chunks of the same length. *)
Lemma flat_map_chunk {A} (f : nat -> list A) (n : nat) :
  (forall i, List.length (f i) = n) ->
  forall m a k, (k < m)%nat ->
    exists rest, drop (k * n) (flat_map f (seq a m)) = f (a + k)%nat ++ rest.
Proof.
  intros Hlen. induction m as [|m IH]; intros a k Hk; [lia|].
  simpl. destruct k as [|k].
  - simpl. rewrite Nat.add_0_r. eexists. reflexivity.
  - destruct (IH (S a) k ltac:(lia)) as [rest Hrest].
    exists rest. simpl.
    rewrite drop_app_add' by (symmetry; apply Hlen).
    rewrite Hrest. f_equal. f_equal. lia.
Qed.

Lemma sphereVertex_length (radius : R) (segments lat lon : nat) :
  List.length (sphereVertex radius segments lat lon) = 8%nat.
Proof. reflexivity. Qed.

Lemma sphereRow_length (radius : R) (segments lat : nat) :
  List.length (flat_map (sphereVertex radius segments lat) (seq 0 (S segments)))
  = (S segments * 8)%nat.
Proof.
  rewrite (flat_map_constant_length (c := 8)) by (intros; reflexivity).
  rewrite length_seq. reflexivity.
Qed.

Lemma sphereQuad_in_range (segments lat lon : nat) :
  (lat < segments)%nat -> (lon < segments)%nat ->
  Forall (fun i => (i < (segments + 1) * (segments + 1))%nat)
         (sphereQuad segments lat lon).
Proof.
  intros Hlat Hlon. unfold sphereQuad.
  assert (H : (lat * (segments + 1) + lon + segments + 1 + 1
               < (segments + 1) * (segments + 1))%nat) by nia.
  repeat constructor; lia.
Qed.

Lemma sphereIndices_in_range (segments : nat) :
  Forall (fun i => (i < (segments + 1) * (segments + 1))%nat) (sphereIndices segments).
Proof.
  unfold sphereIndices. apply flat_map_Forall. intros lat Hlat.
  apply flat_map_Forall. intros lon Hlon.
  apply in_seq in Hlat. apply in_seq in Hlon.
  apply sphereQuad_in_range; lia.
Qed.

Lemma sphereIndices_length (segments : nat) :
  List.length (sphereIndices segments) = (6 * segments * segments)%nat.
Proof.
  unfold sphereIndices.
  rewrite (flat_map_constant_length (c := (segments * 6)%nat)).
  - rewrite length_seq. lia.
  - intros lat _. rewrite (flat_map_constant_length (c := 6)) by (intros; reflexivity).
    rewrite length_seq. reflexivity.
Qed.

Lemma Uint16Array_small (indices : list nat) :
  Forall (fun i => (Z.of_nat i < 65536)%Z) indices -> Uint16Array indices = indices.
Proof.
  unfold Uint16Array. induction 1 as [|i l Hi _ IH]; [reflexivity|].
  cbn [List.map]. rewrite IH. f_equal.
  rewrite Z.mod_small by lia. apply Nat2Z.id.
Qed.

Lemma Uint16Array_fixed (indices : list nat) (i : nat) :
  Uint16Array indices = indices -> In i indices -> (Z.of_nat i < 65536)%Z.
Proof.
  unfold Uint16Array. induction indices as [|j l IH]; intros Heq Hin; [destruct Hin|].
  cbn [List.map] in Heq. injection Heq as Hj Hl.
  destruct Hin as [->|Hin]; [|apply IH; assumption].
  pose proof (Z.mod_pos_bound (Z.of_nat i) 65536 ltac:(lia)) as Hb.
  rewrite <- Hj at 1. rewrite Z2Nat.id by lia. lia.
Qed.

(** [createSphere] gives [(segments + 1)^2] vertices and [6 segments^2]
    indices, which is the index count of the mesh; every index designates
    one of the vertices; and the conversion to 16-bit indices keeps them as
    they are exactly when [segments] is at most 255. *)
Theorem sphere_indices_in_range (hs : handles) (radius : R) (segments : nat) :
  List.length (sphereVertices radius segments)
  = (8 * ((segments + 1) * (segments + 1)))%nat
  /\ Scene.indexCount (createSphere hs radius segments) = (6 * segments * segments)%nat
  /\ Forall (fun i => (i < (segments + 1) * (segments + 1))%nat) (sphereIndices segments)
  /\ (Uint16Array (sphereIndices segments) = sphereIndices segments
      <-> (segments <= 255)%nat).
Proof.
  split.
  { unfold sphereVertices.
    rewrite (flat_map_constant_length (c := (S segments * 8)%nat))
      by (intros; apply sphereRow_length).
    rewrite length_seq. lia. }
  split.
  { unfold createSphere, loadFromData, Uint16Array. simpl.
    rewrite length_map. apply sphereIndices_length. }
  split; [apply sphereIndices_in_range|].
  split.
  - intros Hfix. destruct (le_gt_dec segments 255) as [Hle|Hgt]; [exact Hle|].
    exfalso.
    assert (Hin : In ((segments - 1) * (segments + 1) + (segments - 1) + segments + 1 + 1)%nat
                     (sphereIndices segments)).
    { unfold sphereIndices. apply in_flat_map. exists (segments - 1)%nat.
      split; [apply in_seq; lia|].
      apply in_flat_map. exists (segments - 1)%nat.
      split; [apply in_seq; lia|].
      unfold sphereQuad. do 4 right. left. reflexivity. }
    apply (Uint16Array_fixed _ _ Hfix) in Hin. nia.
  - intros Hle. apply Uint16Array_small.
    eapply Forall_impl; [apply sphereIndices_in_range|].
    intros i Hi. simpl in Hi. nia.
Qed.

Lemma sphere_indices_in_range_witness :
  Uint16Array (sphereIndices 32) = sphereIndices 32.
Proof.
  destruct (sphere_indices_in_range (Build_handles None None None) 1 32)
    as (_ & _ & _ & H).
  apply H. lia.
Defined.

(** For at least one segment, the vertex of index [lat (segments + 1) + lon]
    of [createSphere] (the index its triangles use for that latitude and
    longitude) has a unit normal, a position that is the radius times the
    normal, so at distance [|radius|] of the origin, and texture
    coordinates within [[0, 1]]. *)
Theorem sphere_vertices_on_sphere (radius : R) (segments lat lon : nat) :
  (0 < segments)%nat -> (lat <= segments)%nat -> (lon <= segments)%nat ->
  exists x y z u v,
    vertexAt (sphereVertices radius segments) (lat * (segments + 1) + lon)
    = [radius * x; radius * y; radius * z; x; y; z; u; v]
    /\ x * x + y * y + z * z = 1
    /\ 0 <= u <= 1 /\ 0 <= v <= 1.
Proof.
  intros Hs Hlat Hlon.
  set (theta := INR lat * PI / INR segments).
  set (phi := INR lon * 2 * PI / INR segments).
  exists (cos phi * sin theta), (cos theta), (sin phi * sin theta),
         (1 - INR lon / INR segments), (1 - INR lat / INR segments).
  split.
  - unfold vertexAt, sphereVertices.
    destruct (flat_map_chunk
                (fun lat => flat_map (sphereVertex radius segments lat)
                              (seq 0 (S segments)))
                (S segments * 8) (sphereRow_length radius segments)
                (S segments) 0%nat lat ltac:(lia)) as [rest Hrow].
    destruct (flat_map_chunk (sphereVertex radius segments lat) 8
                (sphereVertex_length radius segments lat)
                (S segments) 0%nat lon ltac:(lia)) as [rest' Hv].
    replace (8 * (lat * (segments + 1) + lon))%nat
      with (lat * (S segments * 8) + lon * 8)%nat by lia.
    rewrite <- drop_drop, Hrow. simpl (0 + lat)%nat.
    rewrite drop_app_le
      by (rewrite sphereRow_length; lia).
    rewrite Hv. simpl (0 + lon)%nat.
    rewrite <- app_assoc. reflexivity.
  - assert (Hpos : 0 < INR segments) by (apply lt_0_INR; exact Hs).
    assert (H0lat : 0 <= INR lat) by apply pos_INR.
    assert (H0lon : 0 <= INR lon) by apply pos_INR.
    assert (Hlat' : INR lat <= INR segments) by (apply le_INR; exact Hlat).
    assert (Hlon' : INR lon <= INR segments) by (apply le_INR; exact Hlon).
    assert (Hfrac : forall a, 0 <= a <= INR segments -> 0 <= 1 - a / INR segments <= 1).
    { intros a [Ha0 Ha1].
      assert (0 <= a / INR segments).
      { unfold Rdiv. apply Rmult_le_pos; [lra|].
        left. apply Rinv_0_lt_compat. exact Hpos. }
      assert (a / INR segments <= 1).
      { apply Rmult_le_reg_r with (r := INR segments); [exact Hpos|].
        unfold Rdiv. rewrite Rmult_assoc, Rinv_l by lra. lra. }
      lra. }
    split; [|split; apply Hfrac; split; assumption].
    pose proof (sin2_cos2 theta) as Ht. pose proof (sin2_cos2 phi) as Hp.
    unfold Rsqr in Ht, Hp.
    replace (cos phi * sin theta * (cos phi * sin theta) + cos theta * cos theta
             + sin phi * sin theta * (sin phi * sin theta))
      with (sin theta * sin theta * (sin phi * sin phi + cos phi * cos phi)
            + cos theta * cos theta) by ring.
    rewrite Hp. lra.
Qed.

Lemma sphere_vertices_on_sphere_witness :
  (0 < 32)%nat /\ (16 <= 32)%nat /\ (8 <= 32)%nat
  /\ exists x y z u v,
       vertexAt (sphereVertices 1 32) (16 * (32 + 1) + 8)
       = [1 * x; 1 * y; 1 * z; x; y; z; u; v]
       /\ x * x + y * y + z * z = 1.
Proof.
  assert (H0 : (0 < 32)%nat) by lia.
  assert (H1 : (16 <= 32)%nat) by lia.
  assert (H2 : (8 <= 32)%nat) by lia.
  split; [exact H0|]. split; [exact H1|]. split; [exact H2|].
  destruct (sphere_vertices_on_sphere 1 32 16 8 H0 H1 H2)
    as (x & y & z & u & v & Hv & Hn & _).
  exists x, y, z, u, v. split; [exact Hv|exact Hn].
Defined.

Lemma ringVertices_length (radius height : R) (segments i : nat) :
  List.length (ringVertices radius height segments i) = 32%nat.
Proof. reflexivity. Qed.

(** [createCylinder] gives [4 (segments + 1) + 2] vertices and
    [12 segments] indices, which is the index count of the mesh, and every
    index designates one of the vertices.  The side triangles use the side
    vertices of the rings 0 to [segments - 1] only: the ring of index
    [segments], which closes the circle with texture coordinate [u = 1], is
    not among them. *)
Theorem cylinder_indices_in_range (hs : handles) (radius height : R)
    (segments : nat) :
  List.length (cylinderVertices radius height segments)
  = (8 * (4 * (segments + 1) + 2))%nat
  /\ Scene.indexCount (createCylinder hs radius height segments) = (12 * segments)%nat
  /\ Forall (fun i => (i < 4 * (segments + 1) + 2)%nat) (cylinderIndices segments)
  /\ Forall (fun i => (i < 4 * segments)%nat)
            (flat_map (sideIndices segments) (seq 0 segments)).
Proof.
  assert (Hside : Forall (fun i => (i < 4 * segments)%nat)
                         (flat_map (sideIndices segments) (seq 0 segments))).
  { apply flat_map_Forall. intros i Hi. apply in_seq in Hi.
    assert (Hmod : ((i + 1) mod segments < segments)%nat)
      by (apply Nat.mod_upper_bound; lia).
    unfold sideIndices. repeat constructor; lia. }
  assert (Hlen : List.length (cylinderIndices segments) = (12 * segments)%nat).
  { unfold cylinderIndices. rewrite !length_app.
    rewrite (flat_map_constant_length (c := 6)) by (intros; reflexivity).
    rewrite !(flat_map_constant_length (c := 3)) by (intros; reflexivity).
    rewrite length_seq. lia. }
  split.
  { unfold cylinderVertices. rewrite !length_app.
    rewrite (flat_map_constant_length (c := 32)) by (intros; reflexivity).
    rewrite length_seq. simpl List.length. lia. }
  split.
  { unfold createCylinder, loadFromData, Uint16Array. simpl.
    rewrite length_map. exact Hlen. }
  split; [|exact Hside].
  unfold cylinderIndices. repeat (apply Forall_app; split).
  - eapply Forall_impl; [exact Hside|]. intros i Hi. simpl in Hi. lia.
  - apply flat_map_Forall. intros i Hi. apply in_seq in Hi.
    unfold topIndices. repeat constructor; lia.
  - apply flat_map_Forall. intros i Hi. apply in_seq in Hi.
    unfold bottomIndices. repeat constructor; lia.
Qed.

(** After [dispose] the mesh holds no handle: [render] draws nothing and
    only warns that the mesh is not loaded, and a second [dispose] deletes
    nothing.  [dispose] deletes each handle the mesh held, once. *)
Theorem dispose_then_render (m : Scene.Mesh) (w : Gl.world) :
  let m' := (dispose m).1 in
  Gl.Mesh_render m' w
  = (Gl.Ret tt, Gl.World (Gl.calls w) (Gl.console w ++ [Gl.Warn "Mesh not loaded"]))
  /\ Gl.drawn (Some m') = None
  /\ dispose m' = (m', [])
  /\ (dispose m).2
     = omap (fun v => deleteVertexArray <$> v) [Scene.vertexArray m]
       ++ omap (fun b => deleteBuffer <$> b) [Scene.vertexBuffer m; Scene.indexBuffer m].
Proof.
  simpl. repeat split.
  unfold dispose. simpl.
  destruct (Scene.vertexArray m), (Scene.vertexBuffer m), (Scene.indexBuffer m);
    reflexivity.
Qed.

End MeshFacts.

(* ===================================================================== *)
(** * Properties of the material editor *)
(* ===================================================================== *)

Module EditorFacts.
Import Editor.
Local Open Scope R_scope.

Lemma applyPreset_overwrite (h : Js.heap) (l : Js.loc) (p : preset) :
  applyPreset h l p
  = overwrite h l (p_albedo p) (Js.VNum (p_metallic p)) (Js.VNum (p_roughness p))
      (Js.VNum (p_ao p)).
Proof. reflexivity. Qed.

Lemma copyMaterial_overwrite (h : Js.heap) (src : Js.material) (l : Js.loc)
    (xs : list R) :
  Js.deref_array h (Js.albedo src) = Some xs ->
  copyMaterial h src l
  = Some (overwrite h l xs (Js.metallic src) (Js.roughness src) (Js.ao src)).
Proof. intros H. unfold copyMaterial. rewrite H. reflexivity. Qed.

Lemma assign_field_material (h : Js.heap) (l : Js.loc) (f : Js.field) (v : Js.value)
    (m : Js.material) :
  h !! l = Some (Js.CMaterial m) ->
  Js.assign_field h l f v = <[l := Js.CMaterial (Js.set_field m f v)]> h.
Proof. intros H. unfold Js.assign_field. rewrite H. reflexivity. Qed.

Lemma assign_field_other (h : Js.heap) (l : Js.loc) (f : Js.field) (v : Js.value) :
  (forall m, h !! l <> Some (Js.CMaterial m)) -> Js.assign_field h l f v = h.
Proof.
  intros H. unfold Js.assign_field.
  destruct (h !! l) as [[ys|m]|]; try reflexivity.
  exfalso. apply (H m). reflexivity.
Qed.

(** What the five statements come to. *)
Lemma overwrite_spec (h : Js.heap) (l : Js.loc) (xs : list R) (vm vr va : Js.value) :
  overwrite h l xs vm vr va
  = match h !! l with
    | Some (Js.CMaterial _) =>
        <[l := Js.CMaterial (Js.Material (Js.VRef (List.length h)) vm vr va)]>
          (h ++ [Js.CArray xs])
    | _ => h ++ [Js.CArray xs]
    end.
Proof.
  unfold overwrite, Js.alloc.
  destruct (h !! l) as [[ys|m]|] eqn:Hl.
  - assert (Hl' : forall m, (h ++ [Js.CArray xs]) !! l <> Some (Js.CMaterial m)).
    { intros m. rewrite (lookup_app_l_Some _ _ _ _ Hl). discriminate. }
    repeat rewrite (assign_field_other (h ++ [Js.CArray xs]) l _ _ Hl'). reflexivity.
  - assert (Hlt : (l < List.length (h ++ [Js.CArray xs]))%nat).
    { apply lookup_lt_Some in Hl. rewrite length_app. simpl. lia. }
    assert (Hl' : (h ++ [Js.CArray xs]) !! l = Some (Js.CMaterial m))
      by (apply lookup_app_l_Some, Hl).
    rewrite (assign_field_material _ _ _ _ _ Hl').
    rewrite (assign_field_material _ l Js.FMetallic vm
               (Js.set_field m Js.FAlbedo (Js.VRef (List.length h))))
      by (apply list_lookup_insert_eq, Hlt).
    rewrite list_insert_insert_eq.
    rewrite (assign_field_material _ l Js.FRoughness vr
               (Js.set_field (Js.set_field m Js.FAlbedo (Js.VRef (List.length h)))
                  Js.FMetallic vm))
      by (apply list_lookup_insert_eq, Hlt).
    rewrite list_insert_insert_eq.
    rewrite (assign_field_material _ l Js.FAo va
               (Js.set_field
                  (Js.set_field (Js.set_field m Js.FAlbedo (Js.VRef (List.length h)))
                     Js.FMetallic vm) Js.FRoughness vr))
      by (apply list_lookup_insert_eq, Hlt).
    rewrite list_insert_insert_eq. reflexivity.
  - apply lookup_ge_None in Hl.
    assert (Hl' : forall m, (h ++ [Js.CArray xs]) !! l <> Some (Js.CMaterial m)).
    { intros m Hm. apply lookup_snoc_Some in Hm.
      destruct Hm as [[Hlt _]|[_ Hm]]; [lia|discriminate]. }
    repeat rewrite (assign_field_other (h ++ [Js.CArray xs]) l _ _ Hl'). reflexivity.
Qed.

(** [overwrite] keeps every cell but the material it assigns to. *)
Lemma overwrite_other (h : Js.heap) (l : Js.loc) (xs : list R) (vm vr va : Js.value)
    (k : Js.loc) (c : Js.cell) :
  h !! k = Some c -> (k <> l \/ forall m, c <> Js.CMaterial m) ->
  overwrite h l xs vm vr va !! k = Some c.
Proof.
  intros Hk Hne. rewrite overwrite_spec.
  destruct (h !! l) as [[ys|m]|] eqn:Hl; try (apply lookup_app_l_Some, Hk).
  assert (Hkl : l <> k).
  { intros ->. rewrite Hk in Hl. injection Hl as ->.
    destruct Hne as [Hne|Hne]; [apply Hne; reflexivity|apply (Hne m); reflexivity]. }
  rewrite list_lookup_insert_ne by exact Hkl. apply lookup_app_l_Some, Hk.
Qed.

Lemma overwrite_is_material (h : Js.heap) (l : Js.loc) (xs : list R)
    (vm vr va : Js.value) (k : Js.loc) :
  is_material h k -> is_material (overwrite h l xs vm vr va) k.
Proof.
  intros [m Hk]. rewrite overwrite_spec.
  destruct (h !! l) as [[ys|m']|] eqn:Hl;
    try (exists m; apply lookup_app_l_Some, Hk).
  destruct (decide (l = k)) as [->|Hne].
  - eexists. apply list_lookup_insert_eq.
    apply lookup_lt_Some in Hk. rewrite length_app. simpl. lia.
  - exists m. rewrite list_lookup_insert_ne by exact Hne.
    apply lookup_app_l_Some, Hk.
Qed.

Lemma overwrite_owns (h : Js.heap) (l : Js.loc) (xs : list R) (vm vr va : Js.value) :
  is_material h l ->
  owns (overwrite h l xs vm vr va) l (List.length h) xs vm vr va.
Proof.
  intros [m Hl]. rewrite overwrite_spec, Hl.
  assert (Hlt : (l < List.length h)%nat) by (apply lookup_lt_Some in Hl; exact Hl).
  split.
  - apply list_lookup_insert_eq. rewrite length_app. simpl. lia.
  - rewrite list_lookup_insert_ne by lia. apply list_lookup_middle. reflexivity.
Qed.

Lemma owns_keeps (h : Js.heap) (l : Js.loc) (xs : list R) (vm vr va : Js.value)
    (k a : Js.loc) (ys : list R) (wm wr wa : Js.value) :
  k <> l -> owns h k a ys wm wr wa ->
  owns (overwrite h l xs vm vr va) k a ys wm wr wa.
Proof.
  intros Hne [Hk Ha]. split.
  - apply overwrite_other; [exact Hk|left; exact Hne].
  - apply overwrite_other; [exact Ha|right; discriminate].
Qed.

Lemma owns_ref (h : Js.heap) (l a b : Js.loc) (xs ys : list R)
    (vm vr va wm wr wa : Js.value) :
  owns h l a xs vm vr va -> owns h l b ys wm wr wa -> a = b.
Proof. intros [H1 _] [H2 _]. rewrite H1 in H2. congruence. Qed.

Lemma owns_view (h : Js.heap) (l a : Js.loc) (xs : list R) (vm vr va : Js.value) :
  owns h l a xs vm vr va ->
  Js.view h l = Some (Js.MaterialView (Some xs) vm vr va).
Proof.
  intros [Hl Ha]. unfold Js.view. rewrite Hl. simpl. rewrite Ha. reflexivity.
Qed.

(** One more material overwritten: it joins those that are separate. *)
Lemma separate_step (h : Js.heap) (ls : list Js.loc) (l : Js.loc) (xs : list R)
    (vm vr va : Js.value) :
  is_material h l -> separate h ls xs vm vr va ->
  separate (overwrite h l xs vm vr va) (l :: ls) xs vm vr va.
Proof.
  intros Hl [Hown Hinj].
  pose proof (overwrite_owns h l xs vm vr va Hl) as Hnew.
  assert (Hold : forall k, k ∈ ls -> k <> l ->
            exists a, owns h k a xs vm vr va
                      /\ owns (overwrite h l xs vm vr va) k a xs vm vr va
                      /\ (a < List.length h)%nat).
  { intros k Hk Hne. destruct (Hown k Hk) as [a Ha]. exists a.
    split; [exact Ha|]. split; [apply owns_keeps; assumption|].
    destruct Ha as [_ Ha]. apply lookup_lt_Some in Ha. exact Ha. }
  split.
  - intros k Hk. destruct (decide (k = l)) as [->|Hne]; [eexists; exact Hnew|].
    apply elem_of_cons in Hk. destruct Hk as [->|Hk]; [contradiction|].
    destruct (Hold k Hk Hne) as (a & _ & Ha & _). exists a. exact Ha.
  - intros l1 l2 a H1 H2 Ho1 Ho2.
    destruct (decide (l1 = l)) as [->|Hne1], (decide (l2 = l)) as [->|Hne2];
      try reflexivity.
    + apply elem_of_cons in H2. destruct H2 as [->|H2]; [contradiction|].
      destruct (Hold l2 H2 Hne2) as (b & _ & Hb & Hlt).
      pose proof (owns_ref _ _ _ _ _ _ _ _ _ _ _ _ Ho1 Hnew).
      pose proof (owns_ref _ _ _ _ _ _ _ _ _ _ _ _ Ho2 Hb). lia.
    + apply elem_of_cons in H1. destruct H1 as [->|H1]; [contradiction|].
      destruct (Hold l1 H1 Hne1) as (b & _ & Hb & Hlt).
      pose proof (owns_ref _ _ _ _ _ _ _ _ _ _ _ _ Ho2 Hnew).
      pose proof (owns_ref _ _ _ _ _ _ _ _ _ _ _ _ Ho1 Hb). lia.
    + apply elem_of_cons in H1. destruct H1 as [->|H1]; [contradiction|].
      apply elem_of_cons in H2. destruct H2 as [->|H2]; [contradiction|].
      destruct (Hold l1 H1 Hne1) as (b1 & Hb1 & Hb1' & _).
      destruct (Hold l2 H2 Hne2) as (b2 & Hb2 & Hb2' & _).
      pose proof (owns_ref _ _ _ _ _ _ _ _ _ _ _ _ Ho1 Hb1'). subst b1.
      pose proof (owns_ref _ _ _ _ _ _ _ _ _ _ _ _ Ho2 Hb2'). subst b2.
      apply (Hinj l1 l2 a); assumption.
Qed.

Lemma separate_fold (p : preset) (objects : list Scene.SceneObject) :
  forall (h : Js.heap) (done : list Js.loc),
    Forall (is_material h) (List.map Scene.material objects) ->
    separate h done (p_albedo p) (Js.VNum (p_metallic p)) (Js.VNum (p_roughness p))
      (Js.VNum (p_ao p)) ->
    separate (fold_left (fun h o => applyPreset h (Scene.material o) p) objects h)
      (rev (List.map Scene.material objects) ++ done)
      (p_albedo p) (Js.VNum (p_metallic p)) (Js.VNum (p_roughness p))
      (Js.VNum (p_ao p)).
Proof.
  induction objects as [|o objects IH]; intros h done Hall Hsep; simpl; [exact Hsep|].
  apply Forall_cons in Hall. destruct Hall as [Ho Hall].
  rewrite <- app_assoc. simpl. apply IH.
  - eapply Forall_impl; [exact Hall|]. intros k Hk.
    rewrite applyPreset_overwrite. apply overwrite_is_material, Hk.
  - rewrite applyPreset_overwrite. apply separate_step; assumption.
Qed.

Lemma loadPreset_separate (h : Js.heap) (rendererMaterial : Js.loc)
    (objects : list Scene.SceneObject) (p : preset) :
  Forall (is_material h) (rendererMaterial :: List.map Scene.material objects) ->
  separate (loadPreset h rendererMaterial objects p)
    (rendererMaterial :: List.map Scene.material objects)
    (p_albedo p) (Js.VNum (p_metallic p)) (Js.VNum (p_roughness p))
    (Js.VNum (p_ao p)).
Proof.
  intros Hall. apply Forall_cons in Hall. destruct Hall as [Hr Hall].
  unfold loadPreset.
  assert (Hsep : separate
            (fold_left (fun h o => applyPreset h (Scene.material o) p) objects
               (applyPreset h rendererMaterial p))
            (rev (List.map Scene.material objects) ++ [rendererMaterial])
            (p_albedo p) (Js.VNum (p_metallic p)) (Js.VNum (p_roughness p))
            (Js.VNum (p_ao p))).
  { apply separate_fold.
    - eapply Forall_impl; [exact Hall|]. intros k Hk.
      rewrite applyPreset_overwrite. apply overwrite_is_material, Hk.
    - rewrite applyPreset_overwrite. apply separate_step; [exact Hr|].
      split; [intros l Hl; apply elem_of_nil in Hl; contradiction|].
      intros l1 l2 a Hl1. apply elem_of_nil in Hl1. contradiction. }
  assert (Hmem : forall l, l ∈ rendererMaterial :: List.map Scene.material objects ->
                           l ∈ rev (List.map Scene.material objects) ++ [rendererMaterial]).
  { intros l Hl. apply elem_of_app. apply elem_of_cons in Hl.
    destruct Hl as [->|Hl]; [right; left|left].
    apply list_elem_of_In. rewrite <- in_rev. apply list_elem_of_In. exact Hl. }
  destruct Hsep as [Hown Hinj]. split.
  - intros l Hl. apply Hown, Hmem, Hl.
  - intros l1 l2 a H1 H2. apply Hinj; apply Hmem; assumption.
Qed.

(** A write to a component of one material's albedo leaves a material with
    another albedo array as it is seen. *)
Lemma assign_albedo_component_other (h : Js.heap) (l1 l2 a1 a2 : Js.loc)
    (xs ys : list R) (vm vr va wm wr wa : Js.value) (i : nat) (x : R) :
  owns h l1 a1 xs vm vr va -> owns h l2 a2 ys wm wr wa -> a1 <> a2 ->
  Js.view (Js.assign_albedo_component h l1 i x) l1
  = Some (Js.MaterialView (Some (Js.array_set xs i x)) vm vr va)
  /\ Js.view (Js.assign_albedo_component h l1 i x) l2
     = Some (Js.MaterialView (Some ys) wm wr wa).
Proof.
  intros [H1 Ha1] [H2 Ha2] Hne.
  unfold Js.assign_albedo_component. rewrite H1. simpl. rewrite Ha1.
  assert (Hl1 : a1 <> l1) by (intros ->; rewrite H1 in Ha1; discriminate).
  assert (Hl2 : a1 <> l2) by (intros ->; rewrite H2 in Ha1; discriminate).
  unfold Js.view.
  rewrite !list_lookup_insert_ne by assumption. rewrite H1, H2. simpl.
  rewrite list_lookup_insert_eq by (apply lookup_lt_Some in Ha1; exact Ha1).
  rewrite (list_lookup_insert_ne h a1 a2) by exact Hne. rewrite Ha2.
  split; reflexivity.
Qed.

(** After [loadPreset], the renderer's material and the material of every
    scene object read as the preset: its albedo, metallic, roughness and
    ao. *)
Theorem loadPreset_applies (h : Js.heap) (rendererMaterial : Js.loc)
    (objects : list Scene.SceneObject) (p : preset) (l : Js.loc) :
  Forall (is_material h) (rendererMaterial :: List.map Scene.material objects) ->
  l ∈ rendererMaterial :: List.map Scene.material objects ->
  Js.view (loadPreset h rendererMaterial objects p) l = Some (preset_view p).
Proof.
  intros Hall Hl.
  destruct (loadPreset_separate h rendererMaterial objects p Hall) as [Hown _].
  destruct (Hown l Hl) as [a Ha]. apply (owns_view _ _ _ _ _ _ _ Ha).
Qed.

(** After [loadPreset] no two materials share an albedo array, whatever
    they shared before: a write to a component of the albedo of one of them
    shows in that material and leaves every other one reading as the
    preset. *)
Theorem loadPreset_unshares (h : Js.heap) (rendererMaterial : Js.loc)
    (objects : list Scene.SceneObject) (p : preset) (l1 l2 : Js.loc)
    (i : nat) (x : R) :
  Forall (is_material h) (rendererMaterial :: List.map Scene.material objects) ->
  l1 ∈ rendererMaterial :: List.map Scene.material objects ->
  l2 ∈ rendererMaterial :: List.map Scene.material objects ->
  l1 <> l2 ->
  let h' := Js.assign_albedo_component (loadPreset h rendererMaterial objects p) l1 i x in
  Js.view h' l1
  = Some (Js.MaterialView (Some (Js.array_set (p_albedo p) i x))
            (Js.VNum (p_metallic p)) (Js.VNum (p_roughness p)) (Js.VNum (p_ao p)))
  /\ Js.view h' l2 = Some (preset_view p).
Proof.
  intros Hall H1 H2 Hne.
  destruct (loadPreset_separate h rendererMaterial objects p Hall) as [Hown Hinj].
  destruct (Hown l1 H1) as [a1 Ha1]. destruct (Hown l2 H2) as [a2 Ha2].
  apply (assign_albedo_component_other _ _ _ _ _ _ _ _ _ _ _ _ _ _ _ Ha1 Ha2).
  intros ->. apply Hne. apply (Hinj l1 l2 a2); assumption.
Qed.

Lemma loadPreset_applies_witness :
  Forall (is_material Samples.scene_heap)
    (Samples.renderer_material :: List.map Scene.material [Samples.scene_object])
  /\ 2%nat ∈ Samples.renderer_material :: List.map Scene.material [Samples.scene_object]
  /\ Js.view (loadPreset Samples.scene_heap Samples.renderer_material
                [Samples.scene_object] Glass) 2%nat
     = Some (preset_view Glass).
Proof.
  assert (Hall : Forall (is_material Samples.scene_heap)
                   (Samples.renderer_material
                    :: List.map Scene.material [Samples.scene_object])).
  { repeat constructor; eexists; reflexivity. }
  assert (Hin : 2%nat ∈ Samples.renderer_material
                        :: List.map Scene.material [Samples.scene_object]).
  { right. left. }
  split; [exact Hall|]. split; [exact Hin|].
  apply (loadPreset_applies _ _ _ Glass 2%nat Hall Hin).
Defined.

Lemma loadPreset_unshares_witness :
  Forall (is_material Samples.scene_heap)
    (Samples.renderer_material :: List.map Scene.material [Samples.scene_object])
  /\ 2%nat <> 1%nat
  /\ Js.view
       (Js.assign_albedo_component
          (loadPreset Samples.scene_heap Samples.renderer_material
             [Samples.scene_object] Gold) 2%nat 0 0.5) 1%nat
     = Some (preset_view Gold).
Proof.
  assert (Hall : Forall (is_material Samples.scene_heap)
                   (Samples.renderer_material
                    :: List.map Scene.material [Samples.scene_object])).
  { repeat constructor; eexists; reflexivity. }
  assert (H2 : 2%nat ∈ Samples.renderer_material
                       :: List.map Scene.material [Samples.scene_object]).
  { right. left. }
  assert (H1 : 1%nat ∈ Samples.renderer_material
                       :: List.map Scene.material [Samples.scene_object]).
  { left. }
  assert (Hne : 2%nat <> 1%nat) by lia.
  split; [exact Hall|]. split; [exact Hne|].
  apply (loadPreset_unshares _ _ _ Gold 2%nat 1%nat 0%nat 0.5 Hall H2 H1 Hne).
Defined.

Lemma updateMaterial_separate (rendererMaterial a : Js.loc) (xs : list R)
    (vm vr va : Js.value) (objects : list Scene.SceneObject) :
  forall (h : Js.heap) (done : list Js.loc),
    owns h rendererMaterial a xs vm vr va ->
    rendererMaterial ∈ done ->
    separate h done xs vm vr va ->
    Forall (is_material h) (List.map Scene.material objects) ->
    rendererMaterial ∉ List.map Scene.material objects ->
    exists h',
      updateMaterial h rendererMaterial objects = Some h'
      /\ separate h' (rev (List.map Scene.material objects) ++ done) xs vm vr va
      /\ owns h' rendererMaterial a xs vm vr va.
Proof.
  induction objects as [|o objects IH]; intros h done Hr Hdone Hsep Hall Hnot; simpl.
  - exists h. split; [reflexivity|]. split; assumption.
  - simpl in Hall, Hnot.
    apply Forall_cons in Hall. destruct Hall as [Ho Hall].
    rewrite not_elem_of_cons in Hnot. destruct Hnot as [Hne Hnot].
    destruct Hr as [Hrm Ha].
    unfold Js.get_material. rewrite Hrm.
    rewrite (copyMaterial_overwrite _ _ _ xs) by (simpl; rewrite Ha; reflexivity).
    simpl.
    destruct (IH (overwrite h (Scene.material o) xs vm vr va)
                 (Scene.material o :: done)) as (h' & Hup & Hsep' & Hr').
    + apply owns_keeps; [congruence|split; assumption].
    + right. exact Hdone.
    + apply separate_step; assumption.
    + eapply Forall_impl; [exact Hall|]. intros k Hk.
      apply overwrite_is_material, Hk.
    + exact Hnot.
    + exists h'. split; [exact Hup|]. split; [|exact Hr'].
      rewrite <- app_assoc. exact Hsep'.
Qed.

(** When the renderer's albedo is an array and the renderer's material is
    not the material of a scene object, [updateMaterial] completes, leaves
    the renderer's material as it reads, and makes the material of every
    scene object read the same; each object has then an albedo array of its
    own, so a later write to a component of an object's albedo does not
    show in the renderer's material. *)
Theorem updateMaterial_copies (h : Js.heap) (rendererMaterial : Js.loc)
    (objects : list Scene.SceneObject) (v : Js.material_view) (xs : list R) :
  Forall (is_material h) (List.map Scene.material objects) ->
  rendererMaterial ∉ List.map Scene.material objects ->
  Js.view h rendererMaterial = Some v ->
  Js.view_albedo v = Some xs ->
  exists h',
    updateMaterial h rendererMaterial objects = Some h'
    /\ Js.view h' rendererMaterial = Some v
    /\ (forall l, l ∈ List.map Scene.material objects -> Js.view h' l = Some v)
    /\ (forall l i x, l ∈ List.map Scene.material objects ->
          Js.view (Js.assign_albedo_component h' l i x) rendererMaterial = Some v).
Proof.
  intros Hall Hnot Hview Halbedo.
  unfold Js.view in Hview.
  destruct (h !! rendererMaterial) as [[ys|[al vm vr va]]|] eqn:Hrm; try discriminate.
  injection Hview as <-. simpl in Halbedo.
  destruct al as [| | | |a]; try discriminate. simpl in Halbedo.
  destruct (h !! a) as [[ys|m]|] eqn:Ha; try discriminate.
  injection Halbedo as ->.
  assert (Hr : owns h rendererMaterial a xs vm vr va) by (split; assumption).
  assert (Hv : Js.deref_array h (Js.VRef a) = Some xs) by (simpl; rewrite Ha; reflexivity).
  rewrite Hv. clear Hv.
  destruct (updateMaterial_separate rendererMaterial a xs vm vr va objects h
              [rendererMaterial] Hr ltac:(left)) as (h' & Hup & [Hown Hinj] & Hr').
  { split.
    - intros l Hl. apply list_elem_of_singleton in Hl. subst l. exists a. exact Hr.
    - intros l1 l2 b H1 H2. apply list_elem_of_singleton in H1, H2. congruence. }
  { exact Hall. }
  { exact Hnot. }
  assert (Hmem : forall l, l ∈ List.map Scene.material objects ->
                   l ∈ rev (List.map Scene.material objects) ++ [rendererMaterial]).
  { intros l Hl. apply elem_of_app. left.
    apply list_elem_of_In. rewrite <- in_rev. apply list_elem_of_In. exact Hl. }
  assert (Hrmem : rendererMaterial
                  ∈ rev (List.map Scene.material objects) ++ [rendererMaterial]).
  { apply elem_of_app. right. left. }
  exists h'. split; [exact Hup|].
  split; [apply (owns_view _ _ _ _ _ _ _ Hr')|].
  split.
  - intros l Hl. destruct (Hown l (Hmem l Hl)) as [b Hb].
    apply (owns_view _ _ _ _ _ _ _ Hb).
  - intros l i x Hl. destruct (Hown l (Hmem l Hl)) as [b Hb].
    assert (Hne : b <> a).
    { intros ->. apply Hnot.
      rewrite <- (Hinj l rendererMaterial a (Hmem l Hl) Hrmem Hb Hr'). exact Hl. }
    destruct (assign_albedo_component_other _ _ _ _ _ _ _ _ _ _ _ _ _ i x Hb Hr' Hne)
      as [_ Hkeep].
    exact Hkeep.
Qed.

Lemma updateMaterial_copies_witness :
  Forall (is_material Samples.scene_heap) (List.map Scene.material [Samples.scene_object])
  /\ (Samples.renderer_material ∉ List.map Scene.material [Samples.scene_object])
  /\ exists h',
       updateMaterial Samples.scene_heap Samples.renderer_material
         [Samples.scene_object] = Some h'
       /\ Js.view (Js.assign_albedo_component h' 2%nat 0 1) Samples.renderer_material
          = Some (Js.MaterialView (Some [0.7; 0.3; 0.3]) (Js.VNum 0) (Js.VNum 0.5)
                    (Js.VNum 1)).
Proof.
  assert (Hall : Forall (is_material Samples.scene_heap)
                   (List.map Scene.material [Samples.scene_object])).
  { repeat constructor; eexists; reflexivity. }
  assert (Hnot : Samples.renderer_material
                 ∉ List.map Scene.material [Samples.scene_object]).
  { simpl. intros H. apply list_elem_of_singleton in H. discriminate. }
  split; [exact Hall|]. split; [exact Hnot|].
  destruct (updateMaterial_copies Samples.scene_heap Samples.renderer_material
              [Samples.scene_object] _ [0.7; 0.3; 0.3] Hall Hnot eq_refl eq_refl)
    as (h' & Hup & _ & _ & Hkeep).
  exists h'. split; [exact Hup|]. apply Hkeep. left.
Defined.

End EditorFacts.

(* ===================================================================== *)
(** * Properties of compiling and linking *)
(* ===================================================================== *)

Module ProgramFacts.
Import Program.

Lemma eqb_succ_l (n : nat) : (S n =? n)%nat = false.
Proof. apply Nat.eqb_neq. lia. Qed.

Lemma eqb_succ_r (n : nat) : (n =? S n)%nat = false.
Proof. apply Nat.eqb_neq. lia. Qed.

Lemma eqb_succ2_l (n : nat) : (S (S n) =? n)%nat = false.
Proof. apply Nat.eqb_neq. lia. Qed.

Ltac settle_handles :=
  cbn -[Nat.eqb String.append];
  rewrite ?Nat.eqb_refl, ?eqb_succ_l, ?eqb_succ_r, ?eqb_succ2_l;
  cbn -[Nat.eqb String.append];
  repeat split.

(** What a call of [createShaderProgram] does to the objects of the
    context, whenever it is made; [n] is the first handle the context hands
    out during the call.  When both sources compile and the program links
    it returns the program, with both shaders deleted.  When linking fails
    it throws, with the program and both shaders deleted.  When the vertex
    source does not compile it throws, with the one shader it created
    deleted.  When the vertex source compiles and the fragment source does
    not, it throws with the fragment shader deleted and the vertex shader
    neither deleted nor returned. *)
Theorem createShaderProgram_objects (d : driver) (vertexSource fragmentSource : string)
    (c : context) :
  let r := createShaderProgram d vertexSource fragmentSource c in
  let n := next c in
  exists new,
    events r.2 = events c ++ new
    /\ match compiles d vertexSource, compiles d fragmentSource, links d with
       | true, true, true =>
           r.1 = Ok (S (S n)) /\ liveShaders new = [] /\ livePrograms new = [S (S n)]
       | true, true, false =>
           r.1 = Thrown ("Shader program linking failed: " +:+ programInfoLog d)
           /\ liveShaders new = [] /\ livePrograms new = []
       | true, false, _ =>
           r.1 = Thrown ("FRAGMENT shader compilation failed: "
                         +:+ shaderInfoLog d fragmentSource)
           /\ liveShaders new = [n] /\ livePrograms new = []
       | false, _, _ =>
           r.1 = Thrown ("VERTEX shader compilation failed: "
                         +:+ shaderInfoLog d vertexSource)
           /\ liveShaders new = [] /\ livePrograms new = []
       end.
Proof.
  unfold createShaderProgram, compileShader, mbind, P_bind, create, call. simpl.
  destruct (compiles d vertexSource) eqn:Hv; simpl.
  - destruct (compiles d fragmentSource) eqn:Hf; simpl.
    + destruct (links d) eqn:Hl; simpl;
        (eexists; split; [rewrite <- !app_assoc; reflexivity|]); settle_handles.
    + eexists. split; [rewrite <- !app_assoc; reflexivity|]. settle_handles.
  - eexists. split; [rewrite <- !app_assoc; reflexivity|].
    destruct (compiles d fragmentSource), (links d); settle_handles.
Qed.

End ProgramFacts.
